(** * Cluster membership state machine of dragonboat (internal/rsm/membership.go)

    A shallow embedding of the membership bookkeeping of one Raft group:
    the role predicates, the validator [handleConfigChange], the applier
    [applyConfigChange], the store operations [set]/[get] and the digest
    [getHash], together with the properties stated about them. The
    generated marshalling code of the key-value message (package kvpb)
    follows in module [kvpb]. *)

From Stdlib Require Import NArith ZArith Ascii String List Lia.
From stdpp Require Import base decidable option list sorting gmap strings.

Local Open Scope N_scope.

(** ** Go's [strings] package, as far as the store uses it

    [addressEqual] calls [strings.TrimSpace] and [strings.EqualFold], which
    belong to the Go standard library.  The store is written against this
    interface; an instance for ASCII endpoints is given further down. *)
Class StringsPkg := {
  strings_TrimSpace : string → string;
  strings_EqualFold : string → string → bool
}.

(** ** The wire types of raftpb used by the store

    Every [uint64] (node ids, change orders, log indexes) is an [N]; the
    store compares and copies them and does no arithmetic on them. *)

(** Modelled from the spec: the raftpb declarations are not among the
    sources.  The four kinds are the ones the store names ([pb.AddNode] is the
    spec's AddVoter).  The type is an integer enumeration on the wire and the
    store itself provides for other values (the [default] case of
    [applyConfigChange], the ["unknown cc.Type value %d"] line of
    [handleConfigChange]); such a value is kept here as [UnknownType]. *)
Inductive ConfigChangeType :=
| AddNode
| RemoveNode
| AddObserver
| AddWitness
| UnknownType (code : Z).

(** Modelled from the spec: [pb.ConfigChange], the committed request.
    [cc_ConfigChangeId] is the requester's order, [cc_Initialize] the
    bootstrap flag. *)
Record ConfigChange := mkConfigChange {
  cc_ConfigChangeId : N;
  cc_Type : ConfigChangeType;
  cc_NodeID : N;
  cc_Address : string;
  cc_Initialize : bool
}.

(** Modelled from the spec: [pb.Membership], the snapshot.  [Removed] is a Go
    [map[uint64]bool] used as a set: only the presence of a key is read. *)
Record Membership := mkMembership {
  ConfigChangeId : N;
  Addresses : gmap N string;
  Removed : gmap N bool;
  Observers : gmap N string;
  Witnesses : gmap N string
}.

(** The store: [members] is the record the Go pointer refers to. *)
Record membership := mkmembership {
  clusterID : N;
  nodeID : N;
  ordered : bool;
  members : Membership
}.

(** The comma-ok form [_, ok := m[k]]. *)
Definition has {V} (m : gmap N V) (k : N) : bool :=
  match m !! k with
  | Some _ => true
  | None => false
  end.

Definition set_ConfigChangeId (i : N) (p : Membership) : Membership :=
  mkMembership i (Addresses p) (Removed p) (Observers p) (Witnesses p).
Definition set_Addresses (a : gmap N string) (p : Membership) : Membership :=
  mkMembership (ConfigChangeId p) a (Removed p) (Observers p) (Witnesses p).
Definition set_Removed (r : gmap N bool) (p : Membership) : Membership :=
  mkMembership (ConfigChangeId p) (Addresses p) r (Observers p) (Witnesses p).
Definition set_Observers (o : gmap N string) (p : Membership) : Membership :=
  mkMembership (ConfigChangeId p) (Addresses p) (Removed p) o (Witnesses p).
Definition set_Witnesses (w : gmap N string) (p : Membership) : Membership :=
  mkMembership (ConfigChangeId p) (Addresses p) (Removed p) (Observers p) w.

Definition with_members (f : Membership → Membership) (m : membership) : membership :=
  mkmembership (clusterID m) (nodeID m) (ordered m) (f (members m)).

(** ** Copies, construction and accessors *)

Definition deepCopyMembership (m : Membership) : Membership :=
  {| ConfigChangeId := ConfigChangeId m;
     Addresses := Addresses m;
     Removed := (λ _, true) <$> Removed m;
     Observers := Observers m;
     Witnesses := Witnesses m |}.

Definition newMembership (cid nid : N) (ord : bool) : membership :=
  {| clusterID := cid; nodeID := nid; ordered := ord;
     members := {| ConfigChangeId := 0; Addresses := ∅; Removed := ∅;
                   Observers := ∅; Witnesses := ∅ |} |}.

Definition set (m : membership) (n : Membership) : membership :=
  with_members (λ _, deepCopyMembership n) m.

(** [get] hands out the key set of [Removed] as a [map[uint64]struct{}]. *)
Definition get (m : membership)
  : gmap N string * gmap N string * gmap N string * gset N * N :=
  (Addresses (members m), Observers (members m), Witnesses (members m),
   dom (Removed (members m)), ConfigChangeId (members m)).

Definition getMembership (m : membership) : Membership :=
  deepCopyMembership (members m).

Definition isEmpty (m : membership) : bool :=
  bool_decide (size (Addresses (members m)) = 0%nat).

(** ** Role predicates *)

Section predicates.
Context `{StringsPkg}.

Definition addressEqual (addr1 addr2 : string) : bool :=
  strings_EqualFold (strings_TrimSpace addr1) (strings_TrimSpace addr2).

(** A [range] loop that returns true at the first matching address; the
    result does not depend on the iteration order. *)
Definition anyAddress (mp : gmap N string) (addr : string) : bool :=
  existsb (λ kv, addressEqual kv.2 addr) (map_to_list mp).

Definition isConfChangeUpToDate (m : membership) (cc : ConfigChange) : bool :=
  if negb (ordered m) || cc_Initialize cc then true
  else if ConfigChangeId (members m) =? cc_ConfigChangeId cc then true
  else false.

Definition isAddingRemovedNode (m : membership) (cc : ConfigChange) : bool :=
  match cc_Type cc with
  | AddNode | AddObserver | AddWitness => has (Removed (members m)) (cc_NodeID cc)
  | _ => false
  end.

Definition isPromotingObserver (m : membership) (cc : ConfigChange) : bool :=
  match cc_Type cc with
  | AddNode =>
      match Observers (members m) !! cc_NodeID cc with
      | Some oa => addressEqual oa (cc_Address cc)
      | None => false
      end
  | _ => false
  end.

Definition isInvalidObserverPromotion (m : membership) (cc : ConfigChange) : bool :=
  match cc_Type cc with
  | AddNode =>
      match Observers (members m) !! cc_NodeID cc with
      | Some oa => negb (addressEqual oa (cc_Address cc))
      | None => false
      end
  | _ => false
  end.

Definition isAddType (t : ConfigChangeType) : bool :=
  match t with
  | AddNode | AddObserver | AddWitness => true
  | _ => false
  end.

Definition isAddingExistingMember (m : membership) (cc : ConfigChange) : bool :=
  if match cc_Type cc with
     | AddNode => has (Addresses (members m)) (cc_NodeID cc)
     | AddObserver => has (Observers (members m)) (cc_NodeID cc)
     | AddWitness => has (Witnesses (members m)) (cc_NodeID cc)
     | _ => false
     end
  then true
  else if isPromotingObserver m cc then false
  else if isAddType (cc_Type cc) then
    if anyAddress (Addresses (members m)) (cc_Address cc) then true
    else if anyAddress (Observers (members m)) (cc_Address cc) then true
    else if anyAddress (Witnesses (members m)) (cc_Address cc) then true
    else false
  else false.

Definition isAddingNodeAsObserver (m : membership) (cc : ConfigChange) : bool :=
  match cc_Type cc with
  | AddObserver => has (Addresses (members m)) (cc_NodeID cc)
  | _ => false
  end.

Definition isAddingNodeAsWitness (m : membership) (cc : ConfigChange) : bool :=
  match cc_Type cc with
  | AddWitness => has (Addresses (members m)) (cc_NodeID cc)
  | _ => false
  end.

Definition isAddingWitnessAsObserver (m : membership) (cc : ConfigChange) : bool :=
  match cc_Type cc with
  | AddObserver => has (Witnesses (members m)) (cc_NodeID cc)
  | _ => false
  end.

Definition isAddingWitnessAsNode (m : membership) (cc : ConfigChange) : bool :=
  match cc_Type cc with
  | AddNode => has (Witnesses (members m)) (cc_NodeID cc)
  | _ => false
  end.

Definition isAddingObserverAsWitness (m : membership) (cc : ConfigChange) : bool :=
  match cc_Type cc with
  | AddWitness => has (Observers (members m)) (cc_NodeID cc)
  | _ => false
  end.

Definition isDeletingOnlyNode (m : membership) (cc : ConfigChange) : bool :=
  match cc_Type cc with
  | RemoveNode =>
      if bool_decide (size (Addresses (members m)) = 1%nat)
      then has (Addresses (members m)) (cc_NodeID cc)
      else false
  | _ => false
  end.
End predicates.

(** ** Effects: the store is mutated in place, the logger is written to,
    and a Go panic aborts the call *)

(** One constructor per log line of [handleConfigChange]. *)
Inductive logEvent :=
| AppliedAdd | AppliedRemove | AppliedAddObserver | AppliedAddWitness
| RejOutOfOrder | RejAddRemoved | RejAddExist
| RejAddExistAsObserver | RejAddExistAsWitness
| RejAddWitnessAsNode | RejAddWitnessAsObserver | RejAddObserverAsWitness
| RejRemoveOnlyNode | RejInvalidPromotion.

(** What a call leaves behind: the value it returned, or the panic message;
    in both cases the store as the call left it and the lines it logged. *)
Inductive outcome (A : Type) :=
| Returned (a : A) (m : membership) (log : list logEvent)
| Panicked (msg : string) (m : membership) (log : list logEvent).
Arguments Returned {A} a m log.
Arguments Panicked {A} msg m log.

Definition M (A : Type) : Type := membership → outcome A.

Definition ret {A} (a : A) : M A := λ m, Returned a m [].

Definition bind {A B} (c : M A) (k : A → M B) : M B :=
  λ m, match c m with
       | Returned a m1 l1 =>
           match k a m1 with
           | Returned b m2 l2 => Returned b m2 (l1 ++ l2)
           | Panicked msg m2 l2 => Panicked msg m2 (l1 ++ l2)
           end
       | Panicked msg m1 l1 => Panicked msg m1 l1
       end.

Notation "'let!' x ':=' c 'in' k" := (bind c (λ x, k))
  (at level 10, x name, c at level 100, k at level 200).
Notation "c >> k" := (bind c (λ _, k))
  (at level 100, k at level 200, right associativity).

Definition gets {A} (f : membership → A) : M A := λ m, Returned (f m) m [].
Definition modify (f : Membership → Membership) : M unit :=
  λ m, Returned tt (with_members f m) [].
Definition panic {A} (msg : string) : M A := λ m, Panicked msg m [].
Definition plog_Infof (e : logEvent) : M unit := λ m, Returned tt m [e].
Definition plog_Warningf (e : logEvent) : M unit := λ m, Returned tt m [e].
Definition plog_Panicf {A} (msg : string) : M A := panic msg.

(** ** Change applier *)

Definition applyConfigChange (cc : ConfigChange) (index : N) : M unit :=
  modify (set_ConfigChangeId index) >>
  match cc_Type cc with
  | AddNode =>
      modify (λ p, set_Observers (delete (cc_NodeID cc) (Observers p)) p) >>
      let! ok := gets (λ m, has (Witnesses (members m)) (cc_NodeID cc)) in
      if ok : bool then panic "not suppose to reach here"
      else modify (λ p, set_Addresses (<[cc_NodeID cc := cc_Address cc]> (Addresses p)) p)
  | AddObserver =>
      let! ok := gets (λ m, has (Addresses (members m)) (cc_NodeID cc)) in
      if ok : bool then panic "not suppose to reach here"
      else modify (λ p, set_Observers (<[cc_NodeID cc := cc_Address cc]> (Observers p)) p)
  | AddWitness =>
      let! ok := gets (λ m, has (Addresses (members m)) (cc_NodeID cc)) in
      if ok : bool then panic "not suppose to reach here"
      else
        let! ok' := gets (λ m, has (Observers (members m)) (cc_NodeID cc)) in
        if ok' : bool then panic "not suppose to reach here"
        else modify (λ p, set_Witnesses (<[cc_NodeID cc := cc_Address cc]> (Witnesses p)) p)
  | RemoveNode =>
      modify (λ p, set_Addresses (delete (cc_NodeID cc) (Addresses p)) p) >>
      modify (λ p, set_Observers (delete (cc_NodeID cc) (Observers p)) p) >>
      modify (λ p, set_Witnesses (delete (cc_NodeID cc) (Witnesses p)) p) >>
      modify (λ p, set_Removed (<[cc_NodeID cc := true]> (Removed p)) p)
  | UnknownType _ => panic "unknown config change type"
  end.

(** ** Change validator and the transactional entry point *)

Section validator.
Context `{StringsPkg}.

(** The conjunction computed into [accepted]. *)
Definition accepted_of (m : membership) (cc : ConfigChange) : bool :=
  isConfChangeUpToDate m cc &&
  negb (isAddingRemovedNode m cc) &&
  negb (isAddingExistingMember m cc) &&
  negb (isAddingNodeAsObserver m cc) &&
  negb (isAddingNodeAsWitness m cc) &&
  negb (isAddingWitnessAsNode m cc) &&
  negb (isAddingWitnessAsObserver m cc) &&
  negb (isAddingObserverAsWitness m cc) &&
  negb (isDeletingOnlyNode m cc) &&
  negb (isInvalidObserverPromotion m cc).

Definition handleConfigChange (cc : ConfigChange) (index : N) : M bool :=
  let! nodeBecomingObserver := gets (λ m, isAddingNodeAsObserver m cc) in
  let! nodeBecomingWitness := gets (λ m, isAddingNodeAsWitness m cc) in
  let! witnessBecomingNode := gets (λ m, isAddingWitnessAsNode m cc) in
  let! witnessBecomingObserver := gets (λ m, isAddingWitnessAsObserver m cc) in
  let! observerBecomingWitness := gets (λ m, isAddingObserverAsWitness m cc) in
  let! alreadyMember := gets (λ m, isAddingExistingMember m cc) in
  let! addRemovedNode := gets (λ m, isAddingRemovedNode m cc) in
  let! upToDateCC := gets (λ m, isConfChangeUpToDate m cc) in
  let! deleteOnlyNode := gets (λ m, isDeletingOnlyNode m cc) in
  let! invalidPromotion := gets (λ m, isInvalidObserverPromotion m cc) in
  let accepted :=
    upToDateCC &&
    negb addRemovedNode &&
    negb alreadyMember &&
    negb nodeBecomingObserver &&
    negb nodeBecomingWitness &&
    negb witnessBecomingNode &&
    negb witnessBecomingObserver &&
    negb observerBecomingWitness &&
    negb deleteOnlyNode &&
    negb invalidPromotion in
  (if accepted then
     applyConfigChange cc index >>
     match cc_Type cc with
     | AddNode => plog_Infof AppliedAdd
     | RemoveNode => plog_Infof AppliedRemove
     | AddObserver => plog_Infof AppliedAddObserver
     | AddWitness => plog_Infof AppliedAddWitness
     | UnknownType _ => plog_Panicf "unknown cc.Type value"
     end
   else
     if negb upToDateCC then plog_Warningf RejOutOfOrder
     else if addRemovedNode : bool then plog_Warningf RejAddRemoved
     else if alreadyMember : bool then plog_Warningf RejAddExist
     else if nodeBecomingObserver : bool then plog_Warningf RejAddExistAsObserver
     else if nodeBecomingWitness : bool then plog_Warningf RejAddExistAsWitness
     else if witnessBecomingNode : bool then plog_Warningf RejAddWitnessAsNode
     else if witnessBecomingObserver : bool then plog_Warningf RejAddWitnessAsObserver
     else if observerBecomingWitness : bool then plog_Warningf RejAddObserverAsWitness
     else if deleteOnlyNode : bool then plog_Warningf RejRemoveOnlyNode
     else if invalidPromotion : bool then plog_Warningf RejInvalidPromotion
     else plog_Panicf "config change rejected for unknown reasons") >>
  ret accepted.
End validator.

(** The store an outcome leaves behind, whether the call returned or not. *)
Definition store_of {A} (o : outcome A) : membership :=
  match o with
  | Returned _ m _ => m
  | Panicked _ m _ => m
  end.

(** ** Sequences of calls *)

(** The committed stream: each request with its log index.  Every call is
    recorded with its verdict and the change order it left. *)
Section runs.
Context `{StringsPkg}.

Fixpoint applyAll (calls : list (ConfigChange * N)) : M (list (bool * N)) :=
  match calls with
  | [] => ret []
  | (cc, index) :: rest =>
      let! b := handleConfigChange cc index in
      let! after := gets (λ m, ConfigChangeId (members m)) in
      let! rs := applyAll rest in
      ret ((b, after) :: rs)
  end.

(** The two mutating operations of the store. *)
Inductive op :=
| OpApplyChange (cc : ConfigChange) (index : N)
| OpSet (n : Membership).

Definition runOp (o : op) : M unit :=
  match o with
  | OpApplyChange cc index => handleConfigChange cc index >> ret tt
  | OpSet n => λ m, Returned tt (set m n) []
  end.

Fixpoint runOps (ops : list op) : M unit :=
  match ops with
  | [] => ret tt
  | o :: rest => runOp o >> runOps rest
  end.
End runs.

(** ** An instance of the [strings] interface for ASCII endpoints

    Exact on strings of bytes below 0x80 (host:port endpoints): the six ASCII
    white-space bytes are trimmed and the letters A-Z fold onto a-z.  Bytes
    from 0x80 on are kept and compared as they are. *)

Definition asciiSpace (c : ascii) : bool :=
  let n := N_of_ascii c in
  (n =? 9) || (n =? 10) || (n =? 11) || (n =? 12) || (n =? 13) || (n =? 32).

Fixpoint trimLeft (s : string) : string :=
  match s with
  | EmptyString => EmptyString
  | String c s' => if asciiSpace c then trimLeft s' else s
  end.

Fixpoint trimRight (s : string) : string :=
  match s with
  | EmptyString => EmptyString
  | String c s' =>
      match trimRight s' with
      | EmptyString => if asciiSpace c then EmptyString else String c EmptyString
      | r => String c r
      end
  end.

Definition ascii_TrimSpace (s : string) : string := trimRight (trimLeft s).

Definition toLower (c : ascii) : ascii :=
  let n := N_of_ascii c in
  if (65 <=? n) && (n <=? 90) then ascii_of_N (n + 32) else c.


Fixpoint ascii_EqualFold (s t : string) : bool :=
  match s, t with
  | EmptyString, EmptyString => true
  | String a s', String b t' =>
      Ascii.eqb (toLower a) (toLower b) && ascii_EqualFold s' t'
  | _, _ => false
  end.

#[global] Instance AsciiStrings : StringsPkg :=
  {| strings_TrimSpace := ascii_TrimSpace; strings_EqualFold := ascii_EqualFold |}.

Fixpoint mapString (f : ascii → ascii) (s : string) : string :=
  match s with
  | EmptyString => EmptyString
  | String c s' => String (f c) (mapString f s')
  end.


(** ** The digest: [encoding/binary], [sort] and [crypto/md5] *)

(** [binary.LittleEndian.PutUint64]: byte [i] is [byte(v >> (8*i))]. *)
Definition PutUint64 (v : N) : list N :=
  map (λ i, N.shiftr v (8 * i) mod 256) [0; 1; 2; 3; 4; 5; 6; 7].

(** [binary.LittleEndian.Uint64] over the first eight bytes of [b]. *)
Fixpoint le_decode (b : list N) : N :=
  match b with
  | [] => 0
  | x :: b' => N.lor x (N.shiftl (le_decode b') 8)
  end.

Definition Uint64 (b : list N) : N := le_decode (take 8 b).

Module md5.
(** MD5 as in RFC 1321, on 32-bit words kept in [N]. *)
Definition w32 (x : N) : N := x mod 2 ^ 32.
Definition not32 (x : N) : N := N.lxor x 0xffffffff.
Definition rotl32 (x c : N) : N :=
  w32 (N.lor (N.shiftl x c) (N.shiftr x (32 - c))).

Definition S : list N :=
  [7; 12; 17; 22; 7; 12; 17; 22; 7; 12; 17; 22; 7; 12; 17; 22;
   5; 9; 14; 20; 5; 9; 14; 20; 5; 9; 14; 20; 5; 9; 14; 20;
   4; 11; 16; 23; 4; 11; 16; 23; 4; 11; 16; 23; 4; 11; 16; 23;
   6; 10; 15; 21; 6; 10; 15; 21; 6; 10; 15; 21; 6; 10; 15; 21].

Definition K : list N :=
  [0xd76aa478; 0xe8c7b756; 0x242070db; 0xc1bdceee;
   0xf57c0faf; 0x4787c62a; 0xa8304613; 0xfd469501;
   0x698098d8; 0x8b44f7af; 0xffff5bb1; 0x895cd7be;
   0x6b901122; 0xfd987193; 0xa679438e; 0x49b40821;
   0xf61e2562; 0xc040b340; 0x265e5a51; 0xe9b6c7aa;
   0xd62f105d; 0x02441453; 0xd8a1e681; 0xe7d3fbc8;
   0x21e1cde6; 0xc33707d6; 0xf4d50d87; 0x455a14ed;
   0xa9e3e905; 0xfcefa3f8; 0x676f02d9; 0x8d2a4c8a;
   0xfffa3942; 0x8771f681; 0x6d9d6122; 0xfde5380c;
   0xa4beea44; 0x4bdecfa9; 0xf6bb4b60; 0xbebfbc70;
   0x289b7ec6; 0xeaa127fa; 0xd4ef3085; 0x04881d05;
   0xd9d4d039; 0xe6db99e5; 0x1fa27cf8; 0xc4ac5665;
   0xf4292244; 0x432aff97; 0xab9423a7; 0xfc93a039;
   0x655b59c3; 0x8f0ccc92; 0xffeff47d; 0x85845dd1;
   0x6fa87e4f; 0xfe2ce6e0; 0xa3014314; 0x4e0811a1;
   0xf7537e82; 0xbd3af235; 0x2ad7d2bb; 0xeb86d391].

Definition state : Type := N * N * N * N.

Definition init : state := (0x67452301, 0xefcdab89, 0x98badcfe, 0x10325476).

(** Operation [i] of the 64 on the block [X] of sixteen words. *)
Definition round (X : list N) (st : state) (i : nat) : state :=
  let '(a, b, c, d) := st in
  let '(f, g) :=
    if (i <? 16)%nat then
      (N.lor (N.land b c) (N.land (not32 b) d), i)
    else if (i <? 32)%nat then
      (N.lor (N.land d b) (N.land (not32 d) c), ((5 * i + 1) mod 16)%nat)
    else if (i <? 48)%nat then
      (N.lxor (N.lxor b c) d, ((3 * i + 5) mod 16)%nat)
    else
      (N.lxor c (N.lor b (not32 d)), ((7 * i) mod 16)%nat) in
  let f' := w32 (f + a + nth i K 0 + nth g X 0) in
  (d, w32 (b + rotl32 f' (nth i S 0)), b, c).

Fixpoint words (b : list N) (n : nat) : list N :=
  match n with
  | O => []
  | Datatypes.S n' => le_decode (take 4 b) :: words (drop 4 b) n'
  end.

Definition block (st : state) (p : list N) : state :=
  let '(a0, b0, c0, d0) := st in
  let '(a, b, c, d) := fold_left (round (words p 16)) (seq 0 64) st in
  (w32 (a0 + a), w32 (b0 + b), w32 (c0 + c), w32 (d0 + d)).

Fixpoint blocks (fuel : nat) (st : state) (p : list N) : state :=
  match fuel with
  | O => st
  | Datatypes.S fuel' =>
      match p with
      | [] => st
      | _ => blocks fuel' (block st (take 64 p)) (drop 64 p)
      end
  end.

(** Padding: 0x80, zeros up to 56 modulo 64, the bit length on 8 bytes. *)
Definition pad (msg : list N) : list N :=
  let len := length msg in
  msg ++ [0x80] ++ repeat 0 ((55 + 64 - len mod 64) mod 64)%nat
      ++ PutUint64 (8 * N.of_nat len).

Definition le32 (x : N) : list N :=
  map (λ i, N.shiftr x (8 * i) mod 256) [0; 1; 2; 3].

Definition sum (msg : list N) : list N :=
  let p := pad msg in
  let '(a, b, c, d) := blocks (length p) init p in
  le32 a ++ le32 b ++ le32 c ++ le32 d.

(** [hash.Hash] as [md5.New()] returns it: [Write] extends the message
    hashed so far and never fails, [Sum(nil)] is the MD5 of that message. *)
Record digest := mkdigest { written : list N }.
Definition New : digest := mkdigest [].
Definition Write (d : digest) (p : list N) : digest := mkdigest (written d ++ p).
Definition Sum (d : digest) : list N := sum (written d).
End md5.

(** [sort.Slice] with [less = vals[i] < vals[j]]. *)
Definition sort_Slice (vals : list N) : list N := merge_sort N.le vals.

(** [getHash] when [range] over the voters yields the keys in [order]. *)
Definition getHash_in (order : list N) (m : membership) : N :=
  let vals := fold_left (λ vals v, vals ++ [v]) order [] in
  let vals := sort_Slice vals in
  let vals := vals ++ [ConfigChangeId (members m)] in
  let hash := fold_left (λ hash v, md5.Write hash (PutUint64 v)) vals md5.New in
  let md5sum := md5.Sum hash in
  Uint64 (take 8 md5sum).

Definition getHash (m : membership) : N :=
  getHash_in (map_to_list (Addresses (members m))).*1 m.

(** The digest input the format prescribes for a list of voter ids. *)
Definition digest_input (ids : list N) (changeOrder : N) : list N :=
  concat (map PutUint64 ids) ++ PutUint64 changeOrder.

Definition bytes_of_string (s : string) : list N :=
  map N_of_ascii (list_ascii_of_string s).

(** ** Vocabulary of the stated properties *)

Definition isKnownType (t : ConfigChangeType) : bool :=
  match t with
  | UnknownType _ => false
  | _ => true
  end.

(** Staleness as the specification words it: order enforcement is on, the
    request is not the bootstrap one, and the requester saw another order. *)
Definition stale (m : membership) (cc : ConfigChange) : Prop :=
  ordered m = true ∧ cc_Initialize cc = false ∧
  cc_ConfigChangeId cc ≠ ConfigChangeId (members m).

(** The rejection predicates as the specification words them.  The code's
    boolean functions are shown below to decide exactly these. *)
Section spec_predicates.
Context `{StringsPkg}.

(** Any Add kind and the node id is retired. *)
Definition targetRemoved (m : membership) (cc : ConfigChange) : Prop :=
  isAddType (cc_Type cc) = true ∧ is_Some (Removed (members m) !! cc_NodeID cc).

(** AddVoter for an observer whose recorded address equals the request's. *)
Definition promotingObserver (m : membership) (cc : ConfigChange) : Prop :=
  cc_Type cc = AddNode ∧
  ∃ oa, Observers (members m) !! cc_NodeID cc = Some oa ∧
        addressEqual oa (cc_Address cc) = true.

(** AddVoter for an observer whose recorded address does not match. *)
Definition invalidPromotion (m : membership) (cc : ConfigChange) : Prop :=
  cc_Type cc = AddNode ∧
  ∃ oa, Observers (members m) !! cc_NodeID cc = Some oa ∧
        addressEqual oa (cc_Address cc) = false.

(** The address already belongs to some voter, observer or witness. *)
Definition addressInUse (m : membership) (addr : string) : Prop :=
  ∃ id a,
    (Addresses (members m) !! id = Some a ∨
     Observers (members m) !! id = Some a ∨
     Witnesses (members m) !! id = Some a) ∧
    addressEqual a addr = true.

(** The node id is already in the map of the requested kind, or, for an Add
    kind that is not a valid promotion, the address is in use. *)
Definition alreadyMember (m : membership) (cc : ConfigChange) : Prop :=
  (cc_Type cc = AddNode ∧ is_Some (Addresses (members m) !! cc_NodeID cc)) ∨
  (cc_Type cc = AddObserver ∧ is_Some (Observers (members m) !! cc_NodeID cc)) ∨
  (cc_Type cc = AddWitness ∧ is_Some (Witnesses (members m) !! cc_NodeID cc)) ∨
  (isAddType (cc_Type cc) = true ∧ addressInUse m (cc_Address cc) ∧
   ¬ promotingObserver m cc).

Definition observerOverVoter (m : membership) (cc : ConfigChange) : Prop :=
  cc_Type cc = AddObserver ∧ is_Some (Addresses (members m) !! cc_NodeID cc).

Definition witnessOverVoter (m : membership) (cc : ConfigChange) : Prop :=
  cc_Type cc = AddWitness ∧ is_Some (Addresses (members m) !! cc_NodeID cc).

Definition witnessToVoter (m : membership) (cc : ConfigChange) : Prop :=
  cc_Type cc = AddNode ∧ is_Some (Witnesses (members m) !! cc_NodeID cc).

Definition witnessToObserver (m : membership) (cc : ConfigChange) : Prop :=
  cc_Type cc = AddObserver ∧ is_Some (Witnesses (members m) !! cc_NodeID cc).

Definition observerToWitness (m : membership) (cc : ConfigChange) : Prop :=
  cc_Type cc = AddWitness ∧ is_Some (Observers (members m) !! cc_NodeID cc).

(** RemoveNode, one voter, and that voter is the target. *)
Definition lastVoterRemoval (m : membership) (cc : ConfigChange) : Prop :=
  cc_Type cc = RemoveNode ∧ size (Addresses (members m)) = 1%nat ∧
  is_Some (Addresses (members m) !! cc_NodeID cc).

(** The validator's formula: not stale, and no rejection predicate holds. *)
Definition acceptable (m : membership) (cc : ConfigChange) : Prop :=
  ¬ stale m cc ∧
  ¬ (targetRemoved m cc ∨ alreadyMember m cc ∨ observerOverVoter m cc ∨
     witnessOverVoter m cc ∨ witnessToVoter m cc ∨ witnessToObserver m cc ∨
     observerToWitness m cc ∨ lastVoterRemoval m cc ∨ invalidPromotion m cc).
End spec_predicates.

(** No node id sits in two role maps. *)
Definition exclusive (p : Membership) : Prop :=
  ∀ id,
    ¬ (is_Some (Addresses p !! id) ∧ is_Some (Observers p !! id)) ∧
    ¬ (is_Some (Addresses p !! id) ∧ is_Some (Witnesses p !! id)) ∧
    ¬ (is_Some (Observers p !! id) ∧ is_Some (Witnesses p !! id)).

(** What the applier makes of a snapshot when none of its panics fires. *)
Definition applied (cc : ConfigChange) (index : N) (p : Membership) : Membership :=
  let p := set_ConfigChangeId index p in
  match cc_Type cc with
  | AddNode =>
      set_Addresses (<[cc_NodeID cc := cc_Address cc]> (Addresses p))
        (set_Observers (delete (cc_NodeID cc) (Observers p)) p)
  | AddObserver =>
      set_Observers (<[cc_NodeID cc := cc_Address cc]> (Observers p)) p
  | AddWitness =>
      set_Witnesses (<[cc_NodeID cc := cc_Address cc]> (Witnesses p)) p
  | RemoveNode =>
      set_Removed (<[cc_NodeID cc := true]> (Removed p))
        (set_Witnesses (delete (cc_NodeID cc) (Witnesses p))
           (set_Observers (delete (cc_NodeID cc) (Observers p))
              (set_Addresses (delete (cc_NodeID cc) (Addresses p)) p)))
  | UnknownType _ => p
  end.

(** A recorded run agrees with the change-order discipline: an accepted call
    moves the order strictly up to its log index, a rejected one keeps it. *)
Fixpoint orderly (prev : N) (calls : list (ConfigChange * N))
    (rs : list (bool * N)) : Prop :=
  match calls, rs with
  | [], [] => True
  | (_, index) :: calls', (b, after) :: rs' =>
      (if b : bool then prev < after ∧ after = index else after = prev) ∧
      orderly after calls' rs'
  | _, _ => False
  end.

(** The log index of the last accepted call of a run, [init] if there is none. *)
Fixpoint lastAccepted (init : N) (calls : list (ConfigChange * N))
    (rs : list (bool * N)) : N :=
  match calls, rs with
  | (_, index) :: calls', (b, _) :: rs' =>
      lastAccepted (if b : bool then index else init) calls' rs'
  | _, _ => init
  end.

(** The change orders left by the accepted calls of a run, in log order. *)
Fixpoint acceptedOrders (rs : list (bool * N)) : list N :=
  match rs with
  | [] => []
  | (b, after) :: rs' =>
      if b : bool then after :: acceptedOrders rs' else acceptedOrders rs'
  end.

(** Log indexes that go strictly up, starting above [prev]. *)
Fixpoint increasing (prev : N) (calls : list (ConfigChange * N)) : Prop :=
  match calls with
  | [] => True
  | (_, index) :: calls' => prev < index ∧ increasing index calls'
  end.

(** Every retired id of [m] is still retired in [m']. *)
Definition removed_kept (m m' : membership) : Prop :=
  ∀ id, is_Some (Removed (members m) !! id) → is_Some (Removed (members m') !! id).

(** Whether a sequence of operations installs only snapshots that list [id]
    as retired. *)
Fixpoint sets_retire (id : N) (ops : list op) : Prop :=
  match ops with
  | [] => True
  | OpSet n :: rest => is_Some (Removed n !! id) ∧ sets_retire id rest
  | OpApplyChange _ _ :: rest => sets_retire id rest
  end.


(** ** Concrete stores and requests used as instances *)

Definition fresh : membership := newMembership 1 1 true.

Definition bootstrap_voter : ConfigChange :=
  mkConfigChange 0 AddNode 1 "10.0.0.1:9000" true.

Definition one_voter : membership :=
  mkmembership 1 1 true (mkMembership 1 {[1 := "a"]} ∅ ∅ ∅).

Definition observer_two : membership :=
  mkmembership 1 1 true (mkMembership 4 ∅ ∅ {[2 := "a"]} ∅).


Definition retired_five : membership :=
  mkmembership 1 1 true (mkMembership 3 {[1 := "a"]} {[5 := true]} ∅ ∅).

Definition empty_snapshot : Membership := mkMembership 9 ∅ ∅ ∅ ∅.

Definition unknown_kind_request : ConfigChange :=
  mkConfigChange 0 (UnknownType 9) 5 "a" true.

Definition stale_unknown_kind_request : ConfigChange :=
  mkConfigChange 8 (UnknownType 9) 5 "a" false.

Definition observer_over_voter : ConfigChange :=
  mkConfigChange 1 AddObserver 1 "b" false.

Definition remove_voter_one : ConfigChange :=
  mkConfigChange 7 RemoveNode 1 "" true.

Definition remove_stranger : ConfigChange :=
  mkConfigChange 1 RemoveNode 6 "" false.

(** A bootstrap, a stale proposal and an up-to-date one, at indexes 1, 2, 3. *)
Definition three_calls : list (ConfigChange * N) :=
  [(bootstrap_voter, 1);
   (mkConfigChange 0 AddObserver 2 "b" false, 2);
   (mkConfigChange 1 AddObserver 3 "c" false, 3)].


(** [AddVoter{nodeID=2, address=addr}] proposed at order [o]. *)
Definition add_voter_two (addr : string) (o : N) (init : bool) : ConfigChange :=
  mkConfigChange o AddNode 2 addr init.

(** ** Vocabulary of further properties of the store *)

(** Every flag recorded in [Removed] is [true]. *)
Definition removed_flags_true (p : Membership) : Prop :=
  ∀ id v, Removed p !! id = Some v → v = true.

(** A retired node id is in no role map. *)
Definition retired_out (p : Membership) : Prop :=
  ∀ id, is_Some (Removed p !! id) →
    Addresses p !! id = None ∧ Observers p !! id = None ∧
    Witnesses p !! id = None.

(** Node [id] is a voter, an observer or a witness at address [a]. *)
Definition member_at (p : Membership) (id : N) (a : string) : Prop :=
  Addresses p !! id = Some a ∨ Observers p !! id = Some a ∨
  Witnesses p !! id = Some a.

(** No two different nodes are members at addresses that compare equal. *)
Definition distinct_addresses `{StringsPkg} (p : Membership) : Prop :=
  ∀ id1 a1 id2 a2,
    member_at p id1 a1 → member_at p id2 a2 →
    addressEqual a1 a2 = true → id1 = id2.

(** The address comparison is symmetric and transitive. *)
Definition address_equivalence `{StringsPkg} : Prop :=
  (∀ s t, addressEqual s t = true → addressEqual t s = true) ∧
  (∀ s t u, addressEqual s t = true → addressEqual t u = true →
            addressEqual s u = true).

Definition isApplied (ev : logEvent) : bool :=
  match ev with
  | AppliedAdd | AppliedRemove | AppliedAddObserver | AppliedAddWitness => true
  | _ => false
  end.

(** What each log line says about the request it reports on. *)
Definition reasonHolds `{StringsPkg} (ev : logEvent) (m : membership)
    (cc : ConfigChange) : Prop :=
  match ev with
  | AppliedAdd => cc_Type cc = AddNode
  | AppliedRemove => cc_Type cc = RemoveNode
  | AppliedAddObserver => cc_Type cc = AddObserver
  | AppliedAddWitness => cc_Type cc = AddWitness
  | RejOutOfOrder => stale m cc
  | RejAddRemoved => targetRemoved m cc
  | RejAddExist => alreadyMember m cc
  | RejAddExistAsObserver => observerOverVoter m cc
  | RejAddExistAsWitness => witnessOverVoter m cc
  | RejAddWitnessAsNode => witnessToVoter m cc
  | RejAddWitnessAsObserver => witnessToObserver m cc
  | RejAddObserverAsWitness => observerToWitness m cc
  | RejRemoveOnlyNode => lastVoterRemoval m cc
  | RejInvalidPromotion => invalidPromotion m cc
  end.

(** The presence checks that make [applyConfigChange] panic. *)
Definition applierGuard (m : membership) (cc : ConfigChange) : bool :=
  match cc_Type cc with
  | AddNode => has (Witnesses (members m)) (cc_NodeID cc)
  | AddObserver => has (Addresses (members m)) (cc_NodeID cc)
  | AddWitness =>
      has (Addresses (members m)) (cc_NodeID cc) ||
      has (Observers (members m)) (cc_NodeID cc)
  | RemoveNode => false
  | UnknownType _ => true
  end.

Definition isApplyChange (o : op) : bool :=
  match o with
  | OpApplyChange _ _ => true
  | OpSet _ => false
  end.

Definition stray_voter_three : membership :=
  mkmembership 1 1 false
    (mkMembership 2 {[3 := "c"]} {[8 := false]} {[2 := "a"]} {[4 := "d"]}).

(** * The key-value message of kv.proto

    The generated code of package [kvpb]. A byte is a [Z] (a Go byte is
    below 256), a Go string or byte slice is the list of its bytes, and
    every fixed-width integer is a [Z] with its wrap-around written out:
    [int] is Go's [int] on a 64-bit platform. *)

Module kvpb.
Local Open Scope Z_scope.

Definition int (z : Z) : Z := (z + 2 ^ 63) mod 2 ^ 64 - 2 ^ 63.
Definition int32 (z : Z) : Z := (z + 2 ^ 31) mod 2 ^ 32 - 2 ^ 31.
Definition uint64 (z : Z) : Z := z mod 2 ^ 64.
Definition uint8 (z : Z) : Z := z mod 256.
Definition len {A} (l : list A) : Z := Z.of_nat (length l).

(** [type PBKV struct]. *)
Record PBKV := mkPBKV { Key : list Z; Val : list Z }.

(** The error values the package returns: its two variables, the
    io.ErrUnexpectedEOF of the library, and the four messages built with
    fmt.Errorf, with the numbers they print. *)
Inductive error :=
| ErrInvalidLengthKv
| ErrIntOverflowKv
| ErrUnexpectedEOF
| ErrEndGroup
| ErrIllegalTag (fieldNum wire : Z)
| ErrWrongWireType (wireType : Z) (field : string)
| ErrIllegalWireType (wireType : Z).

(** How a call ends: with a value, an error, or a run-time panic.
    [OutOfFuel] is no outcome of the Go code: the loops whose end is not
    plain from their shape run on fuel, and this is the model running out
    of it. *)
Inductive run (A : Type) :=
| Ok (a : A)
| Err (e : error)
| Panic (msg : string)
| OutOfFuel.
Arguments Ok {A} a.
Arguments Err {A} e.
Arguments Panic {A} msg.
Arguments OutOfFuel {A}.

#[global] Instance run_ret : MRet run := @Ok.
#[global] Instance run_bind : MBind run := λ A B f c,
  match c with
  | Ok a => f a
  | Err e => Err e
  | Panic msg => Panic msg
  | OutOfFuel => OutOfFuel
  end.

(** [dAtA[i]], [dAtA[i] = x], [dAtA[lo:hi]] and [copy(dst[i:], src)], with
    the bounds checks of the Go run time. *)
Definition index (dAtA : list Z) (i : Z) : run Z :=
  if (0 <=? i) && (i <? len dAtA)
  then match dAtA !! Z.to_nat i with Some b => Ok b | None => Panic "index out of range" end
  else Panic "index out of range".

Definition store (dAtA : list Z) (i x : Z) : run (list Z) :=
  if (0 <=? i) && (i <? len dAtA) then Ok (<[Z.to_nat i := x]> dAtA)
  else Panic "index out of range".

Definition slice (dAtA : list Z) (lo hi : Z) : run (list Z) :=
  if (0 <=? lo) && (lo <=? hi) && (hi <=? len dAtA)
  then Ok (take (Z.to_nat (hi - lo)) (drop (Z.to_nat lo) dAtA))
  else Panic "slice bounds out of range".

Definition copy (dst : list Z) (i : Z) (src : list Z) : run (list Z * Z) :=
  if (0 <=? i) && (i <=? len dst) then
    let n := Z.min (len dst - i) (len src) in
    Ok (take (Z.to_nat i) dst ++ take (Z.to_nat n) src ++ drop (Z.to_nat (i + n)) dst, n)
  else Panic "slice bounds out of range".

(** [encodeVarintKv]: a uint64 leaves the loop after at most nine turns. *)
Fixpoint encodeVarintKv_loop (fuel : nat) (dAtA : list Z) (offset v : Z)
    : run (list Z * Z) :=
  match fuel with
  | O => OutOfFuel
  | S fuel =>
      if 128 <=? v then
        dAtA ← store dAtA offset (uint8 (Z.lor (Z.land v 0x7f) 0x80));
        encodeVarintKv_loop fuel dAtA (offset + 1) (Z.shiftr v 7)
      else
        dAtA ← store dAtA offset (uint8 v);
        Ok (dAtA, offset + 1)
  end.

Definition encodeVarintKv (dAtA : list Z) (offset v : Z) : run (list Z * Z) :=
  encodeVarintKv_loop 10 dAtA offset v.

(** [sovKv]: the loop shifts a uint64 by 7 until it is 0, which takes at
    most ten steps. *)
Fixpoint sovKv_loop (fuel : nat) (x n : Z) : Z :=
  match fuel with
  | O => n
  | S fuel =>
      let n := n + 1 in
      let x := Z.shiftr x 7 in
      if x =? 0 then n else sovKv_loop fuel x n
  end.

Definition sovKv (x : Z) : Z := sovKv_loop 10 x 0.

Definition sozKv (x : Z) : Z :=
  sovKv (uint64 (Z.lxor (uint64 (Z.shiftl x 1)) (uint64 (Z.shiftr (int x) 63)))).

Definition Reset (m : PBKV) : PBKV := mkPBKV [] [].

Definition GetKey (m : option PBKV) : list Z :=
  match m with
  | Some m => Key m
  | None => []
  end.

Definition GetVal (m : option PBKV) : list Z :=
  match m with
  | Some m => Val m
  | None => []
  end.

Definition Size (m : option PBKV) : Z :=
  match m with
  | None => 0
  | Some m =>
      let n := 0 in
      let l := len (Key m) in
      let n := n + (1 + l + sovKv (uint64 l)) in
      let l := len (Val m) in
      let n := n + (1 + l + sovKv (uint64 l)) in
      n
  end.

Definition MarshalTo (m : option PBKV) (dAtA : list Z) : run (list Z * Z) :=
  let i := 0 in
  dAtA ← store dAtA i 0xa;
  let i := i + 1 in
  match m with
  | None => Panic "nil pointer dereference"
  | Some m =>
      '(dAtA, i) ← encodeVarintKv dAtA i (uint64 (len (Key m)));
      '(dAtA, n) ← copy dAtA i (Key m);
      let i := i + n in
      dAtA ← store dAtA i 0x12;
      let i := i + 1 in
      '(dAtA, i) ← encodeVarintKv dAtA i (uint64 (len (Val m)));
      '(dAtA, n) ← copy dAtA i (Val m);
      let i := i + n in
      Ok (dAtA, i)
  end.

Definition Marshal (m : option PBKV) : run (list Z) :=
  let size := Size m in
  let dAtA := replicate (Z.to_nat size) 0 in
  '(dAtA, n) ← MarshalTo m dAtA;
  slice dAtA 0 n.

(** The values [shift] takes in a varint loop before [shift >= 64]. *)
Definition shifts : list Z := [0; 7; 14; 21; 28; 35; 42; 49; 56; 63].

(** The varint loop, written out five times in the source: [conv] is the
    type the value is accumulated in ([uint64], or [int] for [length] in
    [skipKv]). *)
Fixpoint varint (conv : Z → Z) (shifts : list Z) (dAtA : list Z)
    (acc iNdEx : Z) : run (Z * Z) :=
  match shifts with
  | [] => Err ErrIntOverflowKv
  | shift :: shifts =>
      if len dAtA <=? iNdEx then Err ErrUnexpectedEOF else
      b ← index dAtA iNdEx;
      let iNdEx := iNdEx + 1 in
      let acc := Z.lor acc (conv (Z.shiftl (Z.land b 0x7F) shift)) in
      if b <? 0x80 then Ok (acc, iNdEx)
      else varint conv shifts dAtA acc iNdEx
  end.

(** The loop of [skipKv] that steps over a varint. *)
Fixpoint skipVarint (shifts : list Z) (dAtA : list Z) (iNdEx : Z) : run Z :=
  match shifts with
  | [] => Err ErrIntOverflowKv
  | _ :: shifts =>
      if len dAtA <=? iNdEx then Err ErrUnexpectedEOF else
      let iNdEx := iNdEx + 1 in
      b ← index dAtA (iNdEx - 1);
      if b <? 0x80 then Ok iNdEx else skipVarint shifts dAtA iNdEx
  end.

Fixpoint skipKv_fuel (fuel : nat) (dAtA : list Z) : run Z :=
  match fuel with
  | O => OutOfFuel
  | S fuel =>
      let l := len dAtA in
      let iNdEx := 0 in
      if iNdEx <? l then
        '(wire, iNdEx) ← varint uint64 shifts dAtA 0 iNdEx;
        let wireType := int (Z.land wire 0x7) in
        if wireType =? 0 then skipVarint shifts dAtA iNdEx
        else if wireType =? 1 then Ok (int (iNdEx + 8))
        else if wireType =? 2 then
          '(length, iNdEx) ← varint int shifts dAtA 0 iNdEx;
          let iNdEx := int (iNdEx + length) in
          if length <? 0 then Err ErrInvalidLengthKv else Ok iNdEx
        else if wireType =? 3 then skipGroup fuel dAtA iNdEx
        else if wireType =? 4 then Ok iNdEx
        else if wireType =? 5 then Ok (int (iNdEx + 4))
        else Err (ErrIllegalWireType wireType)
      else Panic "unreachable"
  end
with skipGroup (fuel : nat) (dAtA : list Z) (iNdEx : Z) : run Z :=
  match fuel with
  | O => OutOfFuel
  | S fuel =>
      let start := iNdEx in
      '(innerWire, iNdEx) ← varint uint64 shifts dAtA 0 iNdEx;
      let innerWireType := int (Z.land innerWire 0x7) in
      if innerWireType =? 4 then Ok iNdEx
      else
        next ← skipKv_fuel fuel (drop (Z.to_nat start) dAtA);
        skipGroup fuel dAtA (int (start + next))
  end.

Definition skipKv (dAtA : list Z) : run Z :=
  skipKv_fuel (S (2 * length dAtA)) dAtA.

(** The body shared by [case 1] and [case 2] of [Unmarshal]. *)
Definition readBytes (dAtA : list Z) (iNdEx : Z) : run (list Z * Z) :=
  '(stringLen, iNdEx) ← varint uint64 shifts dAtA 0 iNdEx;
  let intStringLen := int stringLen in
  if intStringLen <? 0 then Err ErrInvalidLengthKv else
  let postIndex := int (iNdEx + intStringLen) in
  if len dAtA <? postIndex then Err ErrUnexpectedEOF else
  s ← slice dAtA iNdEx postIndex;
  Ok (s, postIndex).

(** One turn of the loop of [Unmarshal]. *)
Definition Unmarshal_field (m : PBKV) (dAtA : list Z) (iNdEx : Z)
    : run (PBKV * Z) :=
  let l := len dAtA in
  let preIndex := iNdEx in
  '(wire, iNdEx) ← varint uint64 shifts dAtA 0 iNdEx;
  let fieldNum := int32 (Z.shiftr wire 3) in
  let wireType := int (Z.land wire 0x7) in
  if wireType =? 4 then Err ErrEndGroup
  else if fieldNum <=? 0 then Err (ErrIllegalTag fieldNum wire)
  else if fieldNum =? 1 then
    if negb (wireType =? 2) then Err (ErrWrongWireType wireType "Key")
    else '(s, iNdEx) ← readBytes dAtA iNdEx; Ok (mkPBKV s (Val m), iNdEx)
  else if fieldNum =? 2 then
    if negb (wireType =? 2) then Err (ErrWrongWireType wireType "Val")
    else '(s, iNdEx) ← readBytes dAtA iNdEx; Ok (mkPBKV (Key m) s, iNdEx)
  else
    let iNdEx := preIndex in
    skippy ← skipKv (drop (Z.to_nat iNdEx) dAtA);
    if skippy <? 0 then Err ErrInvalidLengthKv
    else if l <? int (iNdEx + skippy) then Err ErrUnexpectedEOF
    else Ok (m, int (iNdEx + skippy)).

Fixpoint Unmarshal_loop (fuel : nat) (m : PBKV) (dAtA : list Z) (iNdEx : Z)
    : PBKV * run unit :=
  match fuel with
  | O => (m, OutOfFuel)
  | S fuel =>
      let l := len dAtA in
      if iNdEx <? l then
        match Unmarshal_field m dAtA iNdEx with
        | Ok (m, iNdEx) => Unmarshal_loop fuel m dAtA iNdEx
        | Err e => (m, Err e)
        | Panic msg => (m, Panic msg)
        | OutOfFuel => (m, OutOfFuel)
        end
      else if l <? iNdEx then (m, Err ErrUnexpectedEOF)
      else (m, Ok tt)
  end.

Definition Unmarshal (m : PBKV) (dAtA : list Z) : PBKV * run unit :=
  Unmarshal_loop (S (length dAtA)) m dAtA 0.

(** ** The wire format, to state what the code reads and writes *)

(** The base-128 digits of [v], low digit first, every digit but the last
    with the continuation bit set. *)
Fixpoint varintBytes (fuel : nat) (v : Z) : list Z :=
  match fuel with
  | O => []
  | S fuel =>
      if 128 <=? v then (v mod 128 + 128) :: varintBytes fuel (v / 128)
      else [v]
  end.

Definition varintOf (v : Z) : list Z := varintBytes 10 v.

(** The fields [Unmarshal] knows, and fixed-width fields it steps over. *)
Inductive field :=
| KeyField (s : list Z)
| ValField (s : list Z)
| FixedField (tag : Z) (payload : list Z).

Definition encodeField (f : field) : list Z :=
  match f with
  | KeyField s => [0xa] ++ varintOf (len s) ++ s
  | ValField s => [0x12] ++ varintOf (len s) ++ s
  | FixedField tag payload => [tag] ++ payload
  end.

Definition setField (m : PBKV) (f : field) : PBKV :=
  match f with
  | KeyField s => mkPBKV s (Val m)
  | ValField s => mkPBKV (Key m) s
  | FixedField _ _ => m
  end.

(** A fixed-width field of a number from 3 to 15: wire type 1 with 8 bytes
    or wire type 5 with 4 bytes. *)
Definition wellFormed (f : field) : Prop :=
  match f with
  | KeyField s | ValField s => True
  | FixedField tag payload =>
      24 <= tag < 128 ∧
      (Z.land tag 7 = 1 ∧ len payload = 8 ∨ Z.land tag 7 = 5 ∧ len payload = 4)
  end.

Definition encodeFields (fs : list field) : list Z :=
  concat (map encodeField fs).

Definition wire (m : PBKV) : list Z :=
  encodeFields [KeyField (Key m); ValField (Val m)].

(** A length-delimited field as it may arrive: the tag, the announced
    length [n] and the bytes [s] that follow, as many as there are. *)
Definition announced (tag n : Z) (s : list Z) : list Z :=
  [tag] ++ varintOf n ++ s.

Definition lengthTag (tag : Z) : Prop := tag = 0xa ∨ tag = 0x12.

(** An outcome the Go code can have: the fuel of the model did not run
    out. *)
Definition definite {A} (r : run A) : Prop :=
  match r with
  | OutOfFuel => False
  | _ => True
  end.

(** What [MarshalTo] writes before the bytes of [Val]. *)
Definition header (m : PBKV) : list Z :=
  [0xa] ++ varintOf (len (Key m)) ++ Key m ++ [0x12] ++ varintOf (len (Val m)).

(** The buffer of [MarshalTo] while it is filled: [w] is written, the rest
    of [d] is as it was. *)
Definition filled (w d : list Z) : list Z := w ++ drop (length w) d.

End kvpb.

(** ** The model of MD5 against the RFC's test suite *)

Example md5_empty :
  md5.sum [] = [0xd4; 0x1d; 0x8c; 0xd9; 0x8f; 0x00; 0xb2; 0x04;
                0xe9; 0x80; 0x09; 0x98; 0xec; 0xf8; 0x42; 0x7e].
Proof. vm_compute. reflexivity. Qed.

Example md5_abc :
  md5.sum (bytes_of_string "abc") =
    [0x90; 0x01; 0x50; 0x98; 0x3c; 0xd2; 0x4f; 0xb0;
     0xd6; 0x96; 0x3f; 0x7d; 0x28; 0xe1; 0x7f; 0x72].
Proof. vm_compute. reflexivity. Qed.

Example md5_two_blocks :
  md5.sum (repeat 97 70) =
    [0x0f; 0x5c; 0x6c; 0x4e; 0x74; 0x0b; 0xfc; 0xc0;
     0x8c; 0x3c; 0x26; 0xcc; 0xb2; 0x67; 0x3d; 0x46].
Proof. vm_compute. reflexivity. Qed.

Example getHash_in_example :
  getHash_in [2; 1]
    (mkmembership 1 1 true (mkMembership 7 {[1 := "a"; 2 := "b"]} ∅ ∅ ∅))
  = 3952972750749240280.
Proof. vm_compute. reflexivity. Qed.

(** ** The monad and the shape of [handleConfigChange] *)

Lemma bind_gets {A B} (f : membership → A) (k : A → M B) (m : membership) :
  bind (gets f) k m = k (f m) m.
Proof. unfold bind, gets. by destruct (k (f m) m). Qed.

Lemma bind_modify {B} (f : Membership → Membership) (k : unit → M B) (m : membership) :
  bind (modify f) k m = k tt (with_members f m).
Proof. unfold bind, modify. by destruct (k tt (with_members f m)). Qed.

Section shape.
Context `{StringsPkg}.

Lemma applyConfigChange_unknown cc index m c :
  cc_Type cc = UnknownType c →
  applyConfigChange cc index m =
    Panicked "unknown config change type"
      (with_members (set_ConfigChangeId index) m) [].
Proof. intros Ht. unfold applyConfigChange. rewrite bind_modify, Ht. done. Qed.

Lemma applyConfigChange_applied cc index m :
  isKnownType (cc_Type cc) = true →
  isAddingWitnessAsNode m cc = false →
  isAddingNodeAsObserver m cc = false →
  isAddingNodeAsWitness m cc = false →
  isAddingObserverAsWitness m cc = false →
  applyConfigChange cc index m =
    Returned tt (with_members (applied cc index) m) [].
Proof.
  unfold applyConfigChange, applied, isAddingWitnessAsNode,
    isAddingNodeAsObserver, isAddingNodeAsWitness, isAddingObserverAsWitness.
  intros Hk Hwn Hno Hnw How. rewrite bind_modify.
  destruct (cc_Type cc); try discriminate Hk;
    repeat (progress (rewrite ?bind_modify, ?bind_gets, ?Hwn, ?Hno, ?Hnw, ?How; cbn));
    done.
Qed.
End shape.

Ltac enter_handle :=
  unfold handleConfigChange; repeat (rewrite bind_gets; cbv beta zeta).

Ltac next_check b :=
  destruct b eqn:?; cbn in *; try discriminate; try (by eexists).

Section verdicts.
Context `{StringsPkg}.

(** A request the validator turns down: one warning, nothing else. *)
Lemma handle_rejected cc index m :
  accepted_of m cc = false →
  ∃ ev, handleConfigChange cc index m = Returned false m [ev].
Proof.
  intros Hacc. enter_handle. unfold accepted_of in Hacc.
  next_check (isConfChangeUpToDate m cc).
  next_check (isAddingRemovedNode m cc).
  next_check (isAddingExistingMember m cc).
  next_check (isAddingNodeAsObserver m cc).
  next_check (isAddingNodeAsWitness m cc).
  next_check (isAddingWitnessAsNode m cc).
  next_check (isAddingWitnessAsObserver m cc).
  next_check (isAddingObserverAsWitness m cc).
  next_check (isDeletingOnlyNode m cc).
  next_check (isInvalidObserverPromotion m cc).
Qed.

Lemma accepted_of_true m cc :
  accepted_of m cc = true →
  isConfChangeUpToDate m cc = true ∧
  isAddingRemovedNode m cc = false ∧
  isAddingExistingMember m cc = false ∧
  isAddingNodeAsObserver m cc = false ∧
  isAddingNodeAsWitness m cc = false ∧
  isAddingWitnessAsNode m cc = false ∧
  isAddingWitnessAsObserver m cc = false ∧
  isAddingObserverAsWitness m cc = false ∧
  isDeletingOnlyNode m cc = false ∧
  isInvalidObserverPromotion m cc = false.
Proof.
  unfold accepted_of. intros Hacc.
  repeat (apply andb_prop in Hacc as [Hacc ?%negb_true_iff]).
  repeat split; assumption.
Qed.

Lemma handle_shape cc index m :
  accepted_of m cc = true →
  handleConfigChange cc index m =
    ((applyConfigChange cc index >>
      match cc_Type cc with
      | AddNode => plog_Infof AppliedAdd
      | RemoveNode => plog_Infof AppliedRemove
      | AddObserver => plog_Infof AppliedAddObserver
      | AddWitness => plog_Infof AppliedAddWitness
      | UnknownType _ => plog_Panicf "unknown cc.Type value"
      end) >> ret true) m.
Proof.
  intros Hacc. enter_handle. fold (accepted_of m cc). rewrite Hacc. done.
Qed.

(** A request of a known kind that passes: applied, one line logged. *)
Lemma handle_accepted cc index m :
  accepted_of m cc = true →
  isKnownType (cc_Type cc) = true →
  ∃ ev, handleConfigChange cc index m =
          Returned true (with_members (applied cc index) m) [ev].
Proof.
  intros Hacc Hk. rewrite handle_shape by done.
  destruct (accepted_of_true _ _ Hacc) as (_ & _ & _ & Hno & Hnw & Hwn & _ & How & _).
  unfold bind. rewrite applyConfigChange_applied by done.
  destruct (cc_Type cc); try discriminate Hk; by eexists.
Qed.

(** A request of another kind that passes: the applier aborts, after it
    has stamped the change order. *)
Lemma handle_unknown cc index m c :
  accepted_of m cc = true →
  cc_Type cc = UnknownType c →
  handleConfigChange cc index m =
    Panicked "unknown config change type"
      (with_members (set_ConfigChangeId index) m) [].
Proof.
  intros Hacc Ht. rewrite handle_shape by done.
  unfold bind. by rewrite (applyConfigChange_unknown _ _ _ c).
Qed.
End verdicts.

Lemma has_true {V} (mp : gmap N V) k : has mp k = true ↔ is_Some (mp !! k).
Proof. unfold has. destruct (mp !! k); split; (done || by eauto || by intros []). Qed.

Lemma has_false {V} (mp : gmap N V) k : has mp k = false ↔ mp !! k = None.
Proof. unfold has. by destruct (mp !! k). Qed.

Section laws.
Context `{StringsPkg}.

Lemma upToDate_iff_not_stale m cc :
  isConfChangeUpToDate m cc = true ↔ ¬ stale m cc.
Proof.
  unfold isConfChangeUpToDate, stale.
  destruct (ordered m), (cc_Initialize cc); cbn;
    destruct (N.eqb_spec (ConfigChangeId (members m)) (cc_ConfigChangeId cc));
    split; try done; try (intros _ (_ & _ & ?); congruence);
    try (intros _ (? & ? & _); congruence).
  intros Hn. exfalso. apply Hn. repeat split; congruence.
Qed.

(** The three ways a call can end. *)
Lemma handle_cases cc index m :
  (accepted_of m cc = false ∧
     ∃ ev, handleConfigChange cc index m = Returned false m [ev]) ∨
  (accepted_of m cc = true ∧ isKnownType (cc_Type cc) = true ∧
     ∃ ev, handleConfigChange cc index m =
             Returned true (with_members (applied cc index) m) [ev]) ∨
  (accepted_of m cc = true ∧ isKnownType (cc_Type cc) = false ∧
     handleConfigChange cc index m =
       Panicked "unknown config change type"
         (with_members (set_ConfigChangeId index) m) []).
Proof.
  destruct (accepted_of m cc) eqn:Hacc.
  - right. destruct (isKnownType (cc_Type cc)) eqn:Hk.
    + left. eauto using handle_accepted.
    + right. repeat split. destruct (cc_Type cc) eqn:Ht; try discriminate Hk.
      by eapply handle_unknown.
  - left. eauto using handle_rejected.
Qed.

Lemma accepted_of_iff m cc :
  accepted_of m cc = true ↔
  ¬ stale m cc ∧
  isAddingRemovedNode m cc = false ∧
  isAddingExistingMember m cc = false ∧
  isAddingNodeAsObserver m cc = false ∧
  isAddingNodeAsWitness m cc = false ∧
  isAddingWitnessAsNode m cc = false ∧
  isAddingWitnessAsObserver m cc = false ∧
  isAddingObserverAsWitness m cc = false ∧
  isDeletingOnlyNode m cc = false ∧
  isInvalidObserverPromotion m cc = false.
Proof.
  rewrite <- upToDate_iff_not_stale. split.
  - apply accepted_of_true.
  - unfold accepted_of. intros (-> & -> & -> & -> & -> & -> & -> & -> & -> & ->).
    done.
Qed.

(** Every call on a request of a known kind returns. *)
Lemma handle_returns cc index m :
  isKnownType (cc_Type cc) = true →
  ∃ b m' log, handleConfigChange cc index m = Returned b m' log.
Proof.
  intros Hk.
  destruct (handle_cases cc index m)
    as [(_ & ev & ->)|[(_ & _ & ev & ->)|(_ & Hk' & _)]]; eauto; congruence.
Qed.
End laws.

(** ** The code's predicates decide the specification's *)

Lemma false_iff_not (b : bool) (P : Prop) : (b = true ↔ P) → (b = false ↔ ¬ P).
Proof. intros HP. destruct b; split; try done; [tauto|]. intros _ HP'. by apply HP in HP'. Qed.

Section reflection.
Context `{StringsPkg}.

Lemma anyAddress_true mp addr :
  anyAddress mp addr = true ↔
  ∃ id a, mp !! id = Some a ∧ addressEqual a addr = true.
Proof.
  unfold anyAddress. rewrite existsb_exists. split.
  - intros ([id a] & Hin & Heq). exists id, a. split; [|done].
    by apply elem_of_map_to_list, list_elem_of_In.
  - intros (id & a & Hin & Heq). exists (id, a). split; [|done].
    by apply list_elem_of_In, elem_of_map_to_list.
Qed.

Lemma isAddingRemovedNode_spec m cc :
  isAddingRemovedNode m cc = true ↔ targetRemoved m cc.
Proof.
  unfold isAddingRemovedNode, targetRemoved.
  destruct (cc_Type cc); cbn [isAddType]; rewrite ?has_true;
    intuition discriminate.
Qed.

Lemma isPromotingObserver_spec m cc :
  isPromotingObserver m cc = true ↔ promotingObserver m cc.
Proof.
  unfold isPromotingObserver, promotingObserver.
  destruct (cc_Type cc); try (split; [discriminate|intros [? _]; discriminate]).
  destruct (Observers (members m) !! cc_NodeID cc) as [oa|]; split.
  - eauto.
  - intros (_ & oa' & Hoa & Heq). by injection Hoa as <-.
  - discriminate.
  - intros (_ & oa' & Hoa & _). discriminate Hoa.
Qed.

Lemma isInvalidObserverPromotion_spec m cc :
  isInvalidObserverPromotion m cc = true ↔ invalidPromotion m cc.
Proof.
  unfold isInvalidObserverPromotion, invalidPromotion.
  destruct (cc_Type cc); try (split; [discriminate|intros [? _]; discriminate]).
  destruct (Observers (members m) !! cc_NodeID cc) as [oa|];
    rewrite ?negb_true_iff; split.
  - eauto.
  - intros (_ & oa' & Hoa & Heq). by injection Hoa as <-.
  - discriminate.
  - intros (_ & oa' & Hoa & _). discriminate Hoa.
Qed.

Lemma anyAddress_inUse m addr :
  (anyAddress (Addresses (members m)) addr = true ∨
   anyAddress (Observers (members m)) addr = true ∨
   anyAddress (Witnesses (members m)) addr = true) ↔ addressInUse m addr.
Proof.
  rewrite !anyAddress_true. unfold addressInUse. split.
  - intros [(id & a & ? & ?)|[(id & a & ? & ?)|(id & a & ? & ?)]];
      exists id, a; auto.
  - intros (id & a & [?|[?|?]] & ?); eauto 6.
Qed.

Lemma isAddingExistingMember_spec m cc :
  isAddingExistingMember m cc = true ↔ alreadyMember m cc.
Proof.
  unfold isAddingExistingMember, alreadyMember.
  rewrite <- anyAddress_inUse, <- isPromotingObserver_spec, <- !has_true.
  destruct (cc_Type cc); cbn [isAddType];
    repeat match goal with
    | |- context [has ?mp ?k] => destruct (has mp k)
    end;
    destruct (isPromotingObserver m cc);
    destruct (anyAddress (Addresses (members m)) (cc_Address cc));
    destruct (anyAddress (Observers (members m)) (cc_Address cc));
    destruct (anyAddress (Witnesses (members m)) (cc_Address cc));
    intuition discriminate.
Qed.

Lemma isAddingNodeAsObserver_spec m cc :
  isAddingNodeAsObserver m cc = true ↔ observerOverVoter m cc.
Proof.
  unfold isAddingNodeAsObserver, observerOverVoter.
  destruct (cc_Type cc); rewrite ?has_true; intuition discriminate.
Qed.

Lemma isAddingNodeAsWitness_spec m cc :
  isAddingNodeAsWitness m cc = true ↔ witnessOverVoter m cc.
Proof.
  unfold isAddingNodeAsWitness, witnessOverVoter.
  destruct (cc_Type cc); rewrite ?has_true; intuition discriminate.
Qed.

Lemma isAddingWitnessAsNode_spec m cc :
  isAddingWitnessAsNode m cc = true ↔ witnessToVoter m cc.
Proof.
  unfold isAddingWitnessAsNode, witnessToVoter.
  destruct (cc_Type cc); rewrite ?has_true; intuition discriminate.
Qed.

Lemma isAddingWitnessAsObserver_spec m cc :
  isAddingWitnessAsObserver m cc = true ↔ witnessToObserver m cc.
Proof.
  unfold isAddingWitnessAsObserver, witnessToObserver.
  destruct (cc_Type cc); rewrite ?has_true; intuition discriminate.
Qed.

Lemma isAddingObserverAsWitness_spec m cc :
  isAddingObserverAsWitness m cc = true ↔ observerToWitness m cc.
Proof.
  unfold isAddingObserverAsWitness, observerToWitness.
  destruct (cc_Type cc); rewrite ?has_true; intuition discriminate.
Qed.

Lemma isDeletingOnlyNode_spec m cc :
  isDeletingOnlyNode m cc = true ↔ lastVoterRemoval m cc.
Proof.
  unfold isDeletingOnlyNode, lastVoterRemoval.
  destruct (cc_Type cc); try (split; [discriminate|intros [? _]; discriminate]).
  case_bool_decide; rewrite ?has_true; intuition discriminate.
Qed.

(** The conjunction the code computes is the specification's formula. *)
Lemma accepted_of_acceptable m cc :
  accepted_of m cc = true ↔ acceptable m cc.
Proof.
  rewrite accepted_of_iff. unfold acceptable.
  rewrite (false_iff_not _ _ (isAddingRemovedNode_spec m cc)),
    (false_iff_not _ _ (isAddingExistingMember_spec m cc)),
    (false_iff_not _ _ (isAddingNodeAsObserver_spec m cc)),
    (false_iff_not _ _ (isAddingNodeAsWitness_spec m cc)),
    (false_iff_not _ _ (isAddingWitnessAsNode_spec m cc)),
    (false_iff_not _ _ (isAddingWitnessAsObserver_spec m cc)),
    (false_iff_not _ _ (isAddingObserverAsWitness_spec m cc)),
    (false_iff_not _ _ (isDeletingOnlyNode_spec m cc)),
    (false_iff_not _ _ (isInvalidObserverPromotion_spec m cc)).
  tauto.
Qed.
End reflection.

(** ** The validator's verdict *)

(** C1 (amended): for every snapshot and every request whose kind is one of
    AddNode (AddVoter), AddObserver, AddWitness, RemoveNode, the call returns
    true exactly when the request is not stale and none of the rejection
    predicates holds: targetRemoved, alreadyMember, observerOverVoter,
    witnessOverVoter, witnessToVoter, witnessToObserver, observerToWitness,
    lastVoterRemoval, invalidPromotion. *)
Theorem handleConfigChange_true_iff `{StringsPkg} m cc index :
  isKnownType (cc_Type cc) = true →
  (∃ m' log, handleConfigChange cc index m = Returned true m' log) ↔
  acceptable m cc.
Proof.
  intros Hk. rewrite <- accepted_of_acceptable. split.
  - intros (m' & log & Hret).
    destruct (handle_cases cc index m)
      as [(_ & ev & Heq)|[(Hacc & _)|(_ & Hk' & _)]]; [|done|congruence].
    rewrite Heq in Hret. discriminate Hret.
  - intros Hacc. destruct (handle_accepted cc index m Hacc Hk) as [ev Heq]. eauto.
Qed.

Lemma handleConfigChange_true_iff_witness :
  isKnownType (cc_Type bootstrap_voter) = true ∧
  ((∃ m' log, handleConfigChange bootstrap_voter 1 fresh = Returned true m' log) ↔
   acceptable fresh bootstrap_voter).
Proof.
  split; [reflexivity|].
  apply (handleConfigChange_true_iff fresh bootstrap_voter 1). reflexivity.
Defined.

(** C1, as stated, fails on a request of another kind: with the bootstrap
    flag set the request is not stale, no rejection predicate holds, and yet
    the call does not return true: the applier aborts. *)
Lemma handleConfigChange_true_iff_unknown_kind :
  ¬ ((∃ m' log, handleConfigChange unknown_kind_request 1 fresh
                = Returned true m' log) ↔
     acceptable fresh unknown_kind_request).
Proof.
  intros [_ Hback].
  destruct Hback as (m' & log & Hret).
  - apply accepted_of_acceptable. vm_compute. reflexivity.
  - vm_compute in Hret. discriminate Hret.
Qed.

(** ** Rejection *)

(** C3: whenever the call returns false, the store it leaves is the store
    it found: voters, observers, witnesses, removed and changeOrder. *)
Theorem rejection_is_noop `{StringsPkg} m cc index m' log :
  handleConfigChange cc index m = Returned false m' log →
  m' = m ∧
  Addresses (members m') = Addresses (members m) ∧
  Observers (members m') = Observers (members m) ∧
  Witnesses (members m') = Witnesses (members m) ∧
  Removed (members m') = Removed (members m) ∧
  ConfigChangeId (members m') = ConfigChangeId (members m).
Proof.
  intros Hret.
  destruct (handle_cases cc index m)
    as [(_ & ev & Heq)|[(_ & _ & ev & Heq)|(_ & _ & Heq)]];
    rewrite Heq in Hret; try discriminate Hret.
  injection Hret as <- _. done.
Qed.

Lemma rejection_is_noop_witness :
  handleConfigChange observer_over_voter 2 one_voter
    = Returned false one_voter [RejAddExistAsObserver] ∧
  Addresses (members one_voter) = Addresses (members one_voter).
Proof.
  assert (Hret : handleConfigChange observer_over_voter 2 one_voter
                 = Returned false one_voter [RejAddExistAsObserver])
    by (vm_compute; reflexivity).
  split; [exact Hret|].
  exact (proj1 (proj2
    (rejection_is_noop one_voter observer_over_voter 2 one_voter _ Hret))).
Defined.

(** C5: a store with exactly one voter turns down the removal of that
    voter and stays as it was, whatever its change order, the requester's
    order and the bootstrap flag are. *)
Theorem last_voter_is_kept `{StringsPkg} m cc index :
  cc_Type cc = RemoveNode →
  size (Addresses (members m)) = 1%nat →
  is_Some (Addresses (members m) !! cc_NodeID cc) →
  ∃ ev, handleConfigChange cc index m = Returned false m [ev].
Proof.
  intros Ht Hsz Hin. apply handle_rejected.
  destruct (accepted_of m cc) eqn:Hacc; [|done].
  apply accepted_of_true in Hacc as (_ & _ & _ & _ & _ & _ & _ & _ & Hdel & _).
  unfold isDeletingOnlyNode in Hdel. rewrite Ht in Hdel.
  rewrite bool_decide_eq_true_2 in Hdel by done.
  apply has_true in Hin. congruence.
Qed.

Lemma last_voter_is_kept_witness :
  ∃ ev, handleConfigChange remove_voter_one 9 one_voter
        = Returned false one_voter [ev].
Proof.
  apply (last_voter_is_kept one_voter remove_voter_one 9).
  - reflexivity.
  - vm_compute. reflexivity.
  - vm_compute. eexists. reflexivity.
Defined.

(** ** Removal *)

(** C9: a RemoveNode request that is not stale and does not target the sole
    voter is accepted, whether or not its target is a member or already
    retired; afterwards the target is retired and in no role map. *)
Theorem remove_needs_no_member `{StringsPkg} m cc index :
  cc_Type cc = RemoveNode →
  ¬ stale m cc →
  ¬ (size (Addresses (members m)) = 1%nat ∧
     is_Some (Addresses (members m) !! cc_NodeID cc)) →
  isAddingRemovedNode m cc = false ∧
  ∃ m' ev,
    handleConfigChange cc index m = Returned true m' [ev] ∧
    is_Some (Removed (members m') !! cc_NodeID cc) ∧
    Addresses (members m') !! cc_NodeID cc = None ∧
    Observers (members m') !! cc_NodeID cc = None ∧
    Witnesses (members m') !! cc_NodeID cc = None.
Proof.
  intros Ht Hfresh Hsole.
  assert (Hacc : accepted_of m cc = true).
  { apply accepted_of_iff. split; [done|].
    unfold isAddingRemovedNode, isAddingExistingMember, isPromotingObserver,
      isAddingNodeAsObserver, isAddingNodeAsWitness, isAddingWitnessAsNode,
      isAddingWitnessAsObserver, isAddingObserverAsWitness, isDeletingOnlyNode,
      isInvalidObserverPromotion.
    rewrite Ht. cbn. repeat split.
    case_bool_decide; [|done]. apply has_false.
    destruct (Addresses (members m) !! cc_NodeID cc) eqn:Hin; [|done].
    exfalso. apply Hsole. eauto. }
  split; [unfold isAddingRemovedNode; by rewrite Ht|].
  destruct (handle_accepted cc index m Hacc) as [ev Heq]; [by rewrite Ht|].
  eexists _, ev. split; [exact Heq|].
  unfold applied. rewrite Ht. cbn.
  rewrite lookup_insert_eq, !lookup_delete_eq. eauto.
Qed.

Lemma remove_needs_no_member_witness :
  ∃ m' ev,
    handleConfigChange remove_stranger 5 one_voter = Returned true m' [ev] ∧
    is_Some (Removed (members m') !! 6) ∧
    Addresses (members m') !! 6 = None ∧
    Observers (members m') !! 6 = None ∧
    Witnesses (members m') !! 6 = None.
Proof.
  apply (remove_needs_no_member one_voter remove_stranger 5).
  - reflexivity.
  - intros (_ & _ & Hne). apply Hne. reflexivity.
  - intros [_ [a Hin]]. vm_compute in Hin. discriminate Hin.
Defined.

(** ** Requests of an unknown kind *)

(** C10: for a request of none of the four kinds every role predicate is
    false; when it is stale the call returns false and leaves the store as it
    was, and the abort happens only when the staleness check passes (and then
    it does happen, in the applier). *)
Theorem unknown_kind_aborts_only_when_fresh `{StringsPkg} m cc index :
  isKnownType (cc_Type cc) = false →
  (isAddingRemovedNode m cc = false ∧
   isAddingExistingMember m cc = false ∧
   isAddingNodeAsObserver m cc = false ∧
   isAddingNodeAsWitness m cc = false ∧
   isAddingWitnessAsNode m cc = false ∧
   isAddingWitnessAsObserver m cc = false ∧
   isAddingObserverAsWitness m cc = false ∧
   isDeletingOnlyNode m cc = false ∧
   isInvalidObserverPromotion m cc = false) ∧
  (stale m cc →
   handleConfigChange cc index m = Returned false m [RejOutOfOrder]) ∧
  (∀ msg m' log,
     handleConfigChange cc index m = Panicked msg m' log → ¬ stale m cc) ∧
  (¬ stale m cc →
   handleConfigChange cc index m =
     Panicked "unknown config change type"
       (with_members (set_ConfigChangeId index) m) []).
Proof.
  intros Hk. destruct (cc_Type cc) as [| | | |c] eqn:Ht; try discriminate Hk.
  assert (Hpreds :
    isAddingRemovedNode m cc = false ∧
    isAddingExistingMember m cc = false ∧
    isAddingNodeAsObserver m cc = false ∧
    isAddingNodeAsWitness m cc = false ∧
    isAddingWitnessAsNode m cc = false ∧
    isAddingWitnessAsObserver m cc = false ∧
    isAddingObserverAsWitness m cc = false ∧
    isDeletingOnlyNode m cc = false ∧
    isInvalidObserverPromotion m cc = false).
  { unfold isAddingRemovedNode, isAddingExistingMember, isPromotingObserver,
      isAddingNodeAsObserver, isAddingNodeAsWitness, isAddingWitnessAsNode,
      isAddingWitnessAsObserver, isAddingObserverAsWitness, isDeletingOnlyNode,
      isInvalidObserverPromotion.
    rewrite Ht. cbn. done. }
  split; [exact Hpreds|].
  assert (Hstale : stale m cc →
    handleConfigChange cc index m = Returned false m [RejOutOfOrder]).
  { intros Hst.
    assert (Hup : isConfChangeUpToDate m cc = false).
    { destruct (isConfChangeUpToDate m cc) eqn:Hup; [|done].
      by apply upToDate_iff_not_stale in Hup. }
    enter_handle. rewrite Hup. done. }
  split; [exact Hstale|]. split.
  - intros msg m' log Hpanic Hst. rewrite (Hstale Hst) in Hpanic. discriminate.
  - intros Hfresh. apply (handle_unknown cc index m c); [|done].
    apply accepted_of_iff. by split.
Qed.

Lemma unknown_kind_aborts_only_when_fresh_witness :
  stale one_voter stale_unknown_kind_request ∧
  handleConfigChange stale_unknown_kind_request 2 one_voter
    = Returned false one_voter [RejOutOfOrder].
Proof.
  assert (Hst : stale one_voter stale_unknown_kind_request)
    by (repeat split; discriminate).
  split; [exact Hst|].
  exact (proj1 (proj2 (unknown_kind_aborts_only_when_fresh
    one_voter stale_unknown_kind_request 2 eq_refl)) Hst).
Defined.

(** ** Exclusivity of the role maps *)

Section applier_facts.
Context `{StringsPkg}.

Lemma applied_exclusive cc index m :
  accepted_of m cc = true →
  exclusive (members m) →
  exclusive (applied cc index (members m)).
Proof.
  intros Hacc Hex.
  destruct (accepted_of_true _ _ Hacc)
    as (_ & _ & _ & Hno & Hnw & Hwn & Hwo & How & _).
  unfold isAddingNodeAsObserver, isAddingNodeAsWitness, isAddingWitnessAsNode,
    isAddingWitnessAsObserver, isAddingObserverAsWitness in *.
  unfold applied. intros id. specialize (Hex id).
  destruct (cc_Type cc); cbn;
    rewrite ?has_false in *;
    (destruct (decide (id = cc_NodeID cc)) as [->|Hne];
     [ rewrite ?lookup_insert_eq, ?lookup_delete_eq, ?Hno, ?Hnw, ?Hwn, ?Hwo, ?How
     | rewrite ?lookup_insert_ne, ?lookup_delete_ne by done ]);
    try exact Hex;
    repeat split; intros [[? ?] [? ?]]; try discriminate;
    destruct Hex as (? & ? & ?); eauto.
Qed.

Lemma applied_changeOrder cc index p :
  ConfigChangeId (applied cc index p) = index.
Proof. unfold applied. by destruct (cc_Type cc). Qed.

Lemma applied_removed cc index p id :
  is_Some (Removed p !! id) → is_Some (Removed (applied cc index p) !! id).
Proof.
  unfold applied. destruct (cc_Type cc); cbn; try done.
  intros Hin. destruct (decide (id = cc_NodeID cc)) as [->|Hne].
  - rewrite lookup_insert_eq. eauto.
  - by rewrite lookup_insert_ne.
Qed.

Lemma handle_changeOrder cc index m b m' log :
  handleConfigChange cc index m = Returned b m' log →
  ConfigChangeId (members m') =
    if b then index else ConfigChangeId (members m).
Proof.
  intros Hret.
  destruct (handle_cases cc index m)
    as [(_ & ev & Heq)|[(_ & _ & ev & Heq)|(_ & _ & Heq)]];
    rewrite Heq in Hret; try discriminate Hret; injection Hret as <- <- _.
  - done.
  - apply applied_changeOrder.
Qed.

Lemma handle_removed_kept cc index m :
  removed_kept m (store_of (handleConfigChange cc index m)).
Proof.
  intros id Hin.
  destruct (handle_cases cc index m)
    as [(_ & ev & ->)|[(_ & _ & ev & ->)|(_ & _ & ->)]]; cbn.
  - done.
  - by apply applied_removed.
  - done.
Qed.
End applier_facts.

(** C2: if no node id sits in two of voters, observers, witnesses before a
    call, none does in the store the call leaves, whether the call accepted,
    rejected or aborted. *)
Theorem exclusivity_is_invariant `{StringsPkg} m cc index :
  exclusive (members m) →
  exclusive (members (store_of (handleConfigChange cc index m))).
Proof.
  intros Hex.
  destruct (handle_cases cc index m)
    as [(_ & ev & ->)|[(Hacc & _ & ev & ->)|(_ & _ & ->)]]; cbn.
  - done.
  - by apply applied_exclusive.
  - exact Hex.
Qed.

Lemma exclusivity_is_invariant_witness :
  exclusive (members (store_of (handleConfigChange (add_voter_two "a" 4 false) 5 observer_two))).
Proof.
  apply (exclusivity_is_invariant observer_two (add_voter_two "a" 4 false) 5).
  intros id. vm_compute.
  repeat split; intros [[? Hv] [? Ho]]; discriminate.
Defined.

(** ** The change order along the log *)

Section along_the_log.
Context `{StringsPkg}.

Lemma applyAll_cons cc index rest m :
  applyAll ((cc, index) :: rest) m =
    match handleConfigChange cc index m with
    | Returned b m1 l1 =>
        match applyAll rest m1 with
        | Returned rs m2 l2 =>
            Returned ((b, ConfigChangeId (members m1)) :: rs) m2 (l1 ++ l2)
        | Panicked msg m2 l2 => Panicked msg m2 (l1 ++ l2)
        end
    | Panicked msg m1 l1 => Panicked msg m1 l1
    end.
Proof.
  cbn [applyAll]. unfold bind, gets, ret.
  destruct (handleConfigChange cc index m) as [b m1 l1|]; [|done].
  destruct (applyAll rest m1); cbn; by rewrite ?app_nil_r.
Qed.

Lemma applyAll_orderly calls : ∀ m prev rs m' log,
  ConfigChangeId (members m) ≤ prev →
  increasing prev calls →
  applyAll calls m = Returned rs m' log →
  orderly (ConfigChangeId (members m)) calls rs.
Proof.
  induction calls as [|[cc index] rest IH]; intros m prev rs m' log Hle Hinc Hrun.
  - by injection Hrun as <- _ _.
  - rewrite applyAll_cons in Hrun. destruct Hinc as [Hlt Hinc].
    destruct (handleConfigChange cc index m) as [b m1 l1|] eqn:Hstep;
      [|discriminate Hrun].
    destruct (applyAll rest m1) as [rs1 m2 l2|] eqn:Hrest; [|discriminate Hrun].
    injection Hrun as <- <- _.
    pose proof (handle_changeOrder _ _ _ _ _ _ Hstep) as Hco.
    assert (Hle1 : ConfigChangeId (members m1) ≤ index)
      by (destruct b; lia).
    pose proof (IH m1 index rs1 m2 l2 Hle1 Hinc Hrest) as Hord.
    cbn. destruct b; rewrite Hco in *; (split; [|done]); [lia|done].
Qed.

Lemma applyAll_lastAccepted calls : ∀ m rs m' log,
  applyAll calls m = Returned rs m' log →
  ConfigChangeId (members m') =
    lastAccepted (ConfigChangeId (members m)) calls rs.
Proof.
  induction calls as [|[cc index] rest IH]; intros m rs m' log Hrun.
  - by injection Hrun as <- <- _.
  - rewrite applyAll_cons in Hrun.
    destruct (handleConfigChange cc index m) as [b m1 l1|] eqn:Hstep;
      [|discriminate Hrun].
    destruct (applyAll rest m1) as [rs1 m2 l2|] eqn:Hrest; [|discriminate Hrun].
    injection Hrun as <- <- _.
    pose proof (handle_changeOrder _ _ _ _ _ _ Hstep) as Hco.
    cbn. rewrite (IH m1 rs1 m2 l2 Hrest), Hco. by destruct b.
Qed.

(** The accepted calls leave their own log indexes, in log order. *)
Lemma applyAll_acceptedOrders calls : ∀ m rs m' log,
  StronglySorted N.lt calls.*2 →
  applyAll calls m = Returned rs m' log →
  StronglySorted N.lt (acceptedOrders rs) ∧
  (∀ o, o ∈ acceptedOrders rs → o ∈ calls.*2).
Proof.
  induction calls as [|[cc index] rest IH]; intros m rs m' log Hs Hrun.
  - injection Hrun as <- _ _. split; [constructor|done].
  - rewrite applyAll_cons in Hrun.
    destruct (handleConfigChange cc index m) as [b m1 l1|] eqn:Hstep;
      [|discriminate Hrun].
    destruct (applyAll rest m1) as [rs1 m2 l2|] eqn:Hrest; [|discriminate Hrun].
    injection Hrun as <- <- _.
    pose proof (handle_changeOrder _ _ _ _ _ _ Hstep) as Hco.
    apply StronglySorted_inv in Hs as [Hs Hall].
    destruct (IH m1 rs1 m2 l2 Hs Hrest) as [Hsorted Hsub].
    cbn. destruct b.
    + rewrite Hco. split.
      * constructor; [done|]. rewrite Forall_forall in *. auto.
      * intros o [->|Ho]%elem_of_cons; [left|right; auto].
    + split; [done|]. intros o Ho. right. auto.
Qed.

Lemma Sorted_increasing calls : ∀ prev,
  Sorted N.lt (prev :: calls.*2) → increasing prev calls.
Proof.
  induction calls as [|[cc index] rest IH]; intros prev Hs; [done|].
  apply Sorted_inv in Hs as [Hs Hhd]. cbn. split; [|by apply IH].
  by apply HdRel_inv in Hhd.
Qed.

(** With requests of the four kinds only, the whole run returns. *)
Lemma applyAll_returns calls : ∀ m,
  Forall (λ c, isKnownType (cc_Type c.1) = true) calls →
  ∃ rs m' log, applyAll calls m = Returned rs m' log.
Proof.
  induction calls as [|[cc index] rest IH]; intros m Hk.
  - by eexists _, _, _.
  - apply Forall_cons in Hk as [Hk1 Hk].
    rewrite applyAll_cons.
    destruct (handle_returns cc index m Hk1) as (b & m1 & l1 & ->).
    destruct (IH m1 Hk) as (rs & m2 & l2 & ->). by eexists _, _, _.
Qed.
End along_the_log.

(** C4: a call that returns true leaves the change order at its log index,
    a call that returns false leaves it as it was.  Hence, along strictly
    increasing log indexes, the change orders left by the accepted calls go
    strictly up and the final change order is the log index of the last
    accepted call; when the indexes also start above the store's change
    order, every accepted call moves the change order strictly up. *)
Theorem changeOrder_follows_log `{StringsPkg} m :
  (∀ cc index b m' log,
     handleConfigChange cc index m = Returned b m' log →
     ConfigChangeId (members m') =
       if b then index else ConfigChangeId (members m)) ∧
  (∀ calls rs m' log,
     Sorted N.lt calls.*2 →
     applyAll calls m = Returned rs m' log →
     Sorted N.lt (acceptedOrders rs) ∧
     ConfigChangeId (members m') =
       lastAccepted (ConfigChangeId (members m)) calls rs ∧
     (Sorted N.lt (ConfigChangeId (members m) :: calls.*2) →
      orderly (ConfigChangeId (members m)) calls rs)).
Proof.
  split.
  - intros cc index b m' log. apply handle_changeOrder.
  - intros calls rs m' log Hs Hrun. split; [|split].
    + apply StronglySorted_Sorted.
      apply (applyAll_acceptedOrders calls m rs m' log); [|done].
      apply Sorted_StronglySorted; [|done]. intros x y z. lia.
    + by eapply applyAll_lastAccepted.
    + intros Hstart.
      eapply (applyAll_orderly calls m); [reflexivity| |done].
      by apply Sorted_increasing.
Qed.

Lemma changeOrder_follows_log_witness :
  ∃ m' log,
    applyAll three_calls fresh = Returned [(true, 1); (false, 1); (true, 3)] m' log ∧
    Sorted N.lt (acceptedOrders [(true, 1); (false, 1); (true, 3)]) ∧
    ConfigChangeId (members m') = 3 ∧
    orderly 0 three_calls [(true, 1); (false, 1); (true, 3)].
Proof.
  destruct (applyAll three_calls fresh) as [rs m' log|] eqn:Hrun;
    [|vm_compute in Hrun; discriminate Hrun].
  assert (Hrs : rs = [(true, 1); (false, 1); (true, 3)])
    by (vm_compute in Hrun; by injection Hrun as <- _ _).
  subst rs. exists m', log. split; [reflexivity|].
  assert (Hs : Sorted N.lt three_calls.*2)
    by (repeat constructor).
  assert (Hstart : Sorted N.lt (ConfigChangeId (members fresh) :: three_calls.*2))
    by (repeat constructor).
  destruct (proj2 (changeOrder_follows_log fresh) three_calls _ m' log Hs Hrun)
    as (Hacc & Hlast & Hord).
  exact (conj Hacc (conj Hlast (Hord Hstart))).
Defined.

(** ** The retired set *)

Lemma store_of_bind {A B} (c : M A) (k : A → M B) m :
  store_of (bind c k m) =
    match c m with
    | Returned a m1 _ => store_of (k a m1)
    | Panicked _ m1 _ => m1
    end.
Proof. unfold bind. destruct (c m) as [a m1 l1|]; [|done]. by destruct (k a m1). Qed.

(** C8 (amended): a retired node id stays retired across every sequence of
    applyChange calls; across [set] it stays retired when the installed
    snapshot lists it, because [set] puts the supplied snapshot's retired
    set in place of the current one. *)
Theorem removed_survives `{StringsPkg} id ops : ∀ m,
  sets_retire id ops →
  is_Some (Removed (members m) !! id) →
  is_Some (Removed (members (store_of (runOps ops m))) !! id).
Proof.
  induction ops as [|o rest IH]; intros m Hsets Hin; [done|].
  cbn [runOps]. rewrite store_of_bind.
  destruct o as [cc index|n]; cbn [runOp sets_retire] in *.
  - pose proof (handle_removed_kept cc index m id Hin) as Hkept.
    unfold bind, ret.
    destruct (handleConfigChange cc index m) as [b m1 l1|]; cbn in *; [|done].
    by apply IH.
  - destruct Hsets as [Hn Hsets]. apply IH; [done|].
    cbn. rewrite lookup_fmap. destruct Hn as [v ->]. by eexists.
Qed.

Lemma removed_survives_witness :
  is_Some (Removed (members (store_of
    (runOps [OpApplyChange remove_stranger 4;
             OpSet (mkMembership 9 ∅ {[5 := true; 6 := false]} ∅ ∅);
             OpApplyChange bootstrap_voter 10] retired_five))) !! 5).
Proof.
  apply (removed_survives 5).
  - cbn. split; [|done]. vm_compute. by eexists.
  - vm_compute. by eexists.
Defined.

(** C8, as stated, fails on [set]: node 5 is retired, an empty snapshot is
    installed, and node 5 is retired no more. *)
Lemma removed_not_kept_by_set :
  ¬ removed_kept retired_five (store_of (runOps [OpSet empty_snapshot] retired_five)).
Proof.
  intros Hkept. destruct (Hkept 5) as [v Hv].
  - vm_compute. by eexists.
  - vm_compute in Hv. discriminate Hv.
Qed.

(** ** Address equality on ASCII endpoints *)





Section trimming.
Variable f : ascii → ascii.
Hypothesis f_space : ∀ c, asciiSpace (f c) = asciiSpace c.
Hypothesis f_fold : ∀ c, toLower (f c) = toLower c.




End trimming.












(** ** Promoting an observer *)




(** ** The digest *)

Lemma fold_append_order (order : list N) : ∀ acc,
  fold_left (λ vals v, vals ++ [v]) order acc = acc ++ order.
Proof.
  induction order as [|v order IH]; intros acc; cbn.
  - by rewrite app_nil_r.
  - by rewrite IH, <- app_assoc.
Qed.

Lemma fold_Write_written (vals : list N) : ∀ d,
  md5.written (fold_left (λ hash v, md5.Write hash (PutUint64 v)) vals d) =
    md5.written d ++ concat (map PutUint64 vals).
Proof.
  induction vals as [|v vals IH]; intros d; cbn [fold_left map concat].
  - by rewrite app_nil_r.
  - rewrite IH. unfold md5.Write. cbn [md5.written]. by rewrite <- app_assoc.
Qed.






Lemma getHash_in_sorted order m :
  getHash_in order m =
    le_decode (take 8 (md5.sum
      (digest_input (sort_Slice order) (ConfigChangeId (members m))))).
Proof.
  unfold getHash_in, Uint64, md5.Sum, digest_input.
  rewrite fold_append_order, fold_Write_written. cbn [md5.New md5.written app].
  rewrite map_app, concat_app. cbn [map concat]. rewrite app_nil_r.
  by rewrite take_take.
Qed.




(** * Further properties of the store *)

(** ** Installing and reading back *)

Lemma deepCopy_flags n : removed_flags_true (deepCopyMembership n).
Proof.
  intros id v. cbn. rewrite lookup_fmap.
  destruct (Removed n !! id); cbn; congruence.
Qed.

Lemma deepCopy_exact p : removed_flags_true p → deepCopyMembership p = p.
Proof.
  intros Hflags. destruct p as [c a r o w]. unfold deepCopyMembership. cbn.
  f_equal. apply map_eq. intros id. rewrite lookup_fmap.
  destruct (r !! id) as [v|] eqn:Hv; cbn; [|done].
  by rewrite (Hflags id v Hv).
Qed.

(** X1: what [get] reads after [set] is the installed snapshot: its three
    role maps, the key set of its [Removed] and its change order; a second
    [set] wins over the first; and installing what [getMembership] hands out
    leaves every reading of [get] as it was. *)
Theorem set_then_get m n n' :
  get (set m n) =
    (Addresses n, Observers n, Witnesses n, dom (Removed n), ConfigChangeId n) ∧
  set (set m n) n' = set m n' ∧
  get (set m (getMembership m)) = get m ∧
  getMembership (set m n) = deepCopyMembership n.
Proof.
  unfold get, set, getMembership, with_members. cbn.
  rewrite !dom_fmap_L. repeat split.
  rewrite <- (deepCopy_exact (deepCopyMembership n)) at 2; [done|].
  apply deepCopy_flags.
Qed.

(** ** Invariants along sequences of operations *)

Section op_runs.
Context `{StringsPkg}.

Lemma runOp_apply_store cc index m :
  store_of (runOp (OpApplyChange cc index) m) =
    store_of (handleConfigChange cc index m).
Proof.
  cbn [runOp]. rewrite store_of_bind.
  by destruct (handleConfigChange cc index m).
Qed.

Lemma runOps_cons_store o rest m :
  store_of (runOps (o :: rest) m) =
    match runOp o m with
    | Returned _ m1 _ => store_of (runOps rest m1)
    | Panicked _ m1 _ => m1
    end.
Proof. cbn [runOps]. by rewrite store_of_bind. Qed.

(** A property kept by every operation of a sequence is kept by the
    sequence, also when one of its calls aborts. *)
Lemma runOps_invariant (P : membership → Prop) ops :
  (∀ o m, o ∈ ops → P m → P (store_of (runOp o m))) →
  ∀ m, P m → P (store_of (runOps ops m)).
Proof.
  induction ops as [|o rest IH]; intros Hstep m HP; [done|].
  rewrite runOps_cons_store.
  pose proof (Hstep o m ltac:(left) HP) as HP1.
  destruct (runOp o m) as [a m1 l1|msg m1 l1]; cbn in HP1; [|done].
  apply IH; [|done]. intros o' m' Hin. apply Hstep. by right.
Qed.

Lemma applied_flags cc index p :
  removed_flags_true p → removed_flags_true (applied cc index p).
Proof.
  intros Hflags id v. unfold applied.
  destruct (cc_Type cc); cbn; try apply Hflags.
  destruct (decide (id = cc_NodeID cc)) as [->|Hne].
  - rewrite lookup_insert_eq. congruence.
  - rewrite lookup_insert_ne by done. apply Hflags.
Qed.

Lemma handle_flags cc index m :
  removed_flags_true (members m) →
  removed_flags_true (members (store_of (handleConfigChange cc index m))).
Proof.
  intros Hflags.
  destruct (handle_cases cc index m)
    as [(_ & ev & ->)|[(_ & _ & ev & ->)|(_ & _ & ->)]]; cbn; try done.
  by apply applied_flags.
Qed.

Lemma runOp_flags o m :
  removed_flags_true (members m) →
  removed_flags_true (members (store_of (runOp o m))).
Proof.
  destruct o as [cc index|n]; intros Hflags.
  - rewrite runOp_apply_store. by apply handle_flags.
  - cbn. apply deepCopy_flags.
Qed.
End op_runs.

(** X2: in every store reached from a new one by applyChange and set
    calls, in any order, all flags recorded in [Removed] are true; hence
    [getMembership] hands out the stored record exactly and installing it
    again gives the same store. *)
Theorem reachable_store_copies_exactly `{StringsPkg} ops cid nid ord :
  removed_flags_true
    (members (store_of (runOps ops (newMembership cid nid ord)))) ∧
  getMembership (store_of (runOps ops (newMembership cid nid ord))) =
    members (store_of (runOps ops (newMembership cid nid ord))) ∧
  set (store_of (runOps ops (newMembership cid nid ord)))
      (getMembership (store_of (runOps ops (newMembership cid nid ord)))) =
    store_of (runOps ops (newMembership cid nid ord)).
Proof.
  assert (Hflags : removed_flags_true
    (members (store_of (runOps ops (newMembership cid nid ord))))).
  { apply (runOps_invariant (λ m, removed_flags_true (members m))).
    - intros o m _. apply runOp_flags.
    - intros id v. cbn. by rewrite lookup_empty. }
  split; [done|]. unfold getMembership, set, with_members.
  rewrite !deepCopy_exact by (done || apply deepCopy_flags || by rewrite deepCopy_exact).
  split; [done|]. by destruct (store_of _).
Qed.

(** A store whose [Removed] carries a false flag (installed as such, never
    produced by the store) is not handed out exactly: the copy has the flag
    set. *)
Lemma stray_flag_is_normalised :
  getMembership stray_voter_three ≠ members stray_voter_three ∧
  Removed (getMembership stray_voter_three) !! 8 = Some true.
Proof.
  split; [|vm_compute; reflexivity].
  intros Heq. apply (f_equal (λ p, Removed p !! 8)) in Heq.
  vm_compute in Heq. discriminate Heq.
Qed.

(** ** What one call does to the maps *)

Section one_call.
Context `{StringsPkg}.

Lemma applied_nonempty cc index m :
  accepted_of m cc = true →
  size (Addresses (members m)) ≠ 0%nat →
  size (Addresses (applied cc index (members m))) ≠ 0%nat.
Proof.
  intros Hacc Hne.
  destruct (accepted_of_true _ _ Hacc) as (_ & _ & _ & _ & _ & _ & _ & _ & Hdel & _).
  unfold isDeletingOnlyNode in Hdel. unfold applied.
  destruct (cc_Type cc); cbn; try done.
  - apply map_size_non_empty_iff, insert_non_empty.
  - case_bool_decide as Hone.
    + apply has_false in Hdel. by rewrite delete_id.
    + rewrite map_size_delete.
      destruct (Addresses (members m) !! cc_NodeID cc); cbn; lia.
Qed.

Lemma applied_retired_out cc index m :
  accepted_of m cc = true →
  retired_out (members m) →
  retired_out (applied cc index (members m)).
Proof.
  intros Hacc Hout.
  destruct (accepted_of_true _ _ Hacc) as (_ & Hrem & _).
  unfold isAddingRemovedNode in Hrem. unfold applied.
  intros id. specialize (Hout id).
  destruct (cc_Type cc); cbn; try done;
    try (apply has_false in Hrem; intros Hid;
         assert (id ≠ cc_NodeID cc) by (intros ->; rewrite Hrem in Hid; by destruct Hid);
         destruct (Hout Hid) as (Ha & Ho & Hw);
         by rewrite ?lookup_insert_ne, ?lookup_delete_ne by done).
  destruct (decide (id = cc_NodeID cc)) as [->|Hne].
  - by rewrite !lookup_delete_eq.
  - rewrite lookup_insert_ne, !lookup_delete_ne by done. auto.
Qed.

Lemma applied_frame cc index p id :
  id ≠ cc_NodeID cc →
  Addresses (applied cc index p) !! id = Addresses p !! id ∧
  Observers (applied cc index p) !! id = Observers p !! id ∧
  Witnesses (applied cc index p) !! id = Witnesses p !! id ∧
  Removed (applied cc index p) !! id = Removed p !! id.
Proof.
  intros Hne. unfold applied.
  destruct (cc_Type cc); cbn;
    by rewrite ?lookup_insert_ne, ?lookup_delete_ne by done.
Qed.
End one_call.

(** X3: a call never empties the voters: if the store has a voter before
    a call, it has one in the store the call leaves, whatever the request. *)
Theorem voters_never_emptied `{StringsPkg} m cc index :
  isEmpty m = false →
  isEmpty (store_of (handleConfigChange cc index m)) = false.
Proof.
  unfold isEmpty. rewrite !bool_decide_eq_false. intros Hne.
  destruct (handle_cases cc index m)
    as [(_ & ev & ->)|[(Hacc & _ & ev & ->)|(_ & _ & ->)]]; cbn; try done.
  by apply applied_nonempty.
Qed.

Lemma voters_never_emptied_witness :
  isEmpty (store_of (handleConfigChange remove_voter_one 9 one_voter)) = false.
Proof.
  apply (voters_never_emptied one_voter remove_voter_one 9). reflexivity.
Defined.

(** X4: if no retired node id is in a role map before a call, none is in
    the store the call leaves: an Add for a retired id is turned down, and a
    removal takes the id out of the three role maps as it retires it. *)
Theorem retired_ids_stay_out `{StringsPkg} m cc index :
  retired_out (members m) →
  retired_out (members (store_of (handleConfigChange cc index m))).
Proof.
  intros Hout.
  destruct (handle_cases cc index m)
    as [(_ & ev & ->)|[(Hacc & _ & ev & ->)|(_ & _ & ->)]]; cbn; try done.
  by apply applied_retired_out.
Qed.

Lemma retired_ids_stay_out_witness :
  retired_out (members (store_of (handleConfigChange remove_stranger 5 one_voter))).
Proof.
  apply (retired_ids_stay_out one_voter remove_stranger 5).
  intros id [v Hv]. vm_compute in Hv. discriminate Hv.
Defined.

(** X5: a call touches the entries of the request's node only: for every
    other node id the four maps read the same in the store the call leaves,
    and the cluster id, the node id and the ordering mode are never changed. *)
Theorem other_nodes_untouched `{StringsPkg} m cc index id :
  id ≠ cc_NodeID cc →
  Addresses (members (store_of (handleConfigChange cc index m))) !! id
    = Addresses (members m) !! id ∧
  Observers (members (store_of (handleConfigChange cc index m))) !! id
    = Observers (members m) !! id ∧
  Witnesses (members (store_of (handleConfigChange cc index m))) !! id
    = Witnesses (members m) !! id ∧
  Removed (members (store_of (handleConfigChange cc index m))) !! id
    = Removed (members m) !! id ∧
  clusterID (store_of (handleConfigChange cc index m)) = clusterID m ∧
  nodeID (store_of (handleConfigChange cc index m)) = nodeID m ∧
  ordered (store_of (handleConfigChange cc index m)) = ordered m.
Proof.
  intros Hne.
  destruct (handle_cases cc index m)
    as [(_ & ev & ->)|[(_ & _ & ev & ->)|(_ & _ & ->)]]; cbn; try done.
  destruct (applied_frame cc index (members m) id Hne) as (-> & -> & -> & ->).
  done.
Qed.

Lemma other_nodes_untouched_witness :
  Addresses (members (store_of (handleConfigChange remove_stranger 5 one_voter))) !! 1
    = Addresses (members one_voter) !! 1.
Proof.
  apply (other_nodes_untouched one_voter remove_stranger 5 1). discriminate.
Defined.

(** X6: when an Add request is accepted, the node is entered in the map of
    the requested kind at the requested address, it is in neither of the two
    other role maps, and it is not retired. *)
Theorem accepted_add_lands_in_one_map `{StringsPkg} m cc index m' log :
  isAddType (cc_Type cc) = true →
  handleConfigChange cc index m = Returned true m' log →
  Addresses (members m') !! cc_NodeID cc =
    (if cc_Type cc is AddNode then Some (cc_Address cc) else None) ∧
  Observers (members m') !! cc_NodeID cc =
    (if cc_Type cc is AddObserver then Some (cc_Address cc) else None) ∧
  Witnesses (members m') !! cc_NodeID cc =
    (if cc_Type cc is AddWitness then Some (cc_Address cc) else None) ∧
  Removed (members m') !! cc_NodeID cc = None.
Proof.
  intros Hadd Hret.
  destruct (handle_cases cc index m)
    as [(_ & ev & Heq)|[(Hacc & _ & ev & Heq)|(_ & _ & Heq)]];
    rewrite Heq in Hret; try discriminate Hret.
  injection Hret as <- _.
  destruct (accepted_of_true _ _ Hacc)
    as (_ & Hrem & _ & Hno & Hnw & Hwn & Hwo & How & _).
  unfold isAddingRemovedNode, isAddingNodeAsObserver, isAddingNodeAsWitness,
    isAddingWitnessAsNode, isAddingWitnessAsObserver,
    isAddingObserverAsWitness in *.
  unfold applied. cbn.
  destruct (cc_Type cc); try discriminate Hadd; cbn;
    rewrite ?has_false in *;
    rewrite ?lookup_insert_eq, ?lookup_delete_eq; done.
Qed.

Lemma accepted_add_lands_in_one_map_witness :
  ∃ m' log,
    handleConfigChange (add_voter_two "a" 4 false) 5 observer_two
      = Returned true m' log ∧
    Addresses (members m') !! 2 = Some "a" ∧
    Observers (members m') !! 2 = None.
Proof.
  destruct (handleConfigChange (add_voter_two "a" 4 false) 5 observer_two)
    as [b m' log|] eqn:Hrun; [|vm_compute in Hrun; discriminate Hrun].
  assert (Hb : b = true) by (vm_compute in Hrun; by injection Hrun as <- _ _).
  subst b. exists m', log. split; [reflexivity|].
  destruct (accepted_add_lands_in_one_map observer_two
              (add_voter_two "a" 4 false) 5 m' log eq_refl Hrun)
    as (Ha & Ho & _).
  exact (conj Ha Ho).
Defined.

(** ** Panics and log lines *)

Ltac report lem :=
  eexists; split; [reflexivity|]; split; [reflexivity|];
  cbn [reasonHolds]; by apply lem.

Section reporting.
Context `{StringsPkg}.

Lemma not_upToDate_stale m cc :
  isConfChangeUpToDate m cc = false → stale m cc.
Proof.
  unfold isConfChangeUpToDate, stale.
  destruct (ordered m), (cc_Initialize cc); cbn; try discriminate.
  destruct (N.eqb_spec (ConfigChangeId (members m)) (cc_ConfigChangeId cc));
    [discriminate|]. intros _. repeat split. congruence.
Qed.

(** A rejected request: the one line logged names a reason that holds. *)
Lemma handle_rejected_reason cc index m :
  accepted_of m cc = false →
  ∃ ev, handleConfigChange cc index m = Returned false m [ev] ∧
        isApplied ev = false ∧ reasonHolds ev m cc.
Proof.
  intros Hacc. enter_handle. unfold accepted_of in Hacc.
  destruct (isConfChangeUpToDate m cc) eqn:Hup;
    cbn [negb andb] in Hacc |- *; [|report not_upToDate_stale].
  destruct (isAddingRemovedNode m cc) eqn:H1;
    cbn [negb andb] in Hacc |- *; [report isAddingRemovedNode_spec|].
  destruct (isAddingExistingMember m cc) eqn:H2;
    cbn [negb andb] in Hacc |- *; [report isAddingExistingMember_spec|].
  destruct (isAddingNodeAsObserver m cc) eqn:H3;
    cbn [negb andb] in Hacc |- *; [report isAddingNodeAsObserver_spec|].
  destruct (isAddingNodeAsWitness m cc) eqn:H4;
    cbn [negb andb] in Hacc |- *; [report isAddingNodeAsWitness_spec|].
  destruct (isAddingWitnessAsNode m cc) eqn:H5;
    cbn [negb andb] in Hacc |- *; [report isAddingWitnessAsNode_spec|].
  destruct (isAddingWitnessAsObserver m cc) eqn:H6;
    cbn [negb andb] in Hacc |- *; [report isAddingWitnessAsObserver_spec|].
  destruct (isAddingObserverAsWitness m cc) eqn:H7;
    cbn [negb andb] in Hacc |- *; [report isAddingObserverAsWitness_spec|].
  destruct (isDeletingOnlyNode m cc) eqn:H8;
    cbn [negb andb] in Hacc |- *; [report isDeletingOnlyNode_spec|].
  destruct (isInvalidObserverPromotion m cc) eqn:H9;
    cbn [negb andb] in Hacc |- *; [report isInvalidObserverPromotion_spec|].
  discriminate Hacc.
Qed.

(** An accepted request of a known kind: the one line logged is the
    "applied" line of its kind. *)
Lemma handle_accepted_reason cc index m :
  accepted_of m cc = true →
  isKnownType (cc_Type cc) = true →
  ∃ ev, handleConfigChange cc index m =
          Returned true (with_members (applied cc index) m) [ev] ∧
        isApplied ev = true ∧ reasonHolds ev m cc.
Proof.
  intros Hacc Hk. rewrite handle_shape by done.
  destruct (accepted_of_true _ _ Hacc) as (_ & _ & _ & Hno & Hnw & Hwn & _ & How & _).
  unfold bind. rewrite applyConfigChange_applied by done.
  unfold reasonHolds.
  destruct (cc_Type cc); try discriminate Hk; by eexists.
Qed.

Lemma applyConfigChange_guarded cc index m :
  applierGuard m cc = true →
  applyConfigChange cc index m =
    Panicked
      (if cc_Type cc is UnknownType _ then "unknown config change type"
       else "not suppose to reach here")
      (with_members
         (λ p, if cc_Type cc is AddNode
               then set_Observers (delete (cc_NodeID cc) (Observers p))
                      (set_ConfigChangeId index p)
               else set_ConfigChangeId index p) m)
      [].
Proof.
  unfold applierGuard, applyConfigChange. rewrite bind_modify.
  destruct (cc_Type cc); try discriminate;
    repeat (progress (rewrite ?bind_modify, ?bind_gets; cbn)).
  - by intros ->.
  - by intros ->.
  - destruct (has (Addresses (members m)) (cc_NodeID cc)); cbn; [done|].
    by intros ->.
  - done.
Qed.
End reporting.

(** X7: the defensive panics cannot fire behind the validator.  A call
    that aborts does so on a request of none of the four kinds, with the
    applier's "unknown config change type", nothing logged and only the change
    order stamped; a request of one of the four kinds always returns. *)
Theorem only_unknown_kinds_abort `{StringsPkg} m cc index :
  (∀ msg m' log,
     handleConfigChange cc index m = Panicked msg m' log →
     isKnownType (cc_Type cc) = false ∧
     msg = "unknown config change type" ∧ log = [] ∧
     m' = with_members (set_ConfigChangeId index) m) ∧
  (isKnownType (cc_Type cc) = true →
   ∃ b m' ev, handleConfigChange cc index m = Returned b m' [ev]).
Proof.
  split.
  - intros msg m' log Hp.
    destruct (handle_cases cc index m)
      as [(_ & ev & Heq)|[(_ & _ & ev & Heq)|(_ & Hk & Heq)]];
      rewrite Heq in Hp; try discriminate Hp.
    by injection Hp as <- <- <-.
  - intros Hk.
    destruct (handle_cases cc index m)
      as [(_ & ev & ->)|[(_ & _ & ev & ->)|(_ & Hk' & _)]];
      [by eexists _, _, _|by eexists _, _, _|congruence].
Qed.

Lemma only_unknown_kinds_abort_witness :
  ∃ b m' ev, handleConfigChange observer_over_voter 2 one_voter = Returned b m' [ev].
Proof.
  apply (proj2 (only_unknown_kinds_abort one_voter observer_over_voter 2)).
  reflexivity.
Defined.

(** X8: a call that returns has logged exactly one line; the line is an
    "applied" line exactly when the call returned true, and what it reports
    holds of the request: the applied line names the request's kind, a
    rejection line names a rejection reason that is true of the request. *)
Theorem one_true_log_line `{StringsPkg} m cc index b m' log :
  handleConfigChange cc index m = Returned b m' log →
  ∃ ev, log = [ev] ∧ isApplied ev = b ∧ reasonHolds ev m cc.
Proof.
  intros Hret.
  destruct (accepted_of m cc) eqn:Hacc.
  - destruct (isKnownType (cc_Type cc)) eqn:Hk.
    + destruct (handle_accepted_reason cc index m Hacc Hk) as (ev & Heq & Hev).
      rewrite Heq in Hret. injection Hret as <- _ <-. eauto.
    + destruct (cc_Type cc) as [| | | |c] eqn:Ht; try discriminate Hk.
      rewrite (handle_unknown cc index m c Hacc Ht) in Hret. discriminate Hret.
  - destruct (handle_rejected_reason cc index m Hacc) as (ev & Heq & Hev).
    rewrite Heq in Hret. injection Hret as <- _ <-. eauto.
Qed.

Lemma one_true_log_line_witness :
  ∃ ev, [RejAddExistAsObserver] = [ev] ∧ isApplied ev = false ∧
        reasonHolds ev one_voter observer_over_voter.
Proof.
  apply (one_true_log_line one_voter observer_over_voter 2 false one_voter).
  vm_compute. reflexivity.
Defined.

(** X9: called on its own, the applier returns exactly when none of its
    presence checks fires and the kind is one of the four.  When it panics the
    change order is already stamped, and for AddNode the node's observer entry
    is already deleted; nothing else has changed. *)
Theorem applyConfigChange_alone `{StringsPkg} m cc index :
  (applierGuard m cc = false →
   applyConfigChange cc index m =
     Returned tt (with_members (applied cc index) m) []) ∧
  (applierGuard m cc = true →
   applyConfigChange cc index m =
     Panicked
       (if cc_Type cc is UnknownType _ then "unknown config change type"
        else "not suppose to reach here")
       (with_members
          (λ p, if cc_Type cc is AddNode
                then set_Observers (delete (cc_NodeID cc) (Observers p))
                       (set_ConfigChangeId index p)
                else set_ConfigChangeId index p) m)
       []).
Proof.
  split; [|apply applyConfigChange_guarded].
  unfold applierGuard. intros Hg.
  apply applyConfigChange_applied;
    unfold isAddingWitnessAsNode, isAddingNodeAsObserver, isAddingNodeAsWitness,
      isAddingObserverAsWitness;
    destruct (cc_Type cc); try done;
    by apply orb_false_elim in Hg as [? ?].
Qed.

Lemma applyConfigChange_alone_witness :
  applyConfigChange (mkConfigChange 0 AddNode 4 "e" false) 6 stray_voter_three =
    Panicked "not suppose to reach here"
      (with_members (λ p, set_Observers (delete 4 (Observers p))
                            (set_ConfigChangeId 6 p)) stray_voter_three) [].
Proof.
  apply (proj2 (applyConfigChange_alone stray_voter_three
                  (mkConfigChange 0 AddNode 4 "e" false) 6)).
  reflexivity.
Defined.

(** ** Addresses *)

Section addresses.
Context `{StringsPkg}.

(** The members after an accepted Add: the request's node at the request's
    address, and the other nodes as before. *)
Lemma applied_member_add cc index m id a :
  accepted_of m cc = true →
  isAddType (cc_Type cc) = true →
  member_at (applied cc index (members m)) id a →
  (id = cc_NodeID cc ∧ a = cc_Address cc) ∨
  (id ≠ cc_NodeID cc ∧ member_at (members m) id a).
Proof.
  intros Hacc Hadd Hmem.
  destruct (decide (id = cc_NodeID cc)) as [->|Hne].
  - left. split; [done|].
    destruct (handle_accepted cc index m Hacc) as [ev Heq];
      [by destruct (cc_Type cc)|].
    pose proof (accepted_of_true _ _ Hacc)
      as (_ & _ & _ & Hno & Hnw & Hwn & Hwo & How & _).
    unfold isAddingNodeAsObserver, isAddingNodeAsWitness,
      isAddingWitnessAsNode, isAddingWitnessAsObserver,
      isAddingObserverAsWitness in *.
    unfold member_at, applied in Hmem.
    destruct (cc_Type cc); try discriminate Hadd; cbn in Hmem;
      rewrite ?has_false in *;
      rewrite ?lookup_insert_eq, ?lookup_delete_eq, ?Hno, ?Hnw, ?Hwn, ?Hwo, ?How
        in Hmem;
      destruct Hmem as [Hm|[Hm|Hm]]; congruence.
  - right. split; [done|]. unfold member_at in *.
    by destruct (applied_frame cc index (members m) id Hne) as (<- & <- & <- & _).
Qed.

Lemma applied_member_remove cc index p id a :
  cc_Type cc = RemoveNode →
  member_at (applied cc index p) id a → member_at p id a.
Proof.
  unfold member_at, applied. intros ->. cbn.
  rewrite !lookup_delete_Some. tauto.
Qed.

(** An accepted Add whose address is in use is the promotion of the
    observer that uses it. *)
Lemma accepted_address_in_use cc m id a :
  accepted_of m cc = true →
  isAddType (cc_Type cc) = true →
  member_at (members m) id a →
  addressEqual a (cc_Address cc) = true →
  promotingObserver m cc.
Proof.
  intros Hacc Hadd Hmem Heq.
  destruct (accepted_of_true _ _ Hacc) as (_ & _ & Hex & _).
  apply (false_iff_not _ _ (isAddingExistingMember_spec m cc)) in Hex.
  destruct (isPromotingObserver m cc) eqn:Hp;
    [by apply isPromotingObserver_spec|].
  exfalso. apply Hex. unfold alreadyMember. right. right. right.
  split; [done|]. split; [by exists id, a|].
  intros Hp'. apply isPromotingObserver_spec in Hp'. congruence.
Qed.

Lemma applied_distinct_add cc index m :
  address_equivalence →
  accepted_of m cc = true →
  isAddType (cc_Type cc) = true →
  distinct_addresses (members m) →
  distinct_addresses (applied cc index (members m)).
Proof.
  intros [Hsym Htrans] Hacc Hadd Hdist id1 a1 id2 a2 Hm1 Hm2 Heq.
  destruct (applied_member_add cc index m id1 a1 Hacc Hadd Hm1)
    as [[-> ->]|[Hne1 Hold1]];
    destruct (applied_member_add cc index m id2 a2 Hacc Hadd Hm2)
      as [[-> ->]|[Hne2 Hold2]].
  - done.
  - exfalso. apply Hne2. symmetry.
    destruct (accepted_address_in_use cc m id2 a2 Hacc Hadd Hold2 (Hsym _ _ Heq))
      as (_ & oa & Hoa & Hoeq).
    apply (Hdist (cc_NodeID cc) oa id2 a2); [by right; left|done|].
    by eapply Htrans.
  - exfalso. apply Hne1.
    destruct (accepted_address_in_use cc m id1 a1 Hacc Hadd Hold1 Heq)
      as (_ & oa & Hoa & Hoeq).
    apply (Hdist id1 a1 (cc_NodeID cc) oa); [done|by right; left|].
    eapply Htrans; [exact Heq|]. by apply Hsym.
  - by eapply Hdist.
Qed.

Lemma applied_distinct cc index m :
  address_equivalence →
  accepted_of m cc = true →
  distinct_addresses (members m) →
  distinct_addresses (applied cc index (members m)).
Proof.
  intros Heqv Hacc Hdist.
  destruct (cc_Type cc) eqn:Ht;
    try (apply applied_distinct_add; [done|done|by rewrite Ht|done]).
  - intros id1 a1 id2 a2 Hm1 Hm2 Heq.
    eapply Hdist; [| |done]; by eapply applied_member_remove.
  - unfold applied. rewrite Ht. exact Hdist.
Qed.
End addresses.

Lemma EqualFold_lower s : ∀ t,
  ascii_EqualFold s t = true ↔ mapString toLower s = mapString toLower t.
Proof.
  induction s as [|c s IH]; intros [|d t]; cbn; try done.
  rewrite andb_true_iff, IH, Ascii.eqb_eq. split.
  - by intros [-> ->].
  - intros [= -> ->]. done.
Qed.

Lemma addressEqual_lower s t :
  addressEqual s t = true ↔
  mapString toLower (ascii_TrimSpace s) = mapString toLower (ascii_TrimSpace t).
Proof. unfold addressEqual. cbn. apply EqualFold_lower. Qed.

Lemma ascii_address_equivalence : address_equivalence.
Proof.
  split.
  - intros s t. rewrite !addressEqual_lower. congruence.
  - intros s t u. rewrite !addressEqual_lower. congruence.
Qed.






Section kept_by_calls.
Context `{StringsPkg}.

Lemma handle_exclusive cc index m :
  exclusive (members m) →
  exclusive (members (store_of (handleConfigChange cc index m))).
Proof.
  intros Hex.
  destruct (handle_cases cc index m)
    as [(_ & ev & ->)|[(Hacc & _ & ev & ->)|(_ & _ & ->)]]; cbn; try done.
  by apply applied_exclusive.
Qed.

Lemma handle_retired_out cc index m :
  retired_out (members m) →
  retired_out (members (store_of (handleConfigChange cc index m))).
Proof.
  intros Hout.
  destruct (handle_cases cc index m)
    as [(_ & ev & ->)|[(Hacc & _ & ev & ->)|(_ & _ & ->)]]; cbn; try done.
  by apply applied_retired_out.
Qed.

Lemma handle_distinct cc index m :
  address_equivalence →
  distinct_addresses (members m) →
  distinct_addresses (members (store_of (handleConfigChange cc index m))).
Proof.
  intros Heqv Hdist.
  destruct (handle_cases cc index m)
    as [(_ & ev & ->)|[(Hacc & _ & ev & ->)|(_ & _ & ->)]]; cbn; try done.
  by apply applied_distinct.
Qed.

Lemma applyChange_ops ops o :
  forallb isApplyChange ops = true → o ∈ ops →
  ∃ cc index, o = OpApplyChange cc index.
Proof.
  rewrite forallb_forall. intros Hall Hin%list_elem_of_In.
  specialize (Hall o Hin). destruct o; [eauto|discriminate Hall].
Qed.
End kept_by_calls.

(** X11: when the address comparison is symmetric and transitive, a call
    keeps addresses apart: if no two different nodes are members at equal
    addresses before a call, none are in the store the call leaves.  (A
    promotion re-enters the observer under the request's spelling of its own
    address.) *)
Theorem addresses_stay_distinct `{StringsPkg} m cc index :
  address_equivalence →
  distinct_addresses (members m) →
  distinct_addresses (members (store_of (handleConfigChange cc index m))).
Proof. apply handle_distinct. Qed.

Lemma addresses_stay_distinct_witness :
  distinct_addresses
    (members (store_of (handleConfigChange (add_voter_two " A " 4 false) 5 observer_two))).
Proof.
  apply (addresses_stay_distinct observer_two (add_voter_two " A " 4 false) 5).
  - exact ascii_address_equivalence.
  - intros id1 a1 id2 a2 Hm1 Hm2 _.
    assert (Hone : ∀ id a, member_at (members observer_two) id a → id = 2).
    { intros id a [Hm|[Hm|Hm]]; cbn in Hm;
        [by rewrite lookup_empty in Hm| |by rewrite lookup_empty in Hm].
      by apply lookup_singleton_Some in Hm as [<- _]. }
    by rewrite (Hone id1 a1 Hm1), (Hone id2 a2 Hm2).
Defined.

(** X12: every store reached from a new one by applyChange calls alone
    keeps the role maps exclusive and the retired ids out of them, and, when
    the address comparison is symmetric and transitive, no two different
    members at equal addresses. *)
Theorem applyChange_runs_keep_invariants `{StringsPkg} ops cid nid ord :
  forallb isApplyChange ops = true →
  exclusive (members (store_of (runOps ops (newMembership cid nid ord)))) ∧
  retired_out (members (store_of (runOps ops (newMembership cid nid ord)))) ∧
  (address_equivalence →
   distinct_addresses
     (members (store_of (runOps ops (newMembership cid nid ord))))).
Proof.
  intros Hops. split; [|split; [|intros Heqv]].
  - apply (runOps_invariant (λ m, exclusive (members m))).
    + intros o m Hin Hex.
      destruct (applyChange_ops ops o Hops Hin) as (cc & index & ->).
      rewrite runOp_apply_store. by apply handle_exclusive.
    + intros id. cbn. rewrite !lookup_empty.
      repeat split; intros [[? ?] _]; discriminate.
  - apply (runOps_invariant (λ m, retired_out (members m))).
    + intros o m Hin Hout.
      destruct (applyChange_ops ops o Hops Hin) as (cc & index & ->).
      rewrite runOp_apply_store. by apply handle_retired_out.
    + intros id. cbn. by rewrite !lookup_empty.
  - apply (runOps_invariant (λ m, distinct_addresses (members m))).
    + intros o m Hin Hd.
      destruct (applyChange_ops ops o Hops Hin) as (cc & index & ->).
      rewrite runOp_apply_store. by apply handle_distinct.
    + intros id1 a1 id2 a2 [Hm|[Hm|Hm]]; cbn in Hm;
        by rewrite lookup_empty in Hm.
Qed.

Lemma applyChange_runs_keep_invariants_witness :
  exclusive (members (store_of
    (runOps [OpApplyChange bootstrap_voter 1; OpApplyChange remove_stranger 2]
       (newMembership 1 1 true)))).
Proof.
  apply (applyChange_runs_keep_invariants
           [OpApplyChange bootstrap_voter 1; OpApplyChange remove_stranger 2]
           1 1 true).
  reflexivity.
Defined.



(** ** Bytes of the digest *)

Lemma lor_shiftl_add x y : x < 256 → N.lor x (N.shiftl y 8) = x + 256 * y.
Proof.
  intros Hx. rewrite N.shiftl_mul_pow2.
  rewrite <- N.lxor_lor, <- N.add_nocarry_lxor; [change (2 ^ 8) with 256; lia| |].
  all: apply N.bits_inj; intros n; rewrite N.land_spec, N.bits_0;
    destruct (N.lt_ge_cases n 8) as [Hn|Hn];
    [ rewrite N.mul_pow2_bits_low by done; apply andb_false_r
    | rewrite <- (N.mod_small x (2 ^ 8)) by (change (2 ^ 8) with 256; lia);
      rewrite N.mod_pow2_bits_high by done; reflexivity ].
Qed.

Lemma le_decode_cons x b :
  x < 256 → le_decode (x :: b) = x + 256 * le_decode b.
Proof. intros Hx. cbn [le_decode]. by apply lor_shiftl_add. Qed.

Lemma le_decode_bound b :
  Forall (λ x, x < 256) b → le_decode b < 2 ^ (8 * N.of_nat (length b)).
Proof.
  induction 1 as [|x b Hx Hb IH]; [done|].
  rewrite le_decode_cons by done. cbn [length].
  replace (8 * N.of_nat (S (length b))) with (8 + 8 * N.of_nat (length b)) by lia.
  rewrite N.pow_add_r. change (2 ^ 8) with 256. nia.
Qed.

Lemma PutUint64_bytes v : Forall (λ x, x < 256) (PutUint64 v) ∧ length (PutUint64 v) = 8%nat.
Proof.
  split; [|done]. unfold PutUint64.
  repeat constructor; by apply N.mod_lt.
Qed.

Lemma div_digit v a :
  v / a = (v / a) mod 256 + 256 * (v / (a * 256)).
Proof.
  rewrite <- N.Div0.div_div, N.add_comm. by apply N.div_mod.
Qed.

(** [binary.LittleEndian]: reading back what [PutUint64] wrote. *)
Lemma PutUint64_decode v : le_decode (PutUint64 v) = v mod 2 ^ 64.
Proof.
  unfold PutUint64. cbn [map].
  rewrite !le_decode_cons by (by apply N.mod_lt). cbn [le_decode].
  rewrite !N.shiftr_div_pow2.
  pose proof (div_digit v (2 ^ (8 * 0))) as H0.
  pose proof (div_digit v (2 ^ (8 * 1))) as H1.
  pose proof (div_digit v (2 ^ (8 * 2))) as H2.
  pose proof (div_digit v (2 ^ (8 * 3))) as H3.
  pose proof (div_digit v (2 ^ (8 * 4))) as H4.
  pose proof (div_digit v (2 ^ (8 * 5))) as H5.
  pose proof (div_digit v (2 ^ (8 * 6))) as H6.
  pose proof (div_digit v (2 ^ (8 * 7))) as H7.
  pose proof (N.div_mod v (2 ^ 64) ltac:(done)) as H8.
  change (2 ^ (8 * 0) * 256) with (2 ^ (8 * 1)) in H0.
  change (2 ^ (8 * 1) * 256) with (2 ^ (8 * 2)) in H1.
  change (2 ^ (8 * 2) * 256) with (2 ^ (8 * 3)) in H2.
  change (2 ^ (8 * 3) * 256) with (2 ^ (8 * 4)) in H3.
  change (2 ^ (8 * 4) * 256) with (2 ^ (8 * 5)) in H4.
  change (2 ^ (8 * 5) * 256) with (2 ^ (8 * 6)) in H5.
  change (2 ^ (8 * 6) * 256) with (2 ^ (8 * 7)) in H6.
  change (2 ^ (8 * 7) * 256) with (2 ^ 64) in H7.
  change (2 ^ (8 * 0)) with 1 in *. rewrite N.div_1_r in *.
  generalize dependent (v / 2 ^ (8 * 1)). generalize dependent (v / 2 ^ (8 * 2)).
  generalize dependent (v / 2 ^ (8 * 3)). generalize dependent (v / 2 ^ (8 * 4)).
  generalize dependent (v / 2 ^ (8 * 5)). generalize dependent (v / 2 ^ (8 * 6)).
  generalize dependent (v / 2 ^ (8 * 7)). generalize dependent (v / 2 ^ 64).
  intros q8 H8 q7 H7 q6 H6 q5 H5 q4 H4 q3 H3 q2 H2 q1 H0 H1.
  generalize dependent (v mod 2 ^ 64). generalize dependent (v mod 256).
  generalize dependent (q1 mod 256). generalize dependent (q2 mod 256).
  generalize dependent (q3 mod 256). generalize dependent (q4 mod 256).
  generalize dependent (q5 mod 256). generalize dependent (q6 mod 256).
  generalize dependent (q7 mod 256).
  change (2 ^ 64) with 18446744073709551616. intros. lia.
Qed.

Lemma PutUint64_inj v w :
  v < 2 ^ 64 → w < 2 ^ 64 → PutUint64 v = PutUint64 w → v = w.
Proof.
  intros Hv Hw Heq. apply (f_equal le_decode) in Heq.
  by rewrite !PutUint64_decode, !N.mod_small in Heq.
Qed.

Lemma concat_PutUint64_length ids :
  length (concat (map PutUint64 ids)) = (8 * length ids)%nat.
Proof. induction ids as [|v ids IH]; cbn [map concat length]; [done|]. rewrite length_app, IH. cbn. lia. Qed.

Lemma digest_input_length ids c :
  length (digest_input ids c) = (8 * (length ids + 1))%nat.
Proof.
  unfold digest_input. rewrite length_app, concat_PutUint64_length. cbn. lia.
Qed.

Lemma md5_sum_bytes msg :
  Forall (λ x, x < 256) (md5.sum msg) ∧ length (md5.sum msg) = 16%nat.
Proof.
  unfold md5.sum.
  destruct (md5.blocks _ _ _) as [[[a b] c] d].
  split; [|done]. unfold md5.le32. cbn [map app].
  repeat constructor; by apply N.mod_lt.
Qed.

Lemma digest_input_inj ids1 : ∀ ids2 c1 c2,
  Forall (λ v, v < 2 ^ 64) ids1 → Forall (λ v, v < 2 ^ 64) ids2 →
  c1 < 2 ^ 64 → c2 < 2 ^ 64 →
  digest_input ids1 c1 = digest_input ids2 c2 →
  ids1 = ids2 ∧ c1 = c2.
Proof.
  unfold digest_input.
  induction ids1 as [|v ids1 IH]; intros [|w ids2] c1 c2 H1 H2 Hc1 Hc2 Heq.
  - cbn in Heq. rewrite !app_nil_r in Heq || idtac.
    split; [done|]. by apply PutUint64_inj.
  - apply (f_equal length) in Heq.
    rewrite !length_app, concat_PutUint64_length in Heq. cbn in Heq. lia.
  - apply (f_equal length) in Heq.
    rewrite !length_app, concat_PutUint64_length in Heq. cbn in Heq. lia.
  - cbn [map concat] in Heq. rewrite <- !app_assoc in Heq.
    apply app_inj_1 in Heq as [Hvw Hrest]; [|done].
    apply Forall_cons in H1 as [Hv H1]. apply Forall_cons in H2 as [Hw H2].
    apply PutUint64_inj in Hvw; [|done|done]. subst w.
    destruct (IH ids2 c1 c2 H1 H2 Hc1 Hc2 Hrest) as [-> ->]. done.
Qed.

(** X14: the digest is a 64-bit value, and what is hashed for a store
    with n voters is a message of 8(n+1) bytes, each below 256. *)
Theorem getHash_is_uint64 order m :
  getHash_in order m < 2 ^ 64 ∧
  getHash m < 2 ^ 64 ∧
  length (digest_input (sort_Slice order) (ConfigChangeId (members m))) =
    (8 * (length order + 1))%nat ∧
  Forall (λ x, x < 256)
    (digest_input (sort_Slice order) (ConfigChangeId (members m))).
Proof.
  assert (Hbound : ∀ o, getHash_in o m < 2 ^ 64).
  { intros o. rewrite getHash_in_sorted.
    destruct (md5_sum_bytes
      (digest_input (sort_Slice o) (ConfigChangeId (members m)))) as [Hb Hl].
    eapply N.lt_le_trans; [apply le_decode_bound; by apply Forall_take|].
    rewrite length_take, Hl. done. }
  split; [apply Hbound|]. split; [apply Hbound|]. split.
  - rewrite digest_input_length. unfold sort_Slice.
    by rewrite merge_sort_Permutation.
  - unfold digest_input. apply Forall_app. split; [|apply PutUint64_bytes].
    apply Forall_concat, Forall_forall. intros b Hb.
    apply list_elem_of_In, in_map_iff in Hb as (v & <- & _).
    apply PutUint64_bytes.
Qed.

(** X15: nothing is lost before hashing: for 64-bit node ids and change
    orders, two digest inputs are equal only if they list the same voter ids
    and the same change order, and [Uint64] reads back what [PutUint64]
    wrote. *)
Theorem digest_input_determines_voters ids1 ids2 c1 c2 :
  Forall (λ v, v < 2 ^ 64) ids1 → Forall (λ v, v < 2 ^ 64) ids2 →
  c1 < 2 ^ 64 → c2 < 2 ^ 64 →
  (digest_input ids1 c1 = digest_input ids2 c2 → ids1 = ids2 ∧ c1 = c2) ∧
  Uint64 (PutUint64 c1) = c1.
Proof.
  intros H1 H2 Hc1 Hc2. split; [by apply digest_input_inj|].
  unfold Uint64. rewrite take_ge by done.
  by rewrite PutUint64_decode, N.mod_small.
Qed.

Lemma digest_input_determines_voters_witness :
  (digest_input [1; 2] 7 = digest_input [1; 2] 7 → [1; 2] = [1; 2] ∧ 7 = 7) ∧
  Uint64 (PutUint64 7) = 7.
Proof.
  apply (digest_input_determines_voters [1; 2] [1; 2] 7 7);
    repeat constructor.
Defined.

(** ** The store before bootstrap *)

(** X16: a store with no voter, observer, witness or retired id accepts
    every request of the four kinds that is not stale, bootstrap or not:
    also an AddObserver, an AddWitness, and a RemoveNode (which retires its
    target before the group has any member). *)
Theorem empty_store_accepts `{StringsPkg} m cc index :
  Addresses (members m) = ∅ → Observers (members m) = ∅ →
  Witnesses (members m) = ∅ → Removed (members m) = ∅ →
  isKnownType (cc_Type cc) = true →
  ¬ stale m cc →
  ∃ ev, handleConfigChange cc index m =
          Returned true (with_members (applied cc index) m) [ev].
Proof.
  intros Ha Ho Hw Hr Hk Hfresh. apply handle_accepted; [|done].
  apply accepted_of_iff. split; [done|].
  unfold isAddingRemovedNode, isAddingExistingMember, isPromotingObserver,
    isAddingNodeAsObserver, isAddingNodeAsWitness, isAddingWitnessAsNode,
    isAddingWitnessAsObserver, isAddingObserverAsWitness, isDeletingOnlyNode,
    isInvalidObserverPromotion, anyAddress, has.
  rewrite Ha, Ho, Hw, Hr, !lookup_empty, map_to_list_empty, map_size_empty.
  destruct (cc_Type cc); done.
Qed.

Lemma empty_store_accepts_witness :
  ∃ ev, handleConfigChange (mkConfigChange 0 RemoveNode 6 "" false) 3 fresh =
          Returned true
            (with_members (applied (mkConfigChange 0 RemoveNode 6 "" false) 3) fresh)
            [ev].
Proof.
  apply (empty_store_accepts fresh (mkConfigChange 0 RemoveNode 6 "" false) 3);
    try reflexivity.
  intros (_ & _ & Hne). by apply Hne.
Defined.

(** * The key-value message *)

(** ** Integers, buffers and varints *)

Section kvpb_properties.
Import kvpb.
Local Open Scope Z_scope.

Lemma uint64_small z : 0 ≤ z < 2 ^ 64 → uint64 z = z.
Proof. intros. unfold uint64. by apply Z.mod_small. Qed.

Lemma int_small z : - 2 ^ 63 ≤ z < 2 ^ 63 → int z = z.
Proof. intros. unfold int. rewrite Z.mod_small; lia. Qed.

Lemma len_app {A} (p q : list A) : len (p ++ q) = len p + len q.
Proof. unfold len. rewrite length_app. lia. Qed.

Lemma len_cons {A} (x : A) (p : list A) : len (x :: p) = 1 + len p.
Proof. unfold len. cbn [length]. lia. Qed.

Lemma len_nonneg {A} (p : list A) : 0 ≤ len p.
Proof. unfold len. lia. Qed.

Lemma index_middle p x q : index (p ++ x :: q) (len p) = Ok x.
Proof.
  unfold index, len. rewrite Nat2Z.id, list_lookup_middle, length_app by done.
  cbn [length]. case_match eqn:Hc; [done|].
  apply andb_false_iff in Hc as [?%Z.leb_gt|?%Z.ltb_ge]; lia.
Qed.

Lemma store_middle p x q y : store (p ++ x :: q) (len p) y = Ok (p ++ y :: q).
Proof.
  unfold store, len.
  rewrite Nat2Z.id, insert_app_r_alt, Nat.sub_diag, length_app by done.
  cbn [length]. case_match eqn:Hc; [done|].
  apply andb_false_iff in Hc as [?%Z.leb_gt|?%Z.ltb_ge]; lia.
Qed.

Lemma store_end p y : store p (len p) y = Panic "index out of range".
Proof.
  unfold store. case_match eqn:Hc; [|done].
  apply andb_true_iff in Hc as [_ ?%Z.ltb_lt]. lia.
Qed.

Lemma low7 v : 0 ≤ v → Z.land v 0x7f = v mod 128.
Proof. intros. change 0x7f with (Z.ones 7). by rewrite Z.land_ones. Qed.

Lemma lor_128 x : 0 ≤ x < 128 → Z.lor x 0x80 = x + 128.
Proof.
  intros Hx. rewrite <- Z.lxor_lor, <- Z.add_nocarry_lxor; [done| |].
  all: apply Z.bits_inj'; intros n Hn; rewrite Z.land_spec, Z.bits_0;
    destruct (Z.lt_ge_cases n 7) as [Hlt|Hge];
    [ replace (Z.testbit 128 n) with false; [apply andb_false_r|];
      symmetry; change 128 with (2 ^ 7); apply Z.pow2_bits_false; lia
    | rewrite <- (Z.mod_small x (2 ^ 7)) by (change (2 ^ 7) with 128; lia);
      rewrite Z.mod_pow2_bits_high by lia; reflexivity ].
Qed.

Lemma digits_join v : 0 ≤ v → Z.lor (v mod 128) (Z.shiftl (v / 128) 7) = v.
Proof.
  intros Hv. apply Z.bits_inj'. intros n Hn. rewrite Z.lor_spec.
  change 128 with (2 ^ 7).
  destruct (Z.lt_ge_cases n 7) as [Hlt|Hge].
  - rewrite Z.mod_pow2_bits_low, Z.shiftl_spec_low by lia. apply orb_false_r.
  - rewrite Z.mod_pow2_bits_high, Z.shiftl_spec by lia. cbn.
    rewrite <- Z.shiftr_div_pow2, Z.shiftr_spec by lia. f_equal. lia.
Qed.

(** *** Writing a varint *)

Lemma varintBytes_length fuel : ∀ v,
  (1 ≤ length (varintBytes (S fuel) v) ≤ S fuel)%nat.
Proof.
  induction fuel as [|fuel IH]; intros v; cbn [varintBytes].
  - destruct (128 <=? v); cbn; lia.
  - destruct (128 <=? v); [|cbn; lia].
    specialize (IH (v / 128)). cbn [length]. cbn [varintBytes] in IH. lia.
Qed.

Lemma digits_bound v fuel :
  128 ≤ v < 2 ^ (7 * Z.of_nat (S (S fuel))) →
  0 ≤ v / 128 < 2 ^ (7 * Z.of_nat (S fuel)).
Proof.
  intros Hv. split; [apply Z.div_pos; lia|].
  apply Z.div_lt_upper_bound; [lia|].
  replace (7 * Z.of_nat (S (S fuel))) with (7 + 7 * Z.of_nat (S fuel)) in Hv by lia.
  rewrite Z.pow_add_r in Hv by lia. change (2 ^ 7) with 128 in Hv. lia.
Qed.

Lemma encode_loop_writes fuel : ∀ p q v,
  0 ≤ v < 2 ^ (7 * Z.of_nat (S fuel)) →
  (length (varintBytes (S fuel) v) ≤ length q)%nat →
  encodeVarintKv_loop (S fuel) (p ++ q) (len p) v =
    Ok (p ++ varintBytes (S fuel) v
          ++ drop (length (varintBytes (S fuel) v)) q,
        len p + len (varintBytes (S fuel) v)).
Proof.
  induction fuel as [|fuel IH]; intros p q v Hv Hq;
    cbn [encodeVarintKv_loop varintBytes] in *;
    destruct (Z.leb_spec 128 v) as [Hbig|Hsmall];
    try (change (2 ^ (7 * Z.of_nat 1)) with 128 in Hv; lia);
    (destruct q as [|x q]; [cbn in Hq; lia|]);
    rewrite store_middle; cbn [mbind run_bind].
  - unfold uint8. rewrite Z.mod_small by lia. done.
  - rewrite low7, lor_128 by (try apply Z.mod_pos_bound; lia).
    unfold uint8. rewrite (Z.mod_small (_ + 128))
      by (pose proof (Z.mod_pos_bound v 128); lia).
    rewrite Z.shiftr_div_pow2 by lia. change (2 ^ 7) with 128.
    replace (len p + 1) with (len (p ++ [v mod 128 + 128]))
      by (rewrite len_app; reflexivity).
    rewrite (cons_middle _ p q), app_assoc.
    rewrite IH; [|apply digits_bound; lia|cbn in Hq; cbn; lia].
    rewrite <- app_assoc. cbn [app length drop]. do 2 f_equal.
    rewrite len_app. unfold len. cbn [length]. lia.
  - unfold uint8. rewrite Z.mod_small by lia. done.
Qed.

Lemma sovKv_loop_S fuel x n :
  sovKv_loop (S fuel) x n =
    if Z.shiftr x 7 =? 0 then n + 1 else sovKv_loop fuel (Z.shiftr x 7) (n + 1).
Proof. reflexivity. Qed.

Lemma varintBytes_S fuel v :
  varintBytes (S fuel) v =
    if 128 <=? v then (v mod 128 + 128) :: varintBytes fuel (v / 128) else [v].
Proof. reflexivity. Qed.

Lemma sov_loop_counts fuel : ∀ x n,
  0 ≤ x < 2 ^ (7 * Z.of_nat (S fuel)) →
  sovKv_loop (S fuel) x n = n + len (varintBytes (S fuel) x).
Proof.
  induction fuel as [|fuel IH]; intros x n Hx;
    rewrite sovKv_loop_S, varintBytes_S;
    rewrite Z.shiftr_div_pow2 by lia; change (2 ^ 7) with 128;
    destruct (Z.leb_spec 128 x) as [Hbig|Hsmall];
    try (change (2 ^ (7 * Z.of_nat 1)) with 128 in Hx; lia);
    try (rewrite Z.div_small by lia; cbn; unfold len; cbn; lia).
  destruct (Z.eqb_spec (x / 128) 0) as [H0|Hn0].
  - apply Z.div_small_iff in H0; lia.
  - rewrite IH by (apply digits_bound; lia).
    unfold len. cbn [length]. lia.
Qed.
(** *** Reading a varint *)

Lemma varint_step conv s ss p b q acc :
  varint conv (s :: ss) (p ++ b :: q) acc (len p) =
    if b <? 0x80
    then Ok (Z.lor acc (conv (Z.shiftl (Z.land b 0x7F) s)), len p + 1)
    else varint conv ss (p ++ b :: q)
           (Z.lor acc (conv (Z.shiftl (Z.land b 0x7F) s))) (len p + 1).
Proof.
  cbn [varint]. rewrite index_middle. cbn [mbind run_bind].
  destruct (Z.leb_spec (len (p ++ b :: q)) (len p)) as [Hle|]; [|done].
  rewrite len_app in Hle. unfold len in Hle. cbn [length] in Hle. lia.
Qed.

Lemma shifts_drop k :
  (k < 10)%nat → drop k shifts = 7 * Z.of_nat k :: drop (S k) shifts.
Proof. intros Hk. do 10 (destruct k as [|k]; [reflexivity|]). lia. Qed.

Lemma shifted_fits v k :
  (k < 10)%nat → 0 ≤ v < 2 ^ (64 - 7 * Z.of_nat k) →
  uint64 (Z.shiftl v (7 * Z.of_nat k)) = Z.shiftl v (7 * Z.of_nat k).
Proof.
  intros Hk Hv. apply uint64_small. rewrite Z.shiftl_mul_pow2 by lia.
  assert (Hp : 0 < 2 ^ (7 * Z.of_nat k)) by (apply Z.pow_pos_nonneg; lia).
  split; [nia|].
  replace (2 ^ 64) with (2 ^ (64 - 7 * Z.of_nat k) * 2 ^ (7 * Z.of_nat k))
    by (rewrite <- Z.pow_add_r by lia; f_equal; lia).
  nia.
Qed.

Lemma digit_fits v k :
  (k < 10)%nat → 0 ≤ v < 2 ^ (64 - 7 * Z.of_nat k) →
  uint64 (Z.shiftl (v mod 128) (7 * Z.of_nat k)) =
    Z.shiftl (v mod 128) (7 * Z.of_nat k).
Proof.
  intros Hk Hv. apply shifted_fits; [done|].
  pose proof (Z.mod_pos_bound v 128 ltac:(lia)).
  assert (v mod 128 ≤ v) by (apply Z.mod_le; lia). lia.
Qed.

Lemma varint_reads fuel : ∀ k p rest acc v,
  (k + S fuel = 10)%nat →
  0 ≤ v < 2 ^ (64 - 7 * Z.of_nat k) →
  varint uint64 (drop k shifts) (p ++ varintBytes (S fuel) v ++ rest) acc (len p) =
    Ok (Z.lor acc (Z.shiftl v (7 * Z.of_nat k)),
        len p + len (varintBytes (S fuel) v)).
Proof.
  induction fuel as [|fuel IH]; intros k p rest acc v Hk Hv;
    rewrite shifts_drop by lia; rewrite varintBytes_S;
    destruct (Z.leb_spec 128 v) as [Hbig|Hsmall].
  - assert (k = 9%nat) as -> by lia. change (2 ^ (64 - 7 * Z.of_nat 9)) with 2 in Hv. lia.
  - cbn [app]. rewrite varint_step.
    destruct (Z.ltb_spec v 0x80); [|lia].
    rewrite low7, (Z.mod_small v 128) by lia.
    by rewrite shifted_fits by (done || lia).
  - cbn [app]. rewrite varint_step.
    pose proof (Z.mod_pos_bound v 128 ltac:(lia)) as Hm.
    destruct (Z.ltb_spec (v mod 128 + 128) 0x80); [lia|].
    rewrite low7 by lia.
    replace ((v mod 128 + 128) mod 128) with (v mod 128)
      by (rewrite <- Zplus_mod_idemp_r; change (128 mod 128) with 0;
          by rewrite Z.add_0_r, Z.mod_mod by lia).
    rewrite digit_fits by (done || lia).
    replace (len p + 1) with (len (p ++ [v mod 128 + 128]))
      by (rewrite len_app; reflexivity).
    rewrite (cons_middle _ p), app_assoc.
    assert (Hdiv : 0 ≤ v / 128 < 2 ^ (64 - 7 * Z.of_nat (S k))).
    { split; [apply Z.div_pos; lia|].
      apply Z.div_lt_upper_bound; [lia|].
      replace (64 - 7 * Z.of_nat k) with (7 + (64 - 7 * Z.of_nat (S k))) in Hv by lia.
      rewrite Z.pow_add_r in Hv by lia. change (2 ^ 7) with 128 in Hv. lia. }
    rewrite (IH (S k)) by (done || lia). f_equal. f_equal.
    + rewrite <- Z.lor_assoc. f_equal.
      replace (7 * Z.of_nat (S k)) with (7 + 7 * Z.of_nat k) by lia.
      rewrite <- Z.shiftl_shiftl, <- Z.shiftl_lor by lia.
      by rewrite digits_join by lia.
    + rewrite len_app. unfold len. cbn [length]. lia.
  - cbn [app]. rewrite varint_step.
    destruct (Z.ltb_spec v 0x80); [|lia].
    rewrite low7, (Z.mod_small v 128) by lia.
    by rewrite shifted_fits by (done || lia).
Qed.

Lemma varintOf_reads p rest v :
  0 ≤ v < 2 ^ 64 →
  varint uint64 shifts (p ++ varintOf v ++ rest) 0 (len p) =
    Ok (v, len p + len (varintOf v)).
Proof.
  intros Hv. unfold varintOf.
  pose proof (varint_reads 9 0 p rest 0 v eq_refl Hv) as Hread.
  change (7 * Z.of_nat 0) with 0 in Hread.
  rewrite Z.shiftl_0_r, Z.lor_0_l in Hread. exact Hread.
Qed.
(** *** Reading fields *)

Lemma to_nat_len {A} (p : list A) : Z.to_nat (len p) = length p.
Proof. unfold len. apply Nat2Z.id. Qed.

Lemma tag_read p b q :
  0 ≤ b < 128 →
  varint uint64 shifts (p ++ b :: q) 0 (len p) = Ok (b, len p + 1).
Proof.
  intros Hb. change shifts with (0 :: drop 1 shifts). rewrite varint_step.
  destruct (Z.ltb_spec b 0x80); [|lia].
  rewrite low7, Z.mod_small, Z.shiftl_0_r, uint64_small, Z.lor_0_l by lia.
  done.
Qed.

Lemma slice_middle p s q :
  slice (p ++ s ++ q) (len p) (len p + len s) = Ok s.
Proof.
  unfold slice. pose proof (len_nonneg p). pose proof (len_nonneg s).
  pose proof (len_nonneg q). rewrite !len_app.
  replace (len p + len s - len p) with (len s) by lia.
  rewrite !to_nat_len, drop_app_length, take_app_length.
  case_match eqn:Hc; [done|].
  rewrite !andb_false_iff, !Z.leb_gt in Hc. lia.
Qed.

Lemma readBytes_ok p s rest :
  len (p ++ varintOf (len s) ++ s ++ rest) < 2 ^ 63 →
  readBytes (p ++ varintOf (len s) ++ s ++ rest) (len p) =
    Ok (s, len p + len (varintOf (len s)) + len s).
Proof.
  intros Hl. unfold readBytes.
  pose proof (len_nonneg p). pose proof (len_nonneg s).
  pose proof (len_nonneg rest). pose proof (len_nonneg (varintOf (len s))).
  pose proof Hl as Hl'. rewrite !len_app in Hl'.
  rewrite varintOf_reads by lia. cbn [mbind run_bind].
  rewrite !int_small by (rewrite ?int_small; lia).
  destruct (Z.ltb_spec (len s) 0); [lia|].
  destruct (Z.ltb_spec (len (p ++ varintOf (len s) ++ s ++ rest))
              (len p + len (varintOf (len s)) + len s)) as [Hlt|_];
    [rewrite !len_app in Hlt; lia|].
  rewrite <- len_app. rewrite (app_assoc p).
  by rewrite slice_middle.
Qed.

Lemma tags : 
  int32 (Z.shiftr 0xa 3) = 1 ∧ int (Z.land 0xa 0x7) = 2 ∧
  int32 (Z.shiftr 0x12 3) = 2 ∧ int (Z.land 0x12 0x7) = 2.
Proof. by vm_compute. Qed.

Lemma skipKv_fuel_S fuel dAtA :
  skipKv_fuel (S fuel) dAtA =
    if 0 <? len dAtA then
      '(wire, iNdEx) ← varint uint64 shifts dAtA 0 0;
      let wireType := int (Z.land wire 0x7) in
      if wireType =? 0 then skipVarint shifts dAtA iNdEx
      else if wireType =? 1 then Ok (int (iNdEx + 8))
      else if wireType =? 2 then
        '(length, iNdEx) ← varint int shifts dAtA 0 iNdEx;
        let iNdEx := int (iNdEx + length) in
        if length <? 0 then Err ErrInvalidLengthKv else Ok iNdEx
      else if wireType =? 3 then skipGroup fuel dAtA iNdEx
      else if wireType =? 4 then Ok iNdEx
      else if wireType =? 5 then Ok (int (iNdEx + 4))
      else Err (ErrIllegalWireType wireType)
    else Panic "unreachable".
Proof. reflexivity. Qed.

Lemma skipGroup_S fuel dAtA start :
  skipGroup (S fuel) dAtA start =
    '(innerWire, iNdEx) ← varint uint64 shifts dAtA 0 start;
    if int (Z.land innerWire 0x7) =? 4 then Ok iNdEx
    else
      next ← skipKv_fuel fuel (drop (Z.to_nat start) dAtA);
      skipGroup fuel dAtA (int (start + next)).
Proof. reflexivity. Qed.

Lemma skipKv_fixed tag payload rest :
  wellFormed (FixedField tag payload) →
  skipKv (tag :: rest) = Ok (1 + len payload).
Proof.
  intros [Htag Hkind]. unfold skipKv. rewrite skipKv_fuel_S.
  destruct (Z.ltb_spec 0 (len (tag :: rest))) as [_|Hl];
    [|unfold len in Hl; cbn [length] in Hl; lia].
  pose proof (tag_read [] tag rest ltac:(lia)) as Ht.
  cbn [app] in Ht. change (len (@nil Z)) with 0 in Ht.
  rewrite Ht. cbn [mbind run_bind].
  assert (Hw : int (Z.land tag 7) = Z.land tag 7)
    by (apply int_small; destruct Hkind as [[-> _]|[-> _]]; lia).
  rewrite Hw.
  destruct Hkind as [[-> ->]|[-> ->]]; by vm_compute.
Qed.

Lemma fixed_fieldNum tag :
  24 ≤ tag < 128 → 3 ≤ int32 (Z.shiftr tag 3) ≤ 15.
Proof.
  intros Htag. rewrite Z.shiftr_div_pow2 by lia. change (2 ^ 3) with 8.
  assert (3 ≤ tag / 8 ≤ 15).
  { split; [apply Z.div_le_lower_bound; lia|].
    apply Z.lt_succ_r, Z.div_lt_upper_bound; lia. }
  unfold int32. rewrite Z.mod_small; lia.
Qed.

Lemma Unmarshal_field_ok m p f rest :
  wellFormed f →
  len (p ++ encodeField f ++ rest) < 2 ^ 63 →
  Unmarshal_field m (p ++ encodeField f ++ rest) (len p) =
    Ok (setField m f, len p + len (encodeField f)).
Proof.
  intros Hwf Hl. unfold Unmarshal_field.
  destruct tags as (Hk1 & Hk2 & Hv1 & Hv2).
  destruct f as [s|s|tag payload]; cbn [encodeField setField app] in *.
  - rewrite <- !app_assoc in *. cbn [app] in *.
    rewrite tag_read by lia. cbn [mbind run_bind]. rewrite Hk1, Hk2.
    change (2 =? 4) with false. change (1 <=? 0) with false.
    change (1 =? 1) with true. change (2 =? 2) with true. cbn [negb].
    replace (len p + 1) with (len (p ++ [0xa])) by (rewrite len_app; reflexivity).
    rewrite (cons_middle _ p), app_assoc.
    rewrite readBytes_ok by (by rewrite <- app_assoc). cbn [mbind run_bind].
    do 2 f_equal. rewrite !len_app. unfold len. cbn [length].
    rewrite ?length_app. lia.
  - rewrite <- !app_assoc in *. cbn [app] in *.
    rewrite tag_read by lia. cbn [mbind run_bind]. rewrite Hv1, Hv2.
    change (2 =? 4) with false. change (2 <=? 0) with false.
    change (2 =? 1) with false. change (2 =? 2) with true. cbn [negb].
    replace (len p + 1) with (len (p ++ [0x12])) by (rewrite len_app; reflexivity).
    rewrite (cons_middle _ p), app_assoc.
    rewrite readBytes_ok by (by rewrite <- app_assoc). cbn [mbind run_bind].
    do 2 f_equal. rewrite !len_app. unfold len. cbn [length].
    rewrite ?length_app. lia.
  - pose proof Hwf as [Htag Hkind].
    rewrite tag_read by lia. cbn [mbind run_bind].
    pose proof (fixed_fieldNum tag Htag) as Hf.
    assert (Hw : int (Z.land tag 7) = Z.land tag 7)
      by (apply int_small; destruct Hkind as [[-> _]|[-> _]]; lia).
    rewrite Hw.
    destruct (Z.eqb_spec (Z.land tag 7) 4) as [H4|_];
      [destruct Hkind as [[? _]|[? _]]; lia|].
    destruct (Z.leb_spec (int32 (Z.shiftr tag 3)) 0); [lia|].
    destruct (Z.eqb_spec (int32 (Z.shiftr tag 3)) 1); [lia|].
    destruct (Z.eqb_spec (int32 (Z.shiftr tag 3)) 2); [lia|].
    rewrite to_nat_len, drop_app_length.
    rewrite (skipKv_fixed tag payload (payload ++ rest) Hwf). cbn [mbind run_bind].
    pose proof (len_nonneg p). pose proof (len_nonneg payload).
    pose proof (len_nonneg rest).
    assert (Hlen : len (p ++ tag :: payload ++ rest) =
                   len p + 1 + len payload + len rest)
      by (rewrite len_app, len_cons, len_app; lia).
    rewrite Hlen in *.
    destruct (Z.ltb_spec (1 + len payload) 0); [lia|].
    rewrite int_small by lia.
    destruct (Z.ltb_spec (len p + 1 + len payload + len rest)
                (len p + (1 + len payload))) as [Hlt|_]; [lia|].
    do 2 f_equal. rewrite len_cons. lia.
Qed.
Lemma encodeField_nonempty f : 1 ≤ len (encodeField f).
Proof.
  destruct f; cbn [encodeField app]; rewrite len_cons;
    match goal with |- 1 ≤ 1 + len ?l => pose proof (len_nonneg l) end; lia.
Qed.

Lemma encodeFields_cons f fs :
  encodeFields (f :: fs) = encodeField f ++ encodeFields fs.
Proof. reflexivity. Qed.

Lemma encodeFields_length fs : (length fs ≤ length (encodeFields fs))%nat.
Proof.
  induction fs as [|f fs IH]; [done|].
  rewrite encodeFields_cons, length_app. cbn [length].
  pose proof (encodeField_nonempty f) as Hf. unfold len in Hf. lia.
Qed.

(** The loop of [Unmarshal] over a run of well-formed fields. *)
Lemma Unmarshal_loop_fields fs : ∀ fuel m p rest,
  Forall wellFormed fs →
  len (p ++ encodeFields fs ++ rest) < 2 ^ 63 →
  Unmarshal_loop (length fs + fuel) m (p ++ encodeFields fs ++ rest) (len p) =
    Unmarshal_loop fuel (foldl setField m fs) (p ++ encodeFields fs ++ rest)
      (len p + len (encodeFields fs)).
Proof.
  induction fs as [|f fs IH]; intros fuel m p rest Hwf Hl.
  - cbn [length foldl Nat.add]. by rewrite Z.add_0_r.
  - apply Forall_cons in Hwf as [Hf Hwf].
    cbn [length Nat.add Unmarshal_loop foldl].
    rewrite encodeFields_cons in *. rewrite <- (app_assoc (encodeField f)) in *.
    pose proof (encodeField_nonempty f) as Hne.
    pose proof (len_nonneg (encodeFields fs)).
    pose proof (len_nonneg rest).
    destruct (Z.ltb_spec (len p)
                (len (p ++ encodeField f ++ encodeFields fs ++ rest))) as [_|Hge];
      [|rewrite !len_app in Hge; lia].
    rewrite Unmarshal_field_ok by done.
    replace (len p + len (encodeField f)) with (len (p ++ encodeField f))
      by apply len_app.
    rewrite (app_assoc p (encodeField f)).
    rewrite IH by (by rewrite <- ?app_assoc).
    f_equal. rewrite !len_app. lia.
Qed.

Lemma Unmarshal_loop_end fuel m dAtA :
  Unmarshal_loop (S fuel) m dAtA (len dAtA) = (m, Ok tt).
Proof.
  cbn [Unmarshal_loop]. by rewrite !Z.ltb_irrefl.
Qed.

Lemma Unmarshal_after_fields m fs bad :
  Forall wellFormed fs →
  len (encodeFields fs ++ bad) < 2 ^ 63 →
  Unmarshal m (encodeFields fs ++ bad) =
    Unmarshal_loop (S (length (encodeFields fs ++ bad)) - length fs)
      (foldl setField m fs) (encodeFields fs ++ bad) (len (encodeFields fs)).
Proof.
  intros Hwf Hl. unfold Unmarshal.
  pose proof (encodeFields_length fs) as Hlen.
  replace (S (length (encodeFields fs ++ bad)))
    with (length fs + (S (length (encodeFields fs ++ bad)) - length fs))%nat at 1
    by (rewrite length_app; lia).
  by rewrite (Unmarshal_loop_fields fs _ m [] bad).
Qed.

(** *** Room in the buffer *)

Lemma sovKv_counts v : 0 ≤ v < 2 ^ 64 → sovKv v = len (varintOf v).
Proof.
  intros Hv. unfold sovKv, varintOf. rewrite sov_loop_counts; [lia|].
  change (2 ^ (7 * Z.of_nat 10)) with (2 ^ 70). lia.
Qed.

Lemma varintOf_length v : 1 ≤ len (varintOf v) ≤ 10.
Proof.
  pose proof (varintBytes_length 9 v). unfold varintOf, len. lia.
Qed.

Lemma encode_loop_short fuel : ∀ p q v,
  0 ≤ v < 2 ^ (7 * Z.of_nat (S fuel)) →
  (length q < length (varintBytes (S fuel) v))%nat →
  encodeVarintKv_loop (S fuel) (p ++ q) (len p) v = Panic "index out of range".
Proof.
  induction fuel as [|fuel IH]; intros p q v Hv Hq;
    rewrite varintBytes_S in Hq; cbn [encodeVarintKv_loop];
    destruct (Z.leb_spec 128 v) as [Hbig|Hsmall];
    try (change (2 ^ (7 * Z.of_nat 1)) with 128 in Hv; lia).
  - destruct q as [|x q]; [|cbn in Hq; lia].
    by rewrite app_nil_r, store_end.
  - destruct q as [|x q]; [by rewrite app_nil_r, store_end|].
    rewrite store_middle; cbn [mbind run_bind].
    rewrite Z.shiftr_div_pow2 by lia. change (2 ^ 7) with 128.
    set (b := uint8 _). clearbody b.
    replace (len p + 1) with (len (p ++ [b])) by (rewrite len_app; reflexivity).
    rewrite (cons_middle _ p q), app_assoc.
    apply IH; [apply digits_bound; lia|cbn [length] in Hq; lia].
  - destruct q as [|x q]; [|cbn in Hq; lia].
    by rewrite app_nil_r, store_end.
Qed.

Lemma encodeVarintKv_slot p slot q v :
  0 ≤ v < 2 ^ 64 → len slot = sovKv v →
  encodeVarintKv (p ++ slot ++ q) (len p) v =
    Ok (p ++ varintOf v ++ q, len p + sovKv v).
Proof.
  intros Hv Hslot. rewrite sovKv_counts in * by done.
  unfold encodeVarintKv, varintOf in *. unfold len in Hslot.
  rewrite encode_loop_writes;
    [|change (2 ^ (7 * Z.of_nat 10)) with (2 ^ 70); lia
     |rewrite length_app; lia].
  by rewrite drop_app_length' by lia.
Qed.

Lemma copy_middle p q src :
  copy (p ++ q) (len p) src =
    Ok (p ++ take (length q) src ++ drop (length src) q,
        Z.min (len q) (len src)).
Proof.
  unfold copy. pose proof (len_nonneg p). pose proof (len_nonneg q).
  pose proof (len_nonneg src). rewrite len_app.
  replace (len p + len q - len p) with (len q) by lia.
  case_match eqn:Hc; [|rewrite andb_false_iff, !Z.leb_gt in Hc; lia].
  rewrite to_nat_len, take_app_length. do 3 f_equal. f_equal.
  - destruct (Z.min_spec (len q) (len src)) as [[Hlt ->]|[Hge ->]];
      rewrite to_nat_len; [done|].
    unfold len in Hge. by rewrite !take_ge by lia.
  - destruct (Z.min_spec (len q) (len src)) as [[Hlt ->]|[Hge ->]];
      unfold len in *.
    + rewrite <- Nat2Z.inj_add, Nat2Z.id, <- length_app.
      by rewrite drop_all, drop_ge by lia.
    + rewrite <- Nat2Z.inj_add, Nat2Z.id. by rewrite drop_app_add.
Qed.

Lemma filled_nil d : filled [] d = d.
Proof. reflexivity. Qed.

Lemma drop_next {A} (n : nat) (d : list A) :
  (n < length d)%nat → ∃ x, drop n d = x :: drop (S n) d.
Proof.
  intros Hn. destruct (lookup_lt_is_Some_2 d n Hn) as [x Hx].
  exists x. by apply drop_S.
Qed.

Lemma store_filled w d y :
  (length w < length d)%nat →
  store (filled w d) (len w) y = Ok (filled (w ++ [y]) d).
Proof.
  intros Hw. unfold filled. destruct (drop_next _ _ Hw) as [x ->].
  rewrite store_middle, <- app_assoc, length_app. cbn [app length].
  by rewrite Nat.add_1_r.
Qed.

Lemma store_full w d y :
  (length d ≤ length w)%nat →
  store (filled w d) (len w) y = Panic "index out of range".
Proof.
  intros Hw. unfold filled. rewrite drop_ge, app_nil_r by done.
  apply store_end.
Qed.

Lemma encode_filled w d v :
  0 ≤ v < 2 ^ 64 →
  (length w + length (varintOf v) ≤ length d)%nat →
  encodeVarintKv (filled w d) (len w) v =
    Ok (filled (w ++ varintOf v) d, len (w ++ varintOf v)).
Proof.
  intros Hv Hw. unfold filled, encodeVarintKv, varintOf in *.
  rewrite encode_loop_writes;
    [|change (2 ^ (7 * Z.of_nat 10)) with (2 ^ 70); lia
     |rewrite length_drop; lia].
  by rewrite drop_drop, <- app_assoc, length_app, len_app.
Qed.

Lemma encode_full w d v :
  0 ≤ v < 2 ^ 64 →
  (length d < length w + length (varintOf v))%nat →
  encodeVarintKv (filled w d) (len w) v = Panic "index out of range".
Proof.
  intros Hv Hw. unfold filled, encodeVarintKv, varintOf in *.
  pose proof (varintBytes_length 9 v).
  apply encode_loop_short;
    [change (2 ^ (7 * Z.of_nat 10)) with (2 ^ 70); lia
    |rewrite length_drop; lia].
Qed.

Lemma copy_filled w d src :
  (length w ≤ length d)%nat →
  copy (filled w d) (len w) src =
    Ok (filled (w ++ take (length d - length w) src) d,
        len (take (length d - length w) src)).
Proof.
  intros Hw. unfold filled. rewrite copy_middle, length_drop.
  do 2 f_equal.
  - rewrite <- app_assoc, drop_drop, length_app, length_take. do 2 f_equal.
    destruct (Nat.le_gt_cases (length src) (length d - length w)).
    + f_equal. lia.
    + rewrite !drop_ge; [done|lia|lia].
  - unfold len. rewrite length_drop, length_take. lia.
Qed.

Lemma wire_header m : wire m = header m ++ Val m.
Proof.
  unfold wire, header, encodeFields. cbn [map concat encodeField].
  by rewrite app_nil_r, <- !app_assoc.
Qed.

Lemma Size_wire m :
  len (Key m) < 2 ^ 64 → len (Val m) < 2 ^ 64 →
  Size (Some m) = len (wire m).
Proof.
  intros HK HV. pose proof (len_nonneg (Key m)). pose proof (len_nonneg (Val m)).
  unfold Size. rewrite !uint64_small, !sovKv_counts by lia.
  rewrite wire_header. unfold header. rewrite !len_app.
  change (len [10]) with 1. change (len [18]) with 1. lia.
Qed.

(** [MarshalTo] on a buffer with room for everything before [Val]. *)
Lemma MarshalTo_steps m d :
  len (Key m) < 2 ^ 64 → len (Val m) < 2 ^ 64 →
  (length (header m) ≤ length d)%nat →
  MarshalTo (Some m) d =
    Ok (filled (header m ++ take (length d - length (header m)) (Val m)) d,
        len (header m ++ take (length d - length (header m)) (Val m))).
Proof.
  intros HK HV Hd. pose proof (len_nonneg (Key m)). pose proof (len_nonneg (Val m)).
  assert (Hh : header m =
    (((([] ++ [10]) ++ varintOf (len (Key m))) ++ Key m) ++ [18])
      ++ varintOf (len (Val m))) by (unfold header; by rewrite <- !app_assoc).
  rewrite Hh in *. rewrite !length_app in Hd.
  unfold MarshalTo. rewrite !uint64_small by lia.
  change (store d 0 10) with (store (filled [] d) (len (@nil Z)) 10).
  rewrite store_filled by (cbn [length] in *; lia). cbn [mbind run_bind].
  change (0 + 1) with (len ([] ++ [10])).
  rewrite encode_filled by (rewrite ?length_app; lia). cbn [mbind run_bind].
  rewrite copy_filled by (rewrite ?length_app; lia). cbn [mbind run_bind].
  rewrite (take_ge (Key m)) by (rewrite ?length_app; lia).
  rewrite <- len_app.
  rewrite store_filled by (rewrite ?length_app; cbn [length] in *; lia).
  cbn [mbind run_bind].
  match goal with |- context [len ?w + 1] =>
    replace (len w + 1) with (len (w ++ [18])) by (rewrite (len_app w); reflexivity)
  end.
  rewrite encode_filled by (rewrite ?length_app; lia). cbn [mbind run_bind].
  rewrite copy_filled by (rewrite ?length_app; lia). cbn [mbind run_bind].
  by rewrite <- len_app.
Qed.

(** [MarshalTo] on a buffer that ends before [Val] starts. *)
Lemma MarshalTo_short m d :
  len (Key m) < 2 ^ 64 → len (Val m) < 2 ^ 64 →
  (length d < length (header m))%nat →
  MarshalTo (Some m) d = Panic "index out of range".
Proof.
  intros HK HV Hd. pose proof (len_nonneg (Key m)). pose proof (len_nonneg (Val m)).
  unfold header in Hd. rewrite !length_app in Hd. cbn [length] in Hd.
  unfold MarshalTo. rewrite !uint64_small by lia.
  change (store d 0 10) with (store (filled [] d) (len (@nil Z)) 10).
  destruct (Nat.le_gt_cases (length d) 0) as [Hz|Hz];
    [by rewrite store_full|].
  rewrite store_filled by (cbn [length]; lia). cbn [mbind run_bind].
  change (0 + 1) with (len ([] ++ [10])).
  destruct (Nat.le_gt_cases (1 + length (varintOf (len (Key m)))) (length d))
    as [H1|H1]; [|by rewrite encode_full by (rewrite ?length_app; cbn [length]; lia)].
  rewrite encode_filled by (rewrite ?length_app; cbn [length]; lia).
  cbn [mbind run_bind].
  rewrite copy_filled by (rewrite ?length_app; cbn [length]; lia).
  cbn [mbind run_bind]. rewrite <- len_app.
  destruct (Nat.le_gt_cases (length d)
              (1 + length (varintOf (len (Key m))) + length (Key m))) as [H2|H2].
  { rewrite store_full; [done|].
    rewrite !length_app, length_take. cbn [length]. lia. }
  rewrite (take_ge (Key m)) by (rewrite ?length_app; cbn [length]; lia).
  rewrite store_filled by (rewrite ?length_app; cbn [length]; lia).
  cbn [mbind run_bind].
  match goal with |- context [len ?w + 1] =>
    replace (len w + 1) with (len (w ++ [18])) by (rewrite (len_app w); reflexivity)
  end.
  by rewrite encode_full by (rewrite ?length_app; cbn [length]; lia).
Qed.

Lemma Marshal_wire m :
  len (Key m) < 2 ^ 64 → len (Val m) < 2 ^ 64 →
  Marshal (Some m) = Ok (wire m).
Proof.
  intros HK HV. unfold Marshal. rewrite Size_wire by done.
  rewrite to_nat_len.
  assert (Hd : length (replicate (length (wire m)) 0) = length (wire m))
    by apply length_replicate.
  rewrite MarshalTo_steps; [|done|done|rewrite Hd, wire_header, length_app; lia].
  cbn [mbind run_bind]. rewrite Hd.
  rewrite take_ge by (rewrite wire_header, length_app; lia).
  rewrite <- wire_header. unfold filled.
  rewrite drop_ge by lia.
  exact (slice_middle [] (wire m) []).
Qed.

(** *** Lengths that do not fit *)

Lemma int_range z : - 2 ^ 63 ≤ int z < 2 ^ 63.
Proof. unfold int. pose proof (Z.mod_pos_bound (z + 2 ^ 63) (2 ^ 64)). lia. Qed.

Lemma int_wrap z : 2 ^ 63 ≤ z < 2 ^ 64 + 2 ^ 63 → int z = z - 2 ^ 64.
Proof.
  intros Hz. unfold int.
  replace (z + 2 ^ 63) with (z - 2 ^ 63 + 1 * 2 ^ 64) by lia.
  rewrite Z.mod_add, Z.mod_small by lia. lia.
Qed.

Lemma readBytes_announced p n s :
  0 ≤ n < 2 ^ 64 →
  len (p ++ varintOf n ++ s) < 2 ^ 62 →
  readBytes (p ++ varintOf n ++ s) (len p) =
    if 2 ^ 63 <=? n then Err ErrInvalidLengthKv
    else if 2 ^ 63 <=? len p + len (varintOf n) + n
    then Panic "slice bounds out of range"
    else if len s <? n then Err ErrUnexpectedEOF
    else Ok (take (Z.to_nat n) s, len p + len (varintOf n) + n).
Proof.
  intros Hn Hl. unfold readBytes.
  pose proof (len_nonneg p). pose proof (len_nonneg s).
  pose proof (len_nonneg (varintOf n)).
  rewrite varintOf_reads by done. cbn [mbind run_bind].
  assert (Hlen : len (p ++ varintOf n ++ s) = len p + len (varintOf n) + len s)
    by (rewrite !len_app; lia).
  rewrite Hlen in *.
  destruct (Z.leb_spec (2 ^ 63) n) as [Hneg|Hpos].
  { rewrite int_wrap by lia. by destruct (Z.ltb_spec (n - 2 ^ 64) 0); [|lia]. }
  rewrite (int_small n) by lia.
  destruct (Z.ltb_spec n 0); [lia|].
  destruct (Z.leb_spec (2 ^ 63) (len p + len (varintOf n) + n)) as [Hover|Hfit].
  { rewrite int_wrap by lia.
    destruct (Z.ltb_spec (len p + len (varintOf n) + len s)
                (len p + len (varintOf n) + n - 2 ^ 64)); [lia|].
    unfold slice. cbn [mbind run_bind].
    destruct (Z.leb_spec (len p + len (varintOf n))
                (len p + len (varintOf n) + n - 2 ^ 64)); [lia|].
    by rewrite andb_false_r. }
  rewrite int_small by lia.
  destruct (Z.ltb_spec (len p + len (varintOf n) + len s)
              (len p + len (varintOf n) + n));
    destruct (Z.ltb_spec (len s) n); try lia; [done|].
  unfold slice. rewrite Hlen.
  destruct (Z.leb_spec 0 (len p + len (varintOf n))); [|lia].
  destruct (Z.leb_spec (len p + len (varintOf n))
              (len p + len (varintOf n) + n)); [|lia].
  destruct (Z.leb_spec (len p + len (varintOf n) + n)
              (len p + len (varintOf n) + len s)); [|lia].
  cbn [andb mbind run_bind]. do 3 f_equal.
  - lia.
  - rewrite <- len_app, to_nat_len, app_assoc. apply drop_app_length.
Qed.

Lemma Unmarshal_field_announced m p tag n s :
  lengthTag tag →
  Unmarshal_field m (p ++ announced tag n s) (len p) =
    '(b, i) ← readBytes ((p ++ [tag]) ++ varintOf n ++ s) (len (p ++ [tag]));
    Ok (setField m (if tag =? 0xa then KeyField b else ValField b), i).
Proof.
  intros Htag. unfold Unmarshal_field, announced.
  destruct tags as (Hk1 & Hk2 & Hv1 & Hv2).
  cbn [app]. rewrite tag_read by (destruct Htag; lia). cbn [mbind run_bind].
  rewrite (cons_middle tag p), app_assoc.
  replace (len p + 1) with (len (p ++ [tag])) by (rewrite len_app; reflexivity).
  destruct Htag as [-> | ->].
  - rewrite Hk1, Hk2. reflexivity.
  - rewrite Hv1, Hv2. reflexivity.
Qed.

(** [Unmarshal] after the fields [fs], when what follows makes the loop
    stop. *)
Lemma Unmarshal_stops m fs bad r :
  Forall wellFormed fs →
  len (encodeFields fs ++ bad) < 2 ^ 63 →
  bad ≠ [] →
  (∀ a, r ≠ Ok a) →
  Unmarshal_field (foldl setField m fs) (encodeFields fs ++ bad)
    (len (encodeFields fs)) = r →
  Unmarshal m (encodeFields fs ++ bad) =
    (foldl setField m fs,
     match r with
     | Ok _ => Ok tt
     | Err e => Err e
     | Panic msg => Panic msg
     | OutOfFuel => OutOfFuel
     end).
Proof.
  intros Hwf Hl Hbad Hr Hfield. rewrite Unmarshal_after_fields by done.
  pose proof (encodeFields_length fs) as Hfs.
  assert (Hb : (1 ≤ length bad)%nat) by (destruct bad; [done|cbn; lia]).
  replace (S (length (encodeFields fs ++ bad)) - length fs)%nat
    with (S (length (encodeFields fs ++ bad) - length fs))
    by (rewrite length_app; lia).
  cbn [Unmarshal_loop].
  destruct (Z.ltb_spec (len (encodeFields fs)) (len (encodeFields fs ++ bad)))
    as [_|Hge]; [|rewrite len_app in Hge; unfold len in Hge; lia].
  rewrite Hfield. destruct r as [a| | |]; [by destruct (Hr a)|done..].
Qed.

(** *** Termination *)

Lemma lor_bound a b :
  0 ≤ a < 2 ^ 63 → 0 ≤ b < 2 ^ 63 → Z.lor a b < 2 ^ 63.
Proof.
  intros Ha Hb.
  assert (0 ≤ Z.lor a b) by (apply Z.lor_nonneg; lia).
  destruct (Z.eq_dec (Z.lor a b) 0) as [->|]; [lia|].
  apply Z.log2_lt_pow2; [lia|]. rewrite Z.log2_lor by lia.
  apply Z.max_lub_lt.
  - destruct (Z.eq_dec a 0) as [->|]; [by vm_compute|].
    apply Z.log2_lt_pow2; lia.
  - destruct (Z.eq_dec b 0) as [->|]; [by vm_compute|].
    apply Z.log2_lt_pow2; lia.
Qed.

Lemma index_Ok d i b : index d i = Ok b → 0 ≤ i < len d.
Proof.
  unfold index. destruct (Z.leb_spec 0 i); destruct (Z.ltb_spec i (len d));
    cbn [andb]; (done || lia).
Qed.

Lemma index_definite d i : definite (index d i).
Proof. unfold index. by repeat case_match. Qed.

Lemma varint_progress conv ss : ∀ d acc i w i',
  varint conv ss d acc i = Ok (w, i') → 0 ≤ i ∧ i < i' ≤ len d.
Proof.
  induction ss as [|s ss IH]; intros d acc i w i' Hv; cbn [varint] in Hv;
    [done|].
  destruct (Z.leb_spec (len d) i); [done|].
  destruct (index d i) as [b| | |] eqn:Hb; cbn [mbind run_bind] in Hv; try done.
  apply index_Ok in Hb.
  destruct (b <? 128).
  - injection Hv as _ <-. lia.
  - apply IH in Hv. lia.
Qed.

Lemma varint_definite conv ss : ∀ d acc i, definite (varint conv ss d acc i).
Proof.
  induction ss as [|s ss IH]; intros d acc i; cbn [varint]; [done|].
  destruct (len d <=? i); [done|].
  pose proof (index_definite d i).
  destruct (index d i); cbn [mbind run_bind]; try done.
  destruct (_ <? 128); [done|apply IH].
Qed.

Lemma skipVarint_progress ss : ∀ d i i',
  skipVarint ss d i = Ok i' → 0 ≤ i ∧ i < i' ≤ len d.
Proof.
  induction ss as [|s ss IH]; intros d i i' Hv; cbn [skipVarint] in Hv;
    [done|].
  destruct (Z.leb_spec (len d) i); [done|].
  replace (i + 1 - 1) with i in Hv by lia.
  destruct (index d i) as [b| | |] eqn:Hb; cbn [mbind run_bind] in Hv; try done.
  apply index_Ok in Hb.
  destruct (b <? 128).
  - injection Hv as <-. lia.
  - apply IH in Hv. lia.
Qed.

Lemma skipVarint_definite ss : ∀ d i, definite (skipVarint ss d i).
Proof.
  induction ss as [|s ss IH]; intros d i; cbn [skipVarint]; [done|].
  destruct (len d <=? i); [done|].
  pose proof (index_definite d (i + 1 - 1)).
  destruct (index d (i + 1 - 1)); cbn [mbind run_bind]; try done.
  destruct (_ <? 128); [done|apply IH].
Qed.

Lemma varint_int_bound ss : ∀ d acc i w i',
  varint int ss d acc i = Ok (w, i') →
  (0 ≤ acc → acc < 2 ^ 63) → 0 ≤ w → w < 2 ^ 63.
Proof.
  induction ss as [|s ss IH]; intros d acc i w i' Hv Hacc Hw; cbn [varint] in Hv;
    [done|].
  destruct (len d <=? i); [done|].
  destruct (index d i) as [b| | |]; cbn [mbind run_bind] in Hv; try done.
  assert (Hstep : 0 ≤ Z.lor acc (int (Z.shiftl (Z.land b 127) s)) →
                  Z.lor acc (int (Z.shiftl (Z.land b 127) s)) < 2 ^ 63).
  { intros [H1 H2]%Z.lor_nonneg.
    pose proof (int_range (Z.shiftl (Z.land b 127) s)).
    apply lor_bound; lia. }
  destruct (b <? 128).
  - injection Hv as <- _. by apply Hstep.
  - by apply (IH _ _ _ _ _ Hv).
Qed.

Lemma skipGroup_result fuel : ∀ d start n,
  skipGroup fuel d start = Ok n → 1 ≤ n ≤ len d.
Proof.
  induction fuel as [|fuel IH]; intros d start n Hs; [done|].
  rewrite skipGroup_S in Hs.
  destruct (varint uint64 shifts d 0 start) as [[w i]| | |] eqn:Hv;
    cbn [mbind run_bind] in Hs; try done.
  apply varint_progress in Hv.
  destruct (_ =? 4).
  - injection Hs as <-. lia.
  - destruct (skipKv_fuel fuel _); cbn [mbind run_bind] in Hs; try done.
    by apply IH in Hs.
Qed.

Lemma skipKv_result fuel d n :
  len d < 2 ^ 62 →
  skipKv_fuel fuel d = Ok n →
  1 ≤ n < 2 ^ 63 ∨ - 2 ^ 63 ≤ n < - 2 ^ 62.
Proof.
  intros Hl Hs. destruct fuel as [|fuel]; [done|].
  rewrite skipKv_fuel_S in Hs.
  destruct (0 <? len d); [|done].
  destruct (varint uint64 shifts d 0 0) as [[w i]| | |] eqn:Hv;
    cbn [mbind run_bind] in Hs; try done.
  apply varint_progress in Hv. cbv zeta in Hs.
  destruct (_ =? 0).
  { apply skipVarint_progress in Hs. lia. }
  destruct (_ =? 1).
  { injection Hs as <-. rewrite int_small by lia. lia. }
  destruct (_ =? 2).
  { destruct (varint int shifts d 0 i) as [[length i2]| | |] eqn:Hlen;
      cbn [mbind run_bind] in Hs; try done.
    destruct (Z.ltb_spec length 0); [done|]. injection Hs as <-.
    pose proof (varint_int_bound _ _ _ _ _ _ Hlen ltac:(lia) ltac:(lia)).
    apply varint_progress in Hlen.
    destruct (Z.lt_ge_cases (i2 + length) (2 ^ 63)).
    - rewrite int_small by lia. lia.
    - rewrite int_wrap by lia. lia. }
  destruct (_ =? 3).
  { apply skipGroup_result in Hs. lia. }
  destruct (_ =? 4).
  { injection Hs as <-. lia. }
  destruct (_ =? 5); [|done].
  injection Hs as <-. rewrite int_small by lia. lia.
Qed.

Lemma skip_definite fuel :
  (∀ d, len d < 2 ^ 62 → 1 ≤ Z.of_nat fuel → 2 * len d ≤ Z.of_nat fuel →
        definite (skipKv_fuel fuel d)) ∧
  (∀ d start, len d < 2 ^ 62 → 1 ≤ Z.of_nat fuel →
        (0 ≤ start → 2 * (len d - start) + 1 ≤ Z.of_nat fuel) →
        definite (skipGroup fuel d start)).
Proof.
  induction fuel as [|fuel [IHk IHg]]; [split; intros; lia|].
  split.
  - intros d Hl _ Hf. rewrite skipKv_fuel_S.
    destruct (Z.ltb_spec 0 (len d)); [|done].
    pose proof (varint_definite uint64 shifts d 0 0) as Hd.
    destruct (varint uint64 shifts d 0 0) as [[w i]| | |] eqn:Hv;
      cbn [mbind run_bind]; try done.
    apply varint_progress in Hv. cbv zeta.
    destruct (_ =? 0); [apply skipVarint_definite|].
    destruct (_ =? 1); [done|].
    destruct (_ =? 2).
    { pose proof (varint_definite int shifts d 0 i) as Hd2.
      destruct (varint int shifts d 0 i) as [[length i2]| | |];
        cbn [mbind run_bind]; try done.
      by destruct (length <? 0). }
    destruct (_ =? 3); [apply IHg; lia|].
    destruct (_ =? 4); [done|].
    by destruct (_ =? 5).
  - intros d start Hl _ Hf. rewrite skipGroup_S.
    pose proof (varint_definite uint64 shifts d 0 start) as Hd.
    destruct (varint uint64 shifts d 0 start) as [[w i]| | |] eqn:Hv;
      cbn [mbind run_bind]; try done.
    apply varint_progress in Hv.
    destruct (_ =? 4); [done|].
    assert (Hdrop : len (drop (Z.to_nat start) d) = len d - start)
      by (unfold len in *; rewrite length_drop; lia).
    pose proof (IHk (drop (Z.to_nat start) d)) as Hin.
    rewrite Hdrop in Hin. specialize (Hin ltac:(lia) ltac:(lia) ltac:(lia)).
    destruct (skipKv_fuel fuel (drop (Z.to_nat start) d)) as [next| | |] eqn:Hn;
      cbn [mbind run_bind]; try done.
    apply skipKv_result in Hn; [|lia].
    apply IHg; [done|lia|].
    destruct Hn as [Hn|Hn].
    + destruct (Z.lt_ge_cases (start + next) (2 ^ 63)).
      * rewrite int_small by lia. lia.
      * rewrite int_wrap by lia. lia.
    + rewrite int_small by lia. lia.
Qed.

Lemma skipKv_definite d : len d < 2 ^ 62 → definite (skipKv d).
Proof.
  intros Hl. unfold skipKv. apply skip_definite; [done| |];
    unfold len; lia.
Qed.

Lemma slice_definite d lo hi : definite (slice d lo hi).
Proof. unfold slice. by case_match. Qed.

Lemma slice_Ok d lo hi s : slice d lo hi = Ok s → 0 ≤ lo ≤ hi ∧ hi ≤ len d.
Proof.
  unfold slice. destruct (Z.leb_spec 0 lo); destruct (Z.leb_spec lo hi);
    destruct (Z.leb_spec hi (len d)); cbn [andb]; (done || lia).
Qed.

Lemma readBytes_definite d i : definite (readBytes d i).
Proof.
  unfold readBytes.
  pose proof (varint_definite uint64 shifts d 0 i).
  destruct (varint uint64 shifts d 0 i) as [[n i2]| | |];
    cbn [mbind run_bind]; try done.
  destruct (_ <? 0); [done|]. destruct (_ <? _); [done|].
  pose proof (slice_definite d i2 (int (i2 + int n))).
  by destruct (slice d i2 (int (i2 + int n))).
Qed.

Lemma readBytes_progress d i s i' :
  readBytes d i = Ok (s, i') → 0 ≤ i ∧ i < i' ≤ len d.
Proof.
  unfold readBytes. intros Hr.
  destruct (varint uint64 shifts d 0 i) as [[n i2]| | |] eqn:Hv;
    cbn [mbind run_bind] in Hr; try done.
  apply varint_progress in Hv.
  destruct (_ <? 0); [done|]. destruct (_ <? _); [done|].
  destruct (slice d i2 (int (i2 + int n))) as [b| | |] eqn:Hs;
    cbn [mbind run_bind] in Hr; try done.
  apply slice_Ok in Hs. injection Hr as _ <-. lia.
Qed.

Lemma Unmarshal_field_definite m d i :
  len d < 2 ^ 62 → definite (Unmarshal_field m d i).
Proof.
  intros Hl. unfold Unmarshal_field.
  pose proof (varint_definite uint64 shifts d 0 i).
  destruct (varint uint64 shifts d 0 i) as [[w i2]| | |] eqn:Hv;
    cbn [mbind run_bind]; try done.
  apply varint_progress in Hv. cbv zeta.
  destruct (_ =? 4); [done|]. destruct (_ <=? 0); [done|].
  destruct (_ =? 1).
  { destruct (negb _); [done|]. pose proof (readBytes_definite d i2).
    by destruct (readBytes d i2) as [[]| | |]. }
  destruct (_ =? 2).
  { destruct (negb _); [done|]. pose proof (readBytes_definite d i2).
    by destruct (readBytes d i2) as [[]| | |]. }
  assert (Hdrop : len (drop (Z.to_nat i) d) < 2 ^ 62)
    by (unfold len in *; rewrite length_drop; lia).
  pose proof (skipKv_definite _ Hdrop).
  destruct (skipKv (drop (Z.to_nat i) d)); cbn [mbind run_bind]; try done.
  destruct (_ <? 0); [done|]. by destruct (_ <? _).
Qed.

Lemma Unmarshal_field_progress m d i m' i' :
  len d < 2 ^ 62 →
  Unmarshal_field m d i = Ok (m', i') → 0 ≤ i ∧ (i < i' ∨ i' < 0).
Proof.
  intros Hl. unfold Unmarshal_field. intros Hu.
  destruct (varint uint64 shifts d 0 i) as [[w i2]| | |] eqn:Hv;
    cbn [mbind run_bind] in Hu; try done.
  apply varint_progress in Hv. cbv zeta in Hu.
  destruct (_ =? 4); [done|]. destruct (_ <=? 0); [done|].
  destruct (_ =? 1).
  { destruct (negb _); [done|].
    destruct (readBytes d i2) as [[s i3]| | |] eqn:Hr;
      cbn [mbind run_bind] in Hu; try done.
    apply readBytes_progress in Hr. injection Hu as _ <-. lia. }
  destruct (_ =? 2).
  { destruct (negb _); [done|].
    destruct (readBytes d i2) as [[s i3]| | |] eqn:Hr;
      cbn [mbind run_bind] in Hu; try done.
    apply readBytes_progress in Hr. injection Hu as _ <-. lia. }
  destruct (skipKv (drop (Z.to_nat i) d)) as [skippy| | |] eqn:Hs;
    cbn [mbind run_bind] in Hu; try done.
  apply skipKv_result in Hs; [|unfold len in *; rewrite length_drop; lia].
  destruct (Z.ltb_spec skippy 0); [done|]. destruct (_ <? _); [done|].
  injection Hu as _ <-. split; [lia|].
  destruct (Z.lt_ge_cases (i + skippy) (2 ^ 63)).
  - rewrite int_small by lia. lia.
  - rewrite int_wrap by lia. lia.
Qed.

Lemma Unmarshal_loop_definite fuel : ∀ m d i,
  len d < 2 ^ 62 → 1 ≤ Z.of_nat fuel →
  (0 ≤ i → len d - i + 1 ≤ Z.of_nat fuel) →
  definite (Unmarshal_loop fuel m d i).2.
Proof.
  induction fuel as [|fuel IH]; intros m d i Hl Hf Hi; [lia|].
  cbn [Unmarshal_loop].
  destruct (Z.ltb_spec i (len d)); [|by destruct (_ <? _)].
  pose proof (Unmarshal_field_definite m d i Hl) as Hd.
  destruct (Unmarshal_field m d i) as [[m' i']| | |] eqn:Hu; try done.
  apply Unmarshal_field_progress in Hu as [H0 Hu]; [|done].
  apply IH; [done|lia|lia].
Qed.
Lemma Unmarshal_fields m fs :
  Forall wellFormed fs →
  len (encodeFields fs) < 2 ^ 63 →
  Unmarshal m (encodeFields fs) = (foldl setField m fs, Ok tt).
Proof.
  intros Hwf Hl.
  pose proof (Unmarshal_after_fields m fs [] Hwf) as Hrun.
  rewrite !app_nil_r in Hrun. rewrite Hrun by done.
  pose proof (encodeFields_length fs).
  replace (S (length (encodeFields fs)) - length fs)%nat
    with (S (length (encodeFields fs) - length fs)) by lia.
  apply Unmarshal_loop_end.
Qed.

Lemma Unmarshal_announced m fs tag n s :
  Forall wellFormed fs → lengthTag tag →
  0 ≤ n < 2 ^ 64 →
  len (encodeFields fs ++ announced tag n s) < 2 ^ 62 →
  2 ^ 63 ≤ n ∨ 2 ^ 63 ≤ len (encodeFields fs ++ [tag] ++ varintOf n) + n ∨
    len s < n →
  Unmarshal m (encodeFields fs ++ announced tag n s) =
    (foldl setField m fs,
     if 2 ^ 63 <=? n then Err ErrInvalidLengthKv
     else if 2 ^ 63 <=? len (encodeFields fs ++ [tag] ++ varintOf n) + n
     then Panic "slice bounds out of range"
     else Err ErrUnexpectedEOF).
Proof.
  intros Hwf Htag Hn Hl Hbad.
  assert (Hlen : len (encodeFields fs ++ announced tag n s) =
                 len ((encodeFields fs ++ [tag]) ++ varintOf n ++ s))
    by (unfold announced; by rewrite <- !app_assoc).
  assert (Hpre : len (encodeFields fs ++ [tag] ++ varintOf n) =
                 len (encodeFields fs ++ [tag]) + len (varintOf n))
    by (rewrite app_assoc; apply len_app).
  pose proof (readBytes_announced (encodeFields fs ++ [tag]) n s Hn
                ltac:(by rewrite <- Hlen)) as Hread.
  rewrite <- Hpre in Hread.
  set (r := if 2 ^ 63 <=? n then Err ErrInvalidLengthKv
            else if 2 ^ 63 <=? len (encodeFields fs ++ [tag] ++ varintOf n) + n
            then Panic "slice bounds out of range"
            else @Err (PBKV * Z) ErrUnexpectedEOF).
  assert (Hfield : Unmarshal_field (foldl setField m fs)
            (encodeFields fs ++ announced tag n s) (len (encodeFields fs)) = r).
  { rewrite Unmarshal_field_announced by done. rewrite Hread. subst r.
    destruct (Z.leb_spec (2 ^ 63) n); [done|].
    destruct (Z.leb_spec (2 ^ 63)
                (len (encodeFields fs ++ [tag] ++ varintOf n) + n)); [done|].
    destruct (Z.ltb_spec (len s) n); [done|]. lia. }
  rewrite (Unmarshal_stops m fs (announced tag n s) r); [| done | lia | done | | done].
  - subst r. destruct (2 ^ 63 <=? n); [done|]. by destruct (2 ^ 63 <=? _).
  - intros a. subst r. destruct (2 ^ 63 <=? n); [done|]. by destruct (2 ^ 63 <=? _).
Qed.
(** *** Zigzag *)

Lemma lxor_ones y :
  0 ≤ y < 2 ^ 64 → Z.lxor y (Z.ones 64) = Z.ones 64 - y.
Proof.
  intros Hy.
  assert (Hhigh : ∀ k, 64 ≤ k → Z.testbit y k = false).
  { intros k Hk. destruct (Z.eq_dec y 0) as [->|]; [apply Z.bits_0|].
    apply Z.bits_above_log2; [lia|].
    assert (Z.log2 y < 64) by (apply Z.log2_lt_pow2; lia). lia. }
  rewrite Z.sub_nocarry_ldiff by (apply Z.ldiff_ones_r_low;
    [lia|destruct (Z.eq_dec y 0) as [->|]; [by vm_compute|];
         apply Z.log2_lt_pow2; lia]).
  apply Z.bits_inj'. intros k Hk.
  rewrite Z.lxor_spec, Z.ldiff_spec.
  destruct (Z.lt_ge_cases k 64).
  - rewrite Z.ones_spec_low by lia. by destruct (Z.testbit y k).
  - rewrite Z.ones_spec_high, Hhigh by lia. done.
Qed.
End kvpb_properties.

(** ** The key-value message: sizes, buffers and the wire format *)

Section kvpb_theorems.
Import kvpb.
Local Open Scope Z_scope.

(** X17: for every uint64 [v], [sovKv v] is between 1 and 10, and
    [encodeVarintKv] at an offset that has [sovKv v] bytes of room writes
    exactly [sovKv v] bytes there, returns the offset behind them and
    leaves the bytes before and after as they were; the varint loop of
    [Unmarshal] reads [v] back from these bytes and stops at the same
    offset. *)
Theorem varint_round_trip p slot q v :
  0 ≤ v < 2 ^ 64 → len slot = sovKv v →
  1 ≤ sovKv v ≤ 10 ∧
  ∃ bytes, len bytes = sovKv v ∧
    encodeVarintKv (p ++ slot ++ q) (len p) v =
      Ok (p ++ bytes ++ q, len p + sovKv v) ∧
    varint uint64 shifts (p ++ bytes ++ q) 0 (len p) =
      Ok (v, len p + sovKv v).
Proof.
  intros Hv Hslot. pose proof (varintOf_length v).
  pose proof (sovKv_counts v Hv) as Hsov. split; [lia|].
  exists (varintOf v). split; [done|]. split.
  - by apply encodeVarintKv_slot.
  - rewrite Hsov. by apply varintOf_reads.
Qed.

Lemma varint_round_trip_witness :
  1 ≤ sovKv 300 ≤ 10 ∧
  ∃ bytes, len bytes = sovKv 300 ∧
    encodeVarintKv ([10] ++ [0; 0] ++ [7]) (len [10]) 300 =
      Ok ([10] ++ bytes ++ [7], len [10] + sovKv 300) ∧
    varint uint64 shifts ([10] ++ bytes ++ [7]) 0 (len [10]) =
      Ok (300, len [10] + sovKv 300).
Proof.
  apply (varint_round_trip [10] [0; 0] [7] 300); [lia|reflexivity].
Defined.

(** X18: [encodeVarintKv] does not check the buffer: when fewer than
    [sovKv v] bytes are left at the offset, it panics with an index out of
    range. *)
Theorem encodeVarintKv_needs_room p q v :
  0 ≤ v < 2 ^ 64 → len q < sovKv v →
  encodeVarintKv (p ++ q) (len p) v = Panic "index out of range".
Proof.
  intros Hv Hq. rewrite sovKv_counts in Hq by done.
  unfold encodeVarintKv, varintOf, len in *.
  apply encode_loop_short;
    [change (2 ^ (7 * Z.of_nat 10)) with (2 ^ 70); lia|lia].
Qed.

Lemma encodeVarintKv_needs_room_witness :
  encodeVarintKv ([10] ++ [0]) (len [10]) 300 = Panic "index out of range".
Proof.
  apply (encodeVarintKv_needs_room [10] [0] 300); [lia|reflexivity].
Defined.

(** X19: [Marshal] of a message returns exactly [Size] bytes, and
    [Unmarshal] of these bytes into any message, whatever it held, gives
    the marshalled message back without an error. *)
Theorem Marshal_Unmarshal_round_trip m m0 :
  len (Key m) + len (Val m) < 2 ^ 62 →
  ∃ d, Marshal (Some m) = Ok d ∧ len d = Size (Some m) ∧
       Unmarshal m0 d = (m, Ok tt).
Proof.
  intros Hm. pose proof (len_nonneg (Key m)). pose proof (len_nonneg (Val m)).
  exists (wire m). split; [apply Marshal_wire; lia|].
  split; [symmetry; apply Size_wire; lia|].
  unfold wire. rewrite Unmarshal_fields.
  - by destruct m.
  - by repeat constructor.
  - fold (wire m). rewrite wire_header. unfold header. rewrite !len_app.
    pose proof (varintOf_length (len (Key m))).
    pose proof (varintOf_length (len (Val m))).
    change (len [10]) with 1. change (len [18]) with 1. lia.
Qed.

Lemma Marshal_Unmarshal_round_trip_witness :
  ∃ d, Marshal (Some (mkPBKV [107] [118; 49])) = Ok d ∧
       len d = Size (Some (mkPBKV [107] [118; 49])) ∧
       Unmarshal (mkPBKV [1; 2; 3] []) d = (mkPBKV [107] [118; 49], Ok tt).
Proof.
  apply (Marshal_Unmarshal_round_trip (mkPBKV [107] [118; 49])
           (mkPBKV [1; 2; 3] [])).
  vm_compute. reflexivity.
Defined.

(** X20: [MarshalTo] needs room only for what comes before the bytes of
    [Val]: on such a buffer it never fails. It writes the first
    [len dAtA] bytes of the encoding, leaves the buffer behind the
    encoding as it was, and returns the smaller of [Size] and the buffer
    length, so a buffer that ends inside [Val] gets a cut-off value and no
    error. *)
Theorem MarshalTo_fills_buffer m d :
  len (Key m) < 2 ^ 64 → len (Val m) < 2 ^ 64 →
  Size (Some m) - len (Val m) ≤ len d →
  MarshalTo (Some m) d =
    Ok (take (length d) (wire m) ++ drop (length (wire m)) d,
        Z.min (len d) (Size (Some m))).
Proof.
  intros HK HV Hd. rewrite Size_wire in * by done.
  rewrite wire_header in *. rewrite len_app in Hd.
  assert (Hh : (length (header m) ≤ length d)%nat) by (unfold len in Hd; lia).
  rewrite MarshalTo_steps by done. unfold filled.
  rewrite take_app_ge by done.
  assert (Hrest :
    drop (length (header m ++ take (length d - length (header m)) (Val m))) d =
    drop (length (header m ++ Val m)) d).
  { destruct (Nat.le_gt_cases (length (Val m)) (length d - length (header m))).
    - by rewrite take_ge by done.
    - rewrite !drop_ge; [done| |];
        rewrite length_app, ?length_take; lia. }
  assert (Hn :
    len (header m ++ take (length d - length (header m)) (Val m)) =
    Z.min (len d) (len (header m ++ Val m))).
  { rewrite !len_app. unfold len. rewrite length_take. lia. }
  by rewrite Hrest, Hn.
Qed.

Lemma MarshalTo_fills_buffer_witness :
  MarshalTo (Some (mkPBKV [107] [118; 49])) [0; 0; 0; 0; 0; 0] =
    Ok (take (length [0; 0; 0; 0; 0; 0]) (wire (mkPBKV [107] [118; 49]))
          ++ drop (length (wire (mkPBKV [107] [118; 49]))) [0; 0; 0; 0; 0; 0],
        Z.min (len [0; 0; 0; 0; 0; 0]) (Size (Some (mkPBKV [107] [118; 49])))).
Proof.
  apply (MarshalTo_fills_buffer (mkPBKV [107] [118; 49]) [0; 0; 0; 0; 0; 0]);
    vm_compute; congruence.
Defined.

(** X21: on a buffer too short for what comes before the bytes of [Val],
    [MarshalTo] panics with an index out of range, wherever the buffer
    ends: a cut-off [Key] is followed by a write behind the buffer. *)
Theorem MarshalTo_short_buffer_panics m d :
  len (Key m) < 2 ^ 64 → len (Val m) < 2 ^ 64 →
  len d < Size (Some m) - len (Val m) →
  MarshalTo (Some m) d = Panic "index out of range".
Proof.
  intros HK HV Hd. rewrite Size_wire, wire_header, len_app in Hd by done.
  apply MarshalTo_short; [done..|]. unfold len in Hd. lia.
Qed.

Lemma MarshalTo_short_buffer_panics_witness :
  MarshalTo (Some (mkPBKV [107; 108] [118])) [0; 0; 0] =
    Panic "index out of range".
Proof.
  apply (MarshalTo_short_buffer_panics (mkPBKV [107; 108] [118]) [0; 0; 0]);
    vm_compute; reflexivity.
Defined.

(** X22: [Unmarshal] merges into the message it is called on. On an input
    made of any number of Key fields, Val fields and fixed-width fields of
    the numbers 3 to 15, in any order, it returns no error; each Key or
    Val field replaces the value read before it, the other field keeps
    what it had, and the fixed-width fields are stepped over. The empty
    input leaves the message as it was. *)
Theorem Unmarshal_merges_fields m fs :
  Forall wellFormed fs →
  len (encodeFields fs) < 2 ^ 63 →
  Unmarshal m (encodeFields fs) = (foldl setField m fs, Ok tt).
Proof. apply Unmarshal_fields. Qed.

Lemma Unmarshal_merges_fields_witness :
  Unmarshal (mkPBKV [] [9])
    (encodeFields [KeyField [1]; FixedField 29 [0; 0; 0; 0]; KeyField [2; 3]]) =
  (foldl setField (mkPBKV [] [9])
     [KeyField [1]; FixedField 29 [0; 0; 0; 0]; KeyField [2; 3]], Ok tt).
Proof.
  apply (Unmarshal_merges_fields (mkPBKV [] [9])
           [KeyField [1]; FixedField 29 [0; 0; 0; 0]; KeyField [2; 3]]).
  - apply List.Forall_cons; [exact I|].
    apply List.Forall_cons; [|by repeat constructor].
    split; [lia|]. right. split; reflexivity.
  - vm_compute. reflexivity.
Defined.

(** X23: when a Key or Val field announces more bytes than the input has
    left, [Unmarshal] returns io.ErrUnexpectedEOF, and the message keeps
    what the fields before it have set: the error does not undo them. *)
Theorem Unmarshal_truncated_value m fs tag n s :
  Forall wellFormed fs → lengthTag tag →
  len s < n < 2 ^ 62 →
  len (encodeFields fs ++ announced tag n s) < 2 ^ 62 →
  Unmarshal m (encodeFields fs ++ announced tag n s) =
    (foldl setField m fs, Err ErrUnexpectedEOF).
Proof.
  intros Hwf Htag Hn Hl. pose proof (len_nonneg s).
  rewrite Unmarshal_announced by (done || lia).
  assert (len (encodeFields fs ++ [tag] ++ varintOf n) < 2 ^ 62).
  { unfold announced in Hl. rewrite !len_app in *.
    pose proof (len_nonneg s). lia. }
  destruct (Z.leb_spec (2 ^ 63) n); [lia|].
  by destruct (Z.leb_spec (2 ^ 63)
                 (len (encodeFields fs ++ [tag] ++ varintOf n) + n)); [lia|].
Qed.

Lemma Unmarshal_truncated_value_witness :
  Unmarshal (mkPBKV [] []) (encodeFields [KeyField [1]] ++ announced 18 5 [7; 7]) =
    (foldl setField (mkPBKV [] []) [KeyField [1]], Err ErrUnexpectedEOF).
Proof.
  apply (Unmarshal_truncated_value (mkPBKV [] []) [KeyField [1]] 18 5 [7; 7]).
  - by repeat constructor.
  - by right.
  - vm_compute. by split.
  - vm_compute. reflexivity.
Defined.

(** X24: the length announced by a Key or Val field is added to the
    offset as an [int] with no check for overflow. When the announced
    length is below [2^63] but the sum is not, the sum wraps to a negative
    offset, passes the test against the input length, and [Unmarshal]
    panics in the slice expression instead of returning an error. *)
Theorem Unmarshal_length_overflow_panics m fs tag n s :
  Forall wellFormed fs → lengthTag tag →
  2 ^ 63 - len (encodeFields fs ++ [tag] ++ varintOf n) ≤ n < 2 ^ 63 →
  len (encodeFields fs ++ announced tag n s) < 2 ^ 62 →
  Unmarshal m (encodeFields fs ++ announced tag n s) =
    (foldl setField m fs, Panic "slice bounds out of range").
Proof.
  intros Hwf Htag Hn Hl.
  assert (0 ≤ n).
  { unfold announced in Hl. rewrite !len_app in *.
    pose proof (len_nonneg s). lia. }
  rewrite Unmarshal_announced by (done || lia).
  destruct (Z.leb_spec (2 ^ 63) n); [lia|].
  by destruct (Z.leb_spec (2 ^ 63)
                 (len (encodeFields fs ++ [tag] ++ varintOf n) + n)); [|lia].
Qed.

Lemma Unmarshal_length_overflow_panics_witness :
  Unmarshal (mkPBKV [] []) (encodeFields [] ++ announced 10 (2 ^ 63 - 1) [7]) =
    (foldl setField (mkPBKV [] []) [], Panic "slice bounds out of range").
Proof.
  apply (Unmarshal_length_overflow_panics (mkPBKV [] []) [] 10 (2 ^ 63 - 1) [7]).
  - constructor.
  - by left.
  - vm_compute. by split.
  - vm_compute. reflexivity.
Defined.

(** X25: a Key or Val field whose announced length has bit 63 set is
    refused with ErrInvalidLengthKv, again keeping what the fields before
    it have set. *)
Theorem Unmarshal_negative_length m fs tag n s :
  Forall wellFormed fs → lengthTag tag →
  2 ^ 63 ≤ n < 2 ^ 64 →
  len (encodeFields fs ++ announced tag n s) < 2 ^ 62 →
  Unmarshal m (encodeFields fs ++ announced tag n s) =
    (foldl setField m fs, Err ErrInvalidLengthKv).
Proof.
  intros Hwf Htag Hn Hl.
  rewrite Unmarshal_announced by (done || lia).
  by destruct (Z.leb_spec (2 ^ 63) n); [|lia].
Qed.

Lemma Unmarshal_negative_length_witness :
  Unmarshal (mkPBKV [] []) (encodeFields [] ++ announced 10 (2 ^ 63) []) =
    (foldl setField (mkPBKV [] []) [], Err ErrInvalidLengthKv).
Proof.
  apply (Unmarshal_negative_length (mkPBKV [] []) [] 10 (2 ^ 63) []).
  - constructor.
  - by left.
  - vm_compute. by split.
  - vm_compute. reflexivity.
Defined.

(** X26: decoding terminates. On every input shorter than [2^62] bytes
    the loops of [skipKv] (with its recursion into groups) and of
    [Unmarshal] come to an end with a result, an error or a panic, and
    [skipKv] never reports that it skipped nothing: what it returns is at
    least 1, or negative after an overflow, which is what makes every turn
    of the two loops advance. *)
Theorem decoding_terminates m d :
  len d < 2 ^ 62 →
  definite (skipKv d) ∧ definite (Unmarshal m d).2 ∧
  ∀ n, skipKv d = Ok n → 1 ≤ n ∨ n < 0.
Proof.
  intros Hl. split; [by apply skipKv_definite|]. split.
  - unfold Unmarshal. apply Unmarshal_loop_definite; [done|lia|].
    unfold len. lia.
  - intros n Hn. apply skipKv_result in Hn; [lia|done].
Qed.

Lemma decoding_terminates_witness :
  definite (skipKv [27; 27; 27]) ∧
  definite (Unmarshal (mkPBKV [] []) [27; 27; 27]).2 ∧
  ∀ n, skipKv [27; 27; 27] = Ok n → 1 ≤ n ∨ n < 0.
Proof.
  apply (decoding_terminates (mkPBKV [] []) [27; 27; 27]).
  vm_compute. reflexivity.
Defined.

(** X27: the nil message. [Size] and the getters accept a nil receiver,
    [Marshal] and [MarshalTo] do not: [Marshal] asks [Size] for 0 bytes and
    panics on the first write, [MarshalTo] panics on the first write into
    an empty buffer and on reading [m.Key] otherwise. *)
Theorem nil_message_panics d :
  Size None = 0 ∧ GetKey None = [] ∧ GetVal None = [] ∧
  Marshal None = Panic "index out of range" ∧
  MarshalTo None d =
    Panic (if decide (d = []) then "index out of range"
           else "nil pointer dereference").
Proof.
  repeat split. destruct d as [|x d]; [done|].
  unfold MarshalTo. change (x :: d) with ([] ++ x :: d) at 1.
  change 0 with (len (@nil Z)) at 1. by rewrite store_middle.
Qed.

(** X28: [skipKv] does not look at the payload of a fixed-width field: it
    returns 9 or 5 for the tag alone, whatever follows. [Unmarshal]
    compares the result with the input length, so a fixed-width field cut
    short ends in io.ErrUnexpectedEOF, with the fields before it set. *)
Theorem truncated_fixed_width m fs tag payload rest :
  Forall wellFormed fs → wellFormed (FixedField tag payload) →
  len rest < len payload →
  len (encodeFields fs) < 2 ^ 62 →
  skipKv (tag :: rest) = Ok (1 + len payload) ∧
  Unmarshal m (encodeFields fs ++ tag :: rest) =
    (foldl setField m fs, Err ErrUnexpectedEOF).
Proof.
  intros Hwf Hf Hrest Hl. split; [by apply skipKv_fixed|].
  pose proof Hf as [Htag Hkind]. pose proof (len_nonneg rest).
  pose proof (len_nonneg (encodeFields fs)).
  assert (Hp : len payload ≤ 8) by (destruct Hkind as [[_ ->]|[_ ->]]; lia).
  assert (Hlen : len (encodeFields fs ++ tag :: rest) =
                 len (encodeFields fs) + 1 + len rest)
    by (rewrite len_app, len_cons; lia).
  apply (Unmarshal_stops m fs (tag :: rest) (Err ErrUnexpectedEOF));
    [done|lia|done|done|].
  unfold Unmarshal_field. rewrite tag_read by lia. cbn [mbind run_bind].
  pose proof (fixed_fieldNum tag Htag).
  assert (Hw : int (Z.land tag 7) = Z.land tag 7)
    by (apply int_small; destruct Hkind as [[-> _]|[-> _]]; lia).
  rewrite Hw.
  destruct (Z.eqb_spec (Z.land tag 7) 4) as [H4|_];
    [destruct Hkind as [[? _]|[? _]]; lia|].
  destruct (Z.leb_spec (int32 (Z.shiftr tag 3)) 0); [lia|].
  destruct (Z.eqb_spec (int32 (Z.shiftr tag 3)) 1); [lia|].
  destruct (Z.eqb_spec (int32 (Z.shiftr tag 3)) 2); [lia|].
  rewrite to_nat_len, drop_app_length.
  rewrite (skipKv_fixed tag payload rest Hf). cbn [mbind run_bind].
  rewrite Hlen. pose proof (len_nonneg payload).
  destruct (Z.ltb_spec (1 + len payload) 0); [lia|].
  rewrite int_small by lia.
  by destruct (Z.ltb_spec (len (encodeFields fs) + 1 + len rest)
                 (len (encodeFields fs) + (1 + len payload))); [|lia].
Qed.

Lemma truncated_fixed_width_witness :
  skipKv (25 :: []) = Ok (1 + len [0; 0; 0; 0; 0; 0; 0; 0]) ∧
  Unmarshal (mkPBKV [] []) (encodeFields [ValField [5]] ++ 25 :: []) =
    (foldl setField (mkPBKV [] []) [ValField [5]], Err ErrUnexpectedEOF).
Proof.
  apply (truncated_fixed_width (mkPBKV [] []) [ValField [5]] 25
           [0; 0; 0; 0; 0; 0; 0; 0] []).
  - by repeat constructor.
  - split; [lia|]. left. split; reflexivity.
  - vm_compute. reflexivity.
  - vm_compute. reflexivity.
Defined.

(** X29: [sozKv] is the size of the zigzag encoding: for a uint64 that is
    a non-negative int64 [x] it is the varint size of [2 * x], and for one
    that is the negative int64 [x - 2^64] it is the varint size of
    [2 * (2^64 - x) - 1]. *)
Theorem sozKv_zigzag x :
  0 ≤ x < 2 ^ 64 →
  sozKv x = sovKv (if x <? 2 ^ 63 then 2 * x else 2 * (2 ^ 64 - x) - 1).
Proof.
  intros Hx. unfold sozKv. f_equal.
  rewrite Z.shiftl_mul_pow2, Z.shiftr_div_pow2 by lia.
  change (2 ^ 1) with 2.
  destruct (Z.ltb_spec x (2 ^ 63)).
  - rewrite int_small by lia. rewrite (Z.div_small x) by lia.
    change (uint64 0) with 0. rewrite Z.lxor_0_r.
    rewrite (uint64_small (x * 2)) by lia. rewrite uint64_small by lia. lia.
  - rewrite int_wrap by lia.
    replace ((x - 2 ^ 64) / 2 ^ 63) with (-1)
      by (apply (Z.div_unique _ _ _ (x - 2 ^ 63)); [left; lia|lia]).
    change (uint64 (-1)) with (Z.ones 64).
    assert (Hy : uint64 (x * 2) = x * 2 - 2 ^ 64).
    { unfold uint64.
      replace (x * 2) with (x * 2 - 2 ^ 64 + 1 * 2 ^ 64) by lia.
      rewrite Z.mod_add, Z.mod_small by lia. lia. }
    rewrite Hy.
    rewrite lxor_ones by lia.
    change (Z.ones 64) with (2 ^ 64 - 1).
    rewrite uint64_small by lia. lia.
Qed.

Lemma sozKv_zigzag_witness :
  sozKv (2 ^ 64 - 3) =
    sovKv (if 2 ^ 64 - 3 <? 2 ^ 63 then 2 * (2 ^ 64 - 3)
           else 2 * (2 ^ 64 - (2 ^ 64 - 3)) - 1).
Proof.
  apply (sozKv_zigzag (2 ^ 64 - 3)). vm_compute. by split.
Defined.

End kvpb_theorems.
